(** * vscode-psql-hasql: the embedded-query validation engine

    A shallow embedding of [src/extension.ts]: the fragment hasher
    ([cyrb53]), the fragment extractor ([getHasqlContent]), the query
    rewriter ([normalizeEnding], the syntax / explain / prepare wrappers and
    their parameter handling), the override lookup
    ([getSubstitutionsForDocument]), the validation pass ([runValidation])
    of both generations of the file and the connection pool
    ([createPool]).

    Conventions of the embedding.
    - A JavaScript number that the code only uses as an integer is a [Z];
      the 32-bit conversions of the bit operators are written out.
    - A JavaScript string is a [string]; a character stands for the UTF-16
      code unit with the same number, so the embedding covers texts whose
      code units are below 256 (ASCII and Latin-1).  White space and lower
      casing are the ECMAScript ones restricted to that range, for a locale
      without special casing rules.
    - A JavaScript object used as a dictionary is a [gmap]; where the code
      shares an object between the configuration and a caller, objects live
      in a store and are named by their location.
    - An override table is a [gmap] from positions to type names or
      values; the embedding covers the positions a configuration can bind
      to a parameter, the array-index keys below 2^32 - 1, which
      [Object.keys] lists in ascending order and [parseInt] reads exactly.
    - The database and the editor are collaborators: the database is a
      function from a statement and its bound values to an optional error,
      the editor document is a record of lines.
    - The module [Utf16] embeds the normalisation and the hasher a second
      time, over sequences of 16-bit code units, for the texts that the
      8-bit strings cannot hold. *)

From Stdlib Require Import ZArith List String Ascii Lia Permutation.
From Stdlib Require Import Numbers.DecimalString.
From stdpp Require Import gmap strings list fin_maps sorting.

Local Open Scope string_scope.
Local Open Scope list_scope.
Local Open Scope Z_scope.

(* ===================================================================== *)
(** * Part I: definitions                                                *)
(* ===================================================================== *)

(** ** JavaScript numbers as the bit operators see them *)

(** [ToInt32]: the signed 32-bit value the operators [^], [&] and
    [Math.imul] convert their operands to. *)
Definition toInt32 (z : Z) : Z := (z + 2 ^ 31) mod 2 ^ 32 - 2 ^ 31.

(** [ToUint32]: the unsigned 32-bit value [>>>] converts its left operand to. *)
Definition toUint32 (z : Z) : Z := z mod 2 ^ 32.

(** [a ^ b]. *)
Definition bxor (a b : Z) : Z := toInt32 (Z.lxor (toInt32 a) (toInt32 b)).

(** [a & b]. *)
Definition band (a b : Z) : Z := toInt32 (Z.land (toInt32 a) (toInt32 b)).

(** [a >>> n]. *)
Definition ushr (a n : Z) : Z := Z.shiftr (toUint32 a) (n mod 32).

(** [Math.imul(a, b)]. *)
Definition imul (a b : Z) : Z := toInt32 (toInt32 a * toInt32 b).

(** ** JavaScript strings *)

(** [str.charCodeAt(i)] for the character at that index. *)
Definition charCode (c : ascii) : Z := Z.of_N (N_of_ascii c).

(** The characters matched by [\s] and removed by [trim] / [trimEnd]:
    TAB, LF, VT, FF, CR, SPACE and NBSP. *)
Definition isWhiteSpace (c : ascii) : bool :=
  let n := N_of_ascii c in
  ((9 <=? n) && (n <=? 13) || (n =? 32) || (n =? 160))%N.

Definition isDigit (c : ascii) : bool :=
  let n := N_of_ascii c in ((48 <=? n) && (n <=? 57))%N.

Definition isNonZeroDigit (c : ascii) : bool :=
  let n := N_of_ascii c in ((49 <=? n) && (n <=? 57))%N.

(** Lower casing of one code unit: [A-Z] and the Latin-1 capitals
    (U+00C0 to U+00DE without the multiplication sign U+00D7). *)
Definition toLowerCaseChar (c : ascii) : ascii :=
  let n := N_of_ascii c in
  if ((65 <=? n) && (n <=? 90)
      || (192 <=? n) && (n <=? 222) && negb (n =? 215))%N
  then ascii_of_N (n + 32) else c.

Fixpoint mapChars (f : ascii -> ascii) (s : string) : string :=
  match s with
  | EmptyString => EmptyString
  | String c r => String (f c) (mapChars f r)
  end.

Fixpoint filterChars (keep : ascii -> bool) (s : string) : string :=
  match s with
  | EmptyString => EmptyString
  | String c r => if keep c then String c (filterChars keep r)
                  else filterChars keep r
  end.

(** [s.toLocaleLowerCase()]. *)
Definition toLocaleLowerCase (s : string) : string :=
  mapChars toLowerCaseChar s.

(** [s.replace(/\s/g, '')]. *)
Definition removeWhiteSpace (s : string) : string :=
  filterChars (fun c => negb (isWhiteSpace c)) s.

Definition CR : ascii := ascii_of_N 13.
Definition LF : ascii := ascii_of_N 10.

(** [s.replace(/(\r\n|\n|\r)/gm, "")]: at each position the alternatives
    are tried in order, and the scan resumes after the match. *)
Fixpoint removeLineBreaks (s : string) : string :=
  match s with
  | EmptyString => EmptyString
  | String c r =>
      if Ascii.eqb c CR then
        match r with
        | String d r' => if Ascii.eqb d LF then removeLineBreaks r'
                         else removeLineBreaks r
        | EmptyString => removeLineBreaks r
        end
      else if Ascii.eqb c LF then removeLineBreaks r
      else String c (removeLineBreaks r)
  end.

(** [s.trimStart()], [s.trimEnd()], [s.trim()]. *)
Fixpoint trimStart (s : string) : string :=
  match s with
  | EmptyString => EmptyString
  | String c r => if isWhiteSpace c then trimStart r else s
  end.

Fixpoint trimEnd (s : string) : string :=
  match s with
  | EmptyString => EmptyString
  | String c r =>
      match trimEnd r with
      | EmptyString => if isWhiteSpace c then EmptyString
                       else String c EmptyString
      | r' => String c r'
      end
  end.

Definition trim (s : string) : string := trimStart (trimEnd s).

(** [s.indexOf(needle)]: the index of the first occurrence, or [-1]. *)
Fixpoint indexOfFrom (needle s : string) (i : Z) : Z :=
  if String.prefix needle s then i
  else match s with
       | EmptyString => -1
       | String _ r => indexOfFrom needle r (i + 1)
       end.

Definition indexOf (needle s : string) : Z := indexOfFrom needle s 0.

(** [s.includes(needle)]. *)
Definition includes (needle s : string) : bool :=
  negb (indexOf needle s =? -1).

(** [s.length] as a number. *)
Definition strlen (s : string) : Z := Z.of_nat (String.length s).

(** [s[i]]: [None] stands for [undefined] (an index outside the string). *)
Definition charAt (s : string) (i : Z) : option ascii :=
  if i <? 0 then None else String.get (Z.to_nat i) s.

(** [s.substring(from)] and [s.substring(from, to)] for [0 <= from <= to]. *)
Fixpoint dropChars (n : nat) (s : string) : string :=
  match n, s with
  | O, _ => s
  | S k, String _ r => dropChars k r
  | S _, EmptyString => EmptyString
  end.

Fixpoint takeChars (n : nat) (s : string) : string :=
  match n, s with
  | S k, String c r => String c (takeChars k r)
  | _, _ => EmptyString
  end.

Definition substringFrom (s : string) (from : Z) : string :=
  dropChars (Z.to_nat from) s.

Definition substringBetween (s : string) (from to : Z) : string :=
  takeChars (Z.to_nat (to - from)) (dropChars (Z.to_nat from) s).

(** [parts.join(sep)]. *)
Fixpoint join (sep : string) (parts : list string) : string :=
  match parts with
  | [] => EmptyString
  | [p] => p
  | p :: rest => p +:+ sep +:+ join sep rest
  end.

(** The decimal rendering of an integer, as a template literal prints a
    number of that size. *)
Definition numberToString (z : Z) : string :=
  NilZero.string_of_int (Z.to_int z).

(** ** Fragment hasher *)

(** The loop of [cyrb53]: one step of both lanes per character. *)
Fixpoint cyrb53_loop (str : string) (h1 h2 : Z) : Z * Z :=
  match str with
  | EmptyString => (h1, h2)
  | String c rest =>
      let ch := charCode c in
      cyrb53_loop rest (imul (bxor h1 ch) 2654435761)
                       (imul (bxor h2 ch) 1597334677)
  end.

Definition cyrb53 (str : string) (seed : Z) : Z :=
  let h1 := bxor 0xdeadbeef seed in
  let h2 := bxor 0x41c6ce57 seed in
  let '(h1, h2) := cyrb53_loop str h1 h2 in
  let h1 := bxor (imul (bxor h1 (ushr h1 16)) 2246822507)
                 (imul (bxor h2 (ushr h2 13)) 3266489909) in
  let h2 := bxor (imul (bxor h2 (ushr h2 16)) 2246822507)
                 (imul (bxor h1 (ushr h1 13)) 3266489909) in
  4294967296 * band 2097151 h2 + ushr h1 0.

(** The same hash told in the words of the specification: two unsigned
    32-bit lanes, each multiplied modulo [2^32] after the character is
    XORed in, a cross-lane avalanche, and the 21 low bits of lane 2 placed
    above the 32 bits of lane 1. *)
Definition word32 (z : Z) : Z := z mod 2 ^ 32.

Definition lane_step (h ch k : Z) : Z := word32 (Z.lxor h ch * k).

Definition avalanche (a b : Z) : Z :=
  Z.lxor (word32 (Z.lxor a (Z.shiftr a 16) * 2246822507))
         (word32 (Z.lxor b (Z.shiftr b 13) * 3266489909)).

Definition two_lane_mix (str : string) (seed : Z) : Z :=
  let lanes :=
    fold_left
      (fun '(h1, h2) c =>
         (lane_step h1 (charCode c) 2654435761,
          lane_step h2 (charCode c) 1597334677))
      (list_ascii_of_string str)
      (Z.lxor 0xdeadbeef (word32 seed), Z.lxor 0x41c6ce57 (word32 seed)) in
  let lane1 := avalanche (fst lanes) (snd lanes) in
  let lane2 := avalanche (snd lanes) lane1 in
  (lane2 mod 2 ^ 21) * 2 ^ 32 + lane1.

(** The fragment identity of [runValidation]: normalise, then hash. *)
Definition expressionEssential (expression : string) : string :=
  toLocaleLowerCase (trim (removeWhiteSpace (removeLineBreaks expression))).

Definition expressionHash (expression : string) : Z :=
  cyrb53 (expressionEssential expression) 0.

(** ** Fragment texts beyond Latin-1 *)

(** The normalisation and the hasher over texts given as the sequence of
    their UTF-16 code units.  White space is that of ECMAScript in full.
    Lower casing is the default case conversion of Unicode, which
    [toLocaleLowerCase] performs in a locale without special casing
    rules, for the code units of Basic Latin, of Latin-1 and of the Greek
    letters U+0391 to U+03CB; a text that holds another code unit is
    outside this embedding and has no normal form here. *)
Module Utf16.

(** The code units of a text of the 8-bit embedding. *)
Fixpoint units (s : string) : list N :=
  match s with
  | EmptyString => []
  | String c r => N_of_ascii c :: units r
  end.

(** The code units matched by [\s] and removed by [trim]. *)
Definition isWhiteSpace (u : N) : bool :=
  ((9 <=? u) && (u <=? 13) || (u =? 32) || (u =? 160) || (u =? 0x1680)
   || (0x2000 <=? u) && (u <=? 0x200A) || (u =? 0x2028) || (u =? 0x2029)
   || (u =? 0x202F) || (u =? 0x205F) || (u =? 0x3000) || (u =? 0xFEFF))%N.

Fixpoint removeLineBreaks (s : list N) : list N :=
  match s with
  | [] => []
  | u :: r =>
      if (u =? 13)%N then
        match r with
        | d :: r' => if (d =? 10)%N then removeLineBreaks r'
                     else removeLineBreaks r
        | [] => removeLineBreaks r
        end
      else if (u =? 10)%N then removeLineBreaks r
      else u :: removeLineBreaks r
  end.

Fixpoint removeWhiteSpace (s : list N) : list N :=
  match s with
  | [] => []
  | u :: r => if isWhiteSpace u then removeWhiteSpace r
              else u :: removeWhiteSpace r
  end.

Fixpoint trimStart (s : list N) : list N :=
  match s with
  | [] => []
  | u :: r => if isWhiteSpace u then trimStart r else s
  end.

Fixpoint trimEnd (s : list N) : list N :=
  match s with
  | [] => []
  | u :: r =>
      match trimEnd r with
      | [] => if isWhiteSpace u then [] else [u]
      | r' => u :: r'
      end
  end.

Definition trim (s : list N) : list N := trimStart (trimEnd s).

(** The Greek capital letters (U+03A2 is not a character) and small
    letters, the final sigma U+03C2 among the latter. *)
Definition isGreekCapital (u : N) : bool :=
  ((0x391 <=? u) && (u <=? 0x3A1) || (0x3A3 <=? u) && (u <=? 0x3AB))%N.

Definition isGreekSmall (u : N) : bool :=
  ((0x3B1 <=? u) && (u <=? 0x3CB))%N.

Definition covered (u : N) : bool :=
  (u <? 256)%N || isGreekCapital u || isGreekSmall u.

(** The properties Cased and Case_Ignorable of Unicode on the covered
    code units. *)
Definition isCased (u : N) : bool :=
  ((0x41 <=? u) && (u <=? 0x5A) || (0x61 <=? u) && (u <=? 0x7A)
   || (u =? 0xAA) || (u =? 0xB5) || (u =? 0xBA)
   || (0xC0 <=? u) && (u <=? 0xD6) || (0xD8 <=? u) && (u <=? 0xF6)
   || (0xF8 <=? u) && (u <=? 0xFF))%N
  || isGreekCapital u || isGreekSmall u.

Definition isCaseIgnorable (u : N) : bool :=
  ((u =? 0x27) || (u =? 0x2E) || (u =? 0x3A) || (u =? 0x5E) || (u =? 0x60)
   || (u =? 0xA8) || (u =? 0xAD) || (u =? 0xAF) || (u =? 0xB4)
   || (u =? 0xB7) || (u =? 0xB8))%N.

(** The small letter of one covered code unit. *)
Definition lowerCaseUnit (u : N) : N :=
  if (u <? 256)%N then N_of_ascii (toLowerCaseChar (ascii_of_N u))
  else if isGreekCapital u then (u + 32)%N
  else u.

(** Going away from a position: code units that case conversion ignores,
    then a cased letter. *)
Fixpoint casedBehindIgnorable (s : list N) : bool :=
  match s with
  | [] => false
  | u :: r => if isCaseIgnorable u then casedBehindIgnorable r else isCased u
  end.

(** The one condition of the default conversion that looks at the
    context: a capital sigma that ends a word (a cased letter stands
    before it, none behind it) becomes the final sigma U+03C2.  [before]
    holds the code units already passed, the nearest one first. *)
Fixpoint lowerCaseFrom (before s : list N) : list N :=
  match s with
  | [] => []
  | u :: r =>
      (if (u =? 0x3A3)%N && casedBehindIgnorable before
          && negb (casedBehindIgnorable r)
       then 0x3C2%N else lowerCaseUnit u)
      :: lowerCaseFrom (u :: before) r
  end.

Definition toLocaleLowerCase (s : list N) : option (list N) :=
  if forallb covered s then Some (lowerCaseFrom [] s) else None.

Definition expressionEssential (expression : list N) : option (list N) :=
  toLocaleLowerCase (trim (removeWhiteSpace (removeLineBreaks expression))).

(** [cyrb53] over code units. *)
Fixpoint cyrb53_loop (str : list N) (h1 h2 : Z) : Z * Z :=
  match str with
  | [] => (h1, h2)
  | u :: rest =>
      let ch := Z.of_N u in
      cyrb53_loop rest (imul (bxor h1 ch) 2654435761)
                       (imul (bxor h2 ch) 1597334677)
  end.

Definition cyrb53 (str : list N) (seed : Z) : Z :=
  let h1 := bxor 0xdeadbeef seed in
  let h2 := bxor 0x41c6ce57 seed in
  let '(h1, h2) := cyrb53_loop str h1 h2 in
  let h1 := bxor (imul (bxor h1 (ushr h1 16)) 2246822507)
                 (imul (bxor h2 (ushr h2 13)) 3266489909) in
  let h2 := bxor (imul (bxor h2 (ushr h2 16)) 2246822507)
                 (imul (bxor h1 (ushr h1 13)) 3266489909) in
  4294967296 * band 2097151 h2 + ushr h1 0.

Definition expressionHash (expression : list N) : option Z :=
  match expressionEssential expression with
  | Some essential => Some (cyrb53 essential 0)
  | None => None
  end.

End Utf16.

(** ** Documents, positions and ranges (the editor's side) *)

Record Position := mkPosition { pos_line : Z; pos_character : Z }.

Record Range := mkRange { range_start : Position; range_end : Position }.

Definition isBefore (p q : Position) : bool :=
  (pos_line p <? pos_line q)
  || ((pos_line p =? pos_line q) && (pos_character p <? pos_character q)).

(** [new vscode.Range(startLine, startCharacter, endLine, endCharacter)]:
    the editor stores the two positions in order, swapping them when the
    first one is not before the second. *)
Definition new_Range (startLine startCharacter endLine endCharacter : Z)
  : Range :=
  let s := mkPosition startLine startCharacter in
  let e := mkPosition endLine endCharacter in
  if isBefore s e then mkRange s e else mkRange e s.

(** A text document: its identity, its workspace-relative path
    ([vscode.workspace.asRelativePath(document.fileName)]), its line
    separator and its lines. *)
Record TextDocument := mkTextDocument {
  doc_uri : string;
  doc_relativePath : string;
  doc_eol : string;
  doc_lines : list string
}.

(** [document.getText(range)] for a range inside the document: a
    single-line range is a substring of its line; otherwise the tail of the
    first line, the lines in between and the head of the last line, joined
    by the document's line separator. *)
Definition lineText (doc : TextDocument) (i : Z) : string :=
  nth (Z.to_nat i) (doc_lines doc) EmptyString.

Definition getText (doc : TextDocument) (r : Range) : string :=
  let s := range_start r in
  let e := range_end r in
  if pos_line s =? pos_line e then
    substringBetween (lineText doc (pos_line s))
                     (pos_character s) (pos_character e)
  else
    join (doc_eol doc)
      (substringFrom (lineText doc (pos_line s)) (pos_character s)
       :: firstn (Z.to_nat (pos_line e - pos_line s - 1))
                 (skipn (Z.to_nat (pos_line s + 1)) (doc_lines doc))
       ++ [substringBetween (lineText doc (pos_line e)) 0 (pos_character e)]).

(** ** Fragment extractor *)

Definition HASKELL_HASQL : string := "hasql|".
Definition HASKELL_HASQL_END : string := "|]".

(** The mutable locals of [getHasqlContent]; [sqlStringBound] is [None]
    while it still holds its initial [null]. *)
Record scan_state := mkScan {
  result : list Range;
  startRangePosition : Z;
  sqlStringBound : option string;
  sqlStartLineIndex : Z
}.

Definition scan_init : scan_state := mkScan [] (-1) None (-1).

(** The first [if] of the loop body: look for the start delimiter while
    no fragment is open. *)
Definition scan_open (st : scan_state) (lineIndex : Z) (lineOfText : string)
  : scan_state :=
  if sqlStartLineIndex st =? -1 then
    let hasqlPatternStart := indexOf HASKELL_HASQL lineOfText in
    if negb (hasqlPatternStart =? -1) then
      mkScan (result st)
             (hasqlPatternStart + strlen HASKELL_HASQL)
             (Some HASKELL_HASQL_END)
             lineIndex
    else st
  else st.

(** The second [if]: with a non-empty bound, look for it on the same
    line and close the range. *)
Definition scan_close (st : scan_state) (lineIndex : Z) (lineOfText : string)
  : scan_state :=
  match sqlStringBound st with
  | Some bound =>
      if negb (String.eqb bound EmptyString) then
        let endSqlIndex := indexOf bound lineOfText in
        if negb (endSqlIndex =? -1) then
          mkScan (result st
                  ++ [new_Range (sqlStartLineIndex st) (startRangePosition st)
                                lineIndex endSqlIndex])
                 (startRangePosition st)
                 (Some EmptyString)
                 (-1)
        else st
      else st
  | None => st
  end.

Definition scan_line (st : scan_state) (lineIndex : Z) (lineOfText : string)
  : scan_state :=
  scan_close (scan_open st lineIndex lineOfText) lineIndex lineOfText.

(** The [for] loop over the lines, from [lineIndex] on. *)
Fixpoint scan_lines (st : scan_state) (lineIndex : Z) (ls : list string)
  : scan_state :=
  match ls with
  | [] => st
  | lineOfText :: rest =>
      scan_lines (scan_line st lineIndex lineOfText) (lineIndex + 1) rest
  end.

Definition getHasqlContent (doc : TextDocument) : list Range * bool :=
  let st := scan_lines scan_init 0 (doc_lines doc) in
  match sqlStringBound st with
  | Some EmptyString => (result st, true)
  | _ => (result st, false)
  end.

(** ** Query rewriter *)

Definition NL : string := String LF EmptyString.

Definition normalizeEnding (v : string) : string :=
  let trimmed := trimEnd v in
  let isEnded :=
    match charAt trimmed (strlen trimmed - 1) with
    | Some c => Ascii.eqb c ";"
    | None => false
    end in
  trimmed +:+ (if isEnded then "" else ";").

Definition wrapExpressionInSyntaxCheck (v : string) : string * Position :=
  let isMultiLine := includes NL v in
  let normalized := normalizeEnding v in
  (trim ("DO $SYNTAX_CHECK$ BEGIN RETURN;" +:+ NL +:+ normalized +:+ NL
         +:+ "END; $SYNTAX_CHECK$;" +:+ NL),
   mkPosition (1 + (if isMultiLine then 1 else 0)) 0).

Definition wrapExpressionInExplainCheck (v : string) : string * Position :=
  let isMultiLine := includes NL v in
  let normalized := normalizeEnding v in
  (trim (NL +:+ "EXPLAIN" +:+ NL +:+ normalized +:+ NL),
   mkPosition (1 + (if isMultiLine then 1 else 0)) 0).

(** *** Positional parameters *)

Fixpoint takeWhileChars (p : ascii -> bool) (s : string) : string :=
  match s with
  | EmptyString => EmptyString
  | String c r => if p c then String c (takeWhileChars p r) else EmptyString
  end.

(** The match of [\$[1-9][0-9]*] anchored at the start of [s], if any; the
    star is greedy. *)
Definition matchParameterAt (s : string) : option string :=
  match s with
  | String "$" (String d r) =>
      if isNonZeroDigit d
      then Some (String "$" (String d (takeWhileChars isDigit r)))
      else None
  | _ => None
  end.

(** The texts found by [expression.matchAll] with the global pattern
    [\$[1-9][0-9]*], from left to right; after a match the scan resumes
    behind it ([skip] counts the characters of the last match still to
    pass). *)
Fixpoint matchAllFrom (skip : nat) (s : string) : list string :=
  match s with
  | EmptyString => []
  | String _ r =>
      match skip with
      | S k => matchAllFrom k r
      | O =>
          match matchParameterAt s with
          | Some m => m :: matchAllFrom (String.length m - 1) r
          | None => matchAllFrom 0 r
          end
      end
  end.

Definition matchAllParameters (expression : string) : list string :=
  matchAllFrom 0 expression.

(** [(new Set(matches)).size]. *)
Definition parameters (expression : string) : nat :=
  length (remove_dups (matchAllParameters expression)).

(** *** Values bound to a statement *)

(** The scalars a default value can be (the leaves of the configuration
    object). *)
Inductive jsval :=
| JNull
| JBool (b : bool)
| JNum (z : Z)
| JStr (s : string).

(** What [if (v)] tests. *)
Definition truthy (v : jsval) : bool :=
  match v with
  | JNull => false
  | JBool b => b
  | JNum z => negb (z =? 0)
  | JStr s => negb (String.eqb s EmptyString)
  end.

(** [Array(parameters).fill(null).map((v, i) => ...)] of [runExplainCheck]:
    slot [i] takes [predefinedValues[i+1]] when that is truthy. *)
Definition explainParameterValues
  (predefinedValues : gmap N jsval) (expression : string) : list jsval :=
  imap (fun i v =>
          match predefinedValues !! (N.of_nat i + 1)%N with
          | Some d => if truthy d then d else v
          | None => v
          end)
       (replicate (parameters expression) JNull).

(** *** Type annotations of the explain check *)

(** [Object.keys(o)] of an object with integer keys (array indices, below
    2^32 - 1): ascending. *)
Definition objectKeys {A : Type} (o : gmap N A) : list N :=
  merge_sort N.le (fst <$> map_to_list o).

(** The expansion of a replacement text by [String.prototype.replace] for a
    pattern without capture groups: [$$] is a dollar, [$&] the match, the
    pair dollar-backquote the text before the match, dollar-quote the text
    after it; a dollar before a digit or anything else stays as it is. *)
Fixpoint getSubstitution (matched before after template : string) : string :=
  match template with
  | EmptyString => EmptyString
  | String "$" (String "$" r) =>
      String "$" (getSubstitution matched before after r)
  | String "$" (String "&" r) =>
      matched +:+ getSubstitution matched before after r
  | String "$" (String "`" r) =>
      before +:+ getSubstitution matched before after r
  | String "$" (String "'" r) =>
      after +:+ getSubstitution matched before after r
  | String c r => String c (getSubstitution matched before after r)
  end.

(** [whole.replace(new RegExp(pat, "gm"), template)] for a pattern that
    matches the literal, non-empty text [pat]: [s] is the part of [whole]
    from index [pos] on, [skip] the characters of the last match still to
    pass. *)
Fixpoint replaceFrom (pat template whole : string) (pos skip : nat)
  (s : string) : string :=
  match s with
  | EmptyString => EmptyString
  | String c r =>
      match skip with
      | S k => replaceFrom pat template whole (S pos) k r
      | O =>
          if String.prefix pat s then
            getSubstitution pat (takeChars pos whole)
              (dropChars (pos + String.length pat) whole) template
            +:+ replaceFrom pat template whole (S pos)
                  (String.length pat - 1) r
          else String c (replaceFrom pat template whole (S pos) 0 r)
      end
  end.

Definition replaceAllLiteral (pat template whole : string) : string :=
  replaceFrom pat template whole 0 0 whole.

(** One step of the [reduce] over [knownTypes]: [position] is
    [parseInt(v)], exact for the keys of the embedding, the pattern is the
    text of [\$position]. *)
Definition annotateType (predefinedTypes : gmap N string)
  (acc : string) (position : N) : string :=
  let shown := numberToString (Z.of_N position) in
  replaceAllLiteral
    ("$" +:+ shown)
    ("$" +:+ shown +:+ "::"
     +:+ default "undefined" (predefinedTypes !! position))
    acc.

Definition explainActualQuery
  (predefinedTypes : gmap N string) (expression : string) : string :=
  fold_left (annotateType predefinedTypes)
            (objectKeys predefinedTypes)
            (fst (wrapExpressionInExplainCheck expression)).

(** ** The prepare-only generation of the rewriter *)

Module PrepareGeneration.

(** [Array(parameters).fill('unknown').map((v, i) => ...)]: slot [i]
    takes the type name [predefinedTypes[i+1]] when that is a non-empty
    string. *)
Definition prepareParameterValues
  (predefinedTypes : gmap N string) (expression : string) : list string :=
  imap (fun i v =>
          match predefinedTypes !! (N.of_nat i + 1)%N with
          | Some t => if negb (String.eqb t EmptyString) then t else v
          | None => v
          end)
       (replicate (parameters expression) "unknown").

Definition wrapExpressionInPrepareCheck (v : string) (types : list string)
  : string * Position :=
  let isMultiLine := includes NL v in
  let normalized := normalizeEnding v in
  let typesInPrepare :=
    if (length types =? 0)%nat then "q"
    else "q(" +:+ join ", " types +:+ ")" in
  (trim (NL +:+ "DEALLOCATE ALL; PREPARE " +:+ typesInPrepare +:+ " AS"
         +:+ NL +:+ normalized +:+ NL),
   mkPosition (1 + (if isMultiLine then 1 else 0)) 0).

(** The statement [runPrepareCheck] sends to the database. *)
Definition prepareStatement
  (predefinedTypes : gmap N string) (expression : string) : string :=
  fst (wrapExpressionInPrepareCheck expression
         (prepareParameterValues predefinedTypes expression)).

End PrepareGeneration.

(** ** Override lookup, with the configuration objects in a store *)

(** A JavaScript value of the configuration: a scalar or a reference to an
    object of the store. *)
Inductive value :=
| VUndefined
| VNull
| VBool (b : bool)
| VNum (z : Z)
| VStr (s : string)
| VRef (l : nat).

(** Either a result or a thrown [TypeError]. *)
Inductive outcome (A : Type) :=
| Returns (a : A)
| Throws.

Arguments Returns {A} a.
Arguments Throws {A}.

Definition bind_outcome {A B : Type} (m : outcome A) (k : A -> outcome B)
  : outcome B :=
  match m with
  | Returns a => k a
  | Throws => Throws
  end.

(** The object at a location (an object maps property names to values). *)
Definition objectAt (h : list (gmap string value)) (l : nat)
  : gmap string value :=
  default ∅ (h !! l).

(** The index properties of a string, the only own enumerable properties
    of a scalar. *)
Definition stringProperties (s : string) : gmap string value :=
  list_to_map
    (imap (fun i c => (numberToString (Z.of_nat i), VStr (String c EmptyString)))
          (list_ascii_of_string s)).

(** The own enumerable properties of a value.  Inherited and
    non-enumerable properties are not part of the embedding. *)
Definition ownProperties (h : list (gmap string value)) (v : value)
  : gmap string value :=
  match v with
  | VRef l => objectAt h l
  | VStr s => stringProperties s
  | _ => ∅
  end.

(** [base[key]]: reading a property of [undefined] or [null] throws. *)
Definition getProp (h : list (gmap string value)) (base : value)
  (key : string) : outcome value :=
  match base with
  | VUndefined | VNull => Throws
  | _ => Returns (default VUndefined (ownProperties h base !! key))
  end.

(** The object literal [{}]: a new object at the end of the store. *)
Definition allocEmpty (h : list (gmap string value))
  : list (gmap string value) * value :=
  (h ++ [∅], VRef (length h)).

(** [v ?? {}]. *)
Definition nullishOrEmpty (h : list (gmap string value)) (v : value)
  : list (gmap string value) * value :=
  match v with
  | VUndefined | VNull => allocEmpty h
  | _ => (h, v)
  end.

Definition truthyValue (v : value) : bool :=
  match v with
  | VUndefined | VNull => false
  | VBool b => b
  | VNum z => negb (z =? 0)
  | VStr s => negb (String.eqb s EmptyString)
  | VRef _ => true
  end.

(** [v || {}]. *)
Definition falsyOrEmpty (h : list (gmap string value)) (v : value)
  : list (gmap string value) * value :=
  if truthyValue v then (h, v) else allocEmpty h.

(** [Object.assign(target, source)] for a [target] object: the own
    properties of [source] are written into it. *)
Definition objectAssign (h : list (gmap string value)) (target : nat)
  (source : value) : list (gmap string value) :=
  <[target := ownProperties h source ∪ objectAt h target]> h.

(** [getSubstitutionsForDocument(document, casts)]: the target literal is
    evaluated first, then [casts[key] ?? {}]. *)
Definition getSubstitutionsForDocument (h : list (gmap string value))
  (document : TextDocument) (casts : value)
  : outcome (list (gmap string value) * value) :=
  let key := doc_relativePath document in
  let target := length h in
  let h1 := h ++ [∅] in
  bind_outcome (getProp h1 casts key) (fun found =>
    let '(h2, source) := nullishOrEmpty h1 found in
    Returns (objectAssign h2 target source, VRef target)).

(** [typeCasts[expressionHash] ?? {}] of [runValidation]. *)
Definition expressionOverrides (h : list (gmap string value))
  (typeCasts : value) (hash : Z)
  : outcome (list (gmap string value) * value) :=
  bind_outcome (getProp h typeCasts (numberToString hash)) (fun found =>
    Returns (nullishOrEmpty h found)).

(** The whole lookup as [activate] and [runValidation] perform it, from the
    value the configuration holds: [configuration.get(..) || {}], the copy
    for the document, the entry of the fragment. *)
Definition resolveOverrides (h : list (gmap string value))
  (configured : value) (document : TextDocument) (hash : Z)
  : outcome (list (gmap string value) * value) :=
  let '(h0, casts) := falsyOrEmpty h configured in
  bind_outcome (getSubstitutionsForDocument h0 document casts)
    (fun '(h1, typeCasts) => expressionOverrides h1 typeCasts hash).

(** A caller writing [mapping[key] = v]. *)
Definition setProp (h : list (gmap string value)) (mapping : value)
  (key : string) (v : value) : list (gmap string value) :=
  match mapping with
  | VRef l => <[l := <[key := v]> (objectAt h l)]> h
  | _ => h
  end.

(** What the configuration holds for a path, an identity and a parameter:
    [configured[path][hash][parameter]], read through the store. *)
Definition tableEntry (h : list (gmap string value)) (configured : value)
  (path : string) (hash : Z) (parameter : N) : outcome value :=
  bind_outcome (getProp h configured path) (fun perFile =>
  bind_outcome (getProp h perFile (numberToString hash)) (fun perFragment =>
  getProp h perFragment (numberToString (Z.of_N parameter)))).

(** ** Validation pass *)

Record DatabaseError := mkDatabaseError {
  err_message : string;
  err_hint : option string
}.

Record Diagnostic := mkDiagnostic {
  diag_range : Range;
  diag_message : string
}.

(** The lines written to the output channel, one constructor per template
    with the values it interpolates. *)
Inductive log_line :=
| LogFailedToParse
| LogDetected (count : nat) (uri : string)
| LogValidationScript (hostLine hash : Z) (script : string)
| LogTypeSubstitutions (hostLine : Z)
| LogDefaultValues (hostLine : Z) (values : list jsval)
| LogHash (hash line : Z) (essential : string)
| LogSummary (correct total : nat).

(** Where the callback of one fragment stands: waiting for the answer to
    its syntax check, waiting for the answer to its explain check (the
    syntax verdict in hand), or returned. *)
Inductive callback :=
| AwaitSyntax
| AwaitExplain (syntaxError : option DatabaseError)
| Returned (ok : bool).

(** The state a pass works on: its local [diagnosticsCurrent], the
    diagnostic collection of the editor, the output channel and the
    callbacks of [Promise.all]. *)
Record pass_state := mkPass {
  diagnosticsCurrent : list Diagnostic;
  diagnostics : gmap string (list Diagnostic);
  log : list log_line;
  callbacks : list callback
}.

(** The message of a diagnostic: the three parts, the empty and missing
    ones filtered out, joined by line feeds. *)
Definition diagnosticMessage (hash : Z) (actualError : DatabaseError)
  : string :=
  join NL
    (filter (fun part => part ≠ EmptyString)
       (("Query cyrb53 hash: " +:+ numberToString hash)
        :: err_message actualError
        :: match err_hint actualError with
           | Some hint => [hint]
           | None => []
           end)).

Section ValidationPass.

(** The database collaborator: [pool.query(statement, values)] answers
    with [None] or with the error it rejects the statement with. *)
Variable query : string -> list jsval -> option DatabaseError.

Variable typeCasts : gmap Z (gmap N string).
Variable defaultValues : gmap Z (gmap N jsval).
Variable document : TextDocument.

Definition hostLineOf (range : Range) (p : Position) : Z :=
  pos_line (range_start range) + pos_line p.

(** [runSyntaxCheck] up to its [await]: the line it logs and the
    statement it sends. *)
Definition syntaxCheckLog (expression : string) (hash : Z) (range : Range)
  : list log_line :=
  let '(testExpression, p) := wrapExpressionInSyntaxCheck expression in
  [LogValidationScript (hostLineOf range p) hash testExpression].

Definition runSyntaxCheck (expression : string) : option DatabaseError :=
  query (fst (wrapExpressionInSyntaxCheck expression)) [].

(** [runExplainCheck] up to its [await], and its answer. *)
Definition explainCheckLog (predefinedTypes : gmap N string)
  (predefinedValues : gmap N jsval) (expression : string) (hash : Z)
  (range : Range) : list log_line :=
  let hostLine :=
    hostLineOf range (snd (wrapExpressionInExplainCheck expression)) in
  (if (0 <? length (objectKeys predefinedTypes))%nat
   then [LogTypeSubstitutions hostLine] else [])
  ++ (if (0 <? length (objectKeys predefinedValues))%nat
      then [LogDefaultValues hostLine
              (explainParameterValues predefinedValues expression)]
      else [])
  ++ [LogValidationScript hostLine hash
        (explainActualQuery predefinedTypes expression)].

Definition runExplainCheck (predefinedTypes : gmap N string)
  (predefinedValues : gmap N jsval) (expression : string)
  : option DatabaseError :=
  query (explainActualQuery predefinedTypes expression)
        (explainParameterValues predefinedValues expression).

(** The constants of the callback for the fragment at range [h]. *)
Definition expressionOf (h : Range) : string := getText document h.

Definition expressionTypeCasts (h : Range) : gmap N string :=
  default ∅ (typeCasts !! expressionHash (expressionOf h)).

Definition expressionDefaultValues (h : Range) : gmap N jsval :=
  default ∅ (defaultValues !! expressionHash (expressionOf h)).

(** The callback from its start to its first [await]. *)
Definition callback_start (st : pass_state) (h : Range) : pass_state :=
  mkPass (diagnosticsCurrent st) (diagnostics st)
         (log st ++ syntaxCheckLog (expressionOf h)
                      (expressionHash (expressionOf h)) h)
         (callbacks st ++ [AwaitSyntax]).

(** The callback of fragment [i] resumes: one step from an [await] to
    the next one or to its [return]. *)
Definition callback_resume (st : pass_state) (i : nat) (h : Range)
  : pass_state :=
  let expression := expressionOf h in
  let hash := expressionHash expression in
  match callbacks st !! i with
  | Some AwaitSyntax =>
      mkPass (diagnosticsCurrent st) (diagnostics st)
             (log st ++ explainCheckLog (expressionTypeCasts h)
                          (expressionDefaultValues h) expression hash h)
             (<[i := AwaitExplain (runSyntaxCheck expression)]> (callbacks st))
  | Some (AwaitExplain syntaxError) =>
      let explainError :=
        runExplainCheck (expressionTypeCasts h)
                        (expressionDefaultValues h) expression in
      let log' :=
        log st ++ [LogHash hash (pos_line (range_start h))
                     (expressionEssential expression)] in
      match (match syntaxError with
             | Some e => Some e
             | None => explainError
             end) with
      | None =>
          mkPass (diagnosticsCurrent st) (diagnostics st) log'
                 (<[i := Returned true]> (callbacks st))
      | Some actualError =>
          let pushed :=
            diagnosticsCurrent st
            ++ [mkDiagnostic h (diagnosticMessage hash actualError)] in
          mkPass pushed
                 (<[doc_uri document := pushed]> (diagnostics st))
                 log'
                 (<[i := Returned false]> (callbacks st))
      end
  | _ => st
  end.

Definition step (fragments : list Range) (st : pass_state) (i : nat)
  : pass_state :=
  match fragments !! i with
  | Some h => callback_resume st i h
  | None => st
  end.

Definition returned (t : callback) : option bool :=
  match t with
  | Returned ok => Some ok
  | _ => None
  end.

(** What follows [await Promise.all(..)] once every callback has
    returned with [results]. *)
Definition pass_finish (st : pass_state) (results : list bool)
  : pass_state :=
  let correctAmount := length (filter (fun v => v = true) results) in
  mkPass (diagnosticsCurrent st)
         (<[doc_uri document := diagnosticsCurrent st]> (diagnostics st))
         (log st ++ [LogSummary correctAmount (length results)])
         (callbacks st).

(** [runValidation]: the collection and the channel before the pass, and
    the order [schedule] in which the answers of the database arrive
    (each entry names the fragment whose callback resumes).  The result
    is [None] when the schedule ends before every callback has returned,
    that is while the pass is still waiting. *)
Definition runValidation (schedule : list nat)
  (diagnostics0 : gmap string (list Diagnostic)) (log0 : list log_line)
  : option (gmap string (list Diagnostic) * list log_line) :=
  let hasqls := getHasqlContent document in
  if negb (snd hasqls) then
    Some (diagnostics0, log0 ++ [LogFailedToParse])
  else
    let entered :=
      mkPass [] diagnostics0
             (log0 ++ [LogDetected (length (fst hasqls))
                         (doc_uri document)])
             [] in
    let started := fold_left callback_start (fst hasqls) entered in
    let awaited := fold_left (step (fst hasqls)) schedule started in
    match mapM returned (callbacks awaited) with
    | Some results =>
        let final := pass_finish awaited results in
        Some (diagnostics final, log final)
    | None => None
    end.

(** The verdict of the two checks on one fragment, and the diagnostic
    the pass reports for it. *)
Definition actualErrorOf (h : Range) : option DatabaseError :=
  match runSyntaxCheck (expressionOf h) with
  | Some e => Some e
  | None => runExplainCheck (expressionTypeCasts h)
              (expressionDefaultValues h) (expressionOf h)
  end.

Definition diagnosticOf (h : Range) : option Diagnostic :=
  match actualErrorOf h with
  | Some e =>
      Some (mkDiagnostic h
              (diagnosticMessage (expressionHash (expressionOf h)) e))
  | None => None
  end.

(** *** Notions for reasoning about a pass *)

(** The next state of a callback that resumes. *)
Definition advance (t : callback) (h : Range) : callback :=
  match t with
  | AwaitSyntax =>
      AwaitExplain (runSyntaxCheck (expressionOf h))
  | AwaitExplain _ =>
      Returned (match actualErrorOf h with
                | None => true
                | Some _ => false
                end)
  | Returned ok => Returned ok
  end.

(** A waiting callback holds the verdict of its own syntax check. *)
Definition callback_ok (h : Range) (t : callback) : Prop :=
  match t with
  | AwaitExplain syntaxError =>
      syntaxError = runSyntaxCheck (expressionOf h)
  | _ => True
  end.

(** The diagnostic a callback has pushed so far. *)
Definition settled (h : Range) (t : callback) : list Diagnostic :=
  match t with
  | Returned _ => option_list (diagnosticOf h)
  | _ => []
  end.

Fixpoint reported (fragments : list Range) (ts : list callback)
  : list Diagnostic :=
  match fragments, ts with
  | h :: fragments', t :: ts' => settled h t ++ reported fragments' ts'
  | _, _ => []
  end.

Definition rank (t : callback) : nat :=
  match t with
  | AwaitSyntax => 0
  | AwaitExplain _ => 1
  | Returned _ => 2
  end.

(** What a pass keeps true from one resumption to the next. *)
Record pass_invariant (fragments : list Range)
  (diagnostics0 : gmap string (list Diagnostic)) (log0 : list log_line)
  (st : pass_state) : Prop := {
  inv_callbacks : Forall2 callback_ok fragments (callbacks st);
  inv_current : diagnosticsCurrent st ≡ₚ reported fragments (callbacks st);
  inv_collection :
    diagnostics st = diagnostics0
    \/ exists pushed,
         diagnostics st = <[doc_uri document := pushed]> diagnostics0;
  inv_log : exists entries, log st = log0 ++ entries
}.

End ValidationPass.

(** ** The prepare-only generation of the validation pass *)

Module PrepareValidation.

(** Where the callback of one fragment stands: waiting for the answer to
    its prepare check, or returned. *)
Inductive prepare_callback :=
| AwaitPrepare
| PrepareReturned (ok : bool).

Record prepare_state := mkPreparePass {
  prepareDiagnosticsCurrent : list Diagnostic;
  prepareDiagnostics : gmap string (list Diagnostic);
  prepareLog : list log_line;
  prepareCallbacks : list prepare_callback
}.

Section Pass.

Variable query : string -> list jsval -> option DatabaseError.
Variable typeCasts : gmap Z (gmap N string).
Variable document : TextDocument.

(** [runPrepareCheck] up to its [await], and its answer; the statement is
    sent without values. *)
Definition prepareCheckLog (predefinedTypes : gmap N string)
  (expression : string) (hash : Z) (range : Range) : list log_line :=
  let parameterValues :=
    PrepareGeneration.prepareParameterValues predefinedTypes expression in
  let '(testExpression, p) :=
    PrepareGeneration.wrapExpressionInPrepareCheck expression
      parameterValues in
  let hostLine := pos_line (range_start range) + pos_line p in
  (if (0 <? length (objectKeys predefinedTypes))%nat
   then [LogTypeSubstitutions hostLine] else [])
  ++ [LogValidationScript hostLine hash testExpression].

Definition runPrepareCheck (predefinedTypes : gmap N string)
  (expression : string) : option DatabaseError :=
  query (PrepareGeneration.prepareStatement predefinedTypes expression) [].

Definition prepareTypeCasts (h : Range) : gmap N string :=
  default ∅ (typeCasts !! expressionHash (getText document h)).

(** The callback from its start to its [await]. *)
Definition prepare_start (st : prepare_state) (h : Range) : prepare_state :=
  let expression := getText document h in
  mkPreparePass (prepareDiagnosticsCurrent st) (prepareDiagnostics st)
    (prepareLog st
     ++ prepareCheckLog (prepareTypeCasts h) expression
          (expressionHash expression) h)
    (prepareCallbacks st ++ [AwaitPrepare]).

(** The callback of fragment [i] resumes with the answer of the
    database and runs to its [return]. *)
Definition prepare_resume (st : prepare_state) (i : nat) (h : Range)
  : prepare_state :=
  let expression := getText document h in
  let hash := expressionHash expression in
  match prepareCallbacks st !! i with
  | Some AwaitPrepare =>
      let log' :=
        prepareLog st ++ [LogHash hash (pos_line (range_start h))
                            (expressionEssential expression)] in
      match runPrepareCheck (prepareTypeCasts h) expression with
      | None =>
          mkPreparePass (prepareDiagnosticsCurrent st) (prepareDiagnostics st)
            log' (<[i := PrepareReturned true]> (prepareCallbacks st))
      | Some prepareError =>
          let pushed :=
            prepareDiagnosticsCurrent st
            ++ [mkDiagnostic h (diagnosticMessage hash prepareError)] in
          mkPreparePass pushed
            (<[doc_uri document := pushed]> (prepareDiagnostics st))
            log' (<[i := PrepareReturned false]> (prepareCallbacks st))
      end
  | _ => st
  end.

Definition prepare_step (fragments : list Range) (st : prepare_state)
  (i : nat) : prepare_state :=
  match fragments !! i with
  | Some h => prepare_resume st i h
  | None => st
  end.

Definition prepare_returned (t : prepare_callback) : option bool :=
  match t with
  | PrepareReturned ok => Some ok
  | AwaitPrepare => None
  end.

(** [runValidation] of this generation, with the collection and the
    channel before the pass and the order in which the answers arrive;
    [None] while the pass is still waiting at the end of the schedule. *)
Definition runValidation (schedule : list nat)
  (diagnostics0 : gmap string (list Diagnostic)) (log0 : list log_line)
  : option (gmap string (list Diagnostic) * list log_line) :=
  let hasqls := getHasqlContent document in
  if negb (snd hasqls) then
    Some (diagnostics0, log0 ++ [LogFailedToParse])
  else
    let entered :=
      mkPreparePass [] diagnostics0
        (log0 ++ [LogDetected (length (fst hasqls)) (doc_uri document)])
        [] in
    let started := fold_left prepare_start (fst hasqls) entered in
    let awaited := fold_left (prepare_step (fst hasqls)) schedule started in
    match mapM prepare_returned (prepareCallbacks awaited) with
    | Some results =>
        let correctAmount := length (filter (fun v => v = true) results) in
        Some (<[doc_uri document := prepareDiagnosticsCurrent awaited]>
                (prepareDiagnostics awaited),
              prepareLog awaited
              ++ [LogSummary correctAmount (length results)])
    | None => None
    end.

(** The diagnostic the pass reports for one fragment. *)
Definition prepareDiagnosticOf (h : Range) : option Diagnostic :=
  match runPrepareCheck (prepareTypeCasts h) (getText document h) with
  | Some e =>
      Some (mkDiagnostic h
              (diagnosticMessage (expressionHash (getText document h)) e))
  | None => None
  end.

(** The diagnostics pushed so far, fragment by fragment. *)
Fixpoint prepareReported (fragments : list Range)
  (ts : list prepare_callback) : list Diagnostic :=
  match fragments, ts with
  | h :: fragments', t :: ts' =>
      match t with
      | PrepareReturned _ => option_list (prepareDiagnosticOf h)
      | AwaitPrepare => []
      end ++ prepareReported fragments' ts'
  | _, _ => []
  end.

(** What a pass keeps true from one resumption to the next. *)
Definition prepare_invariant (fragments : list Range)
  (diagnostics0 : gmap string (list Diagnostic)) (log0 : list log_line)
  (st : prepare_state) : Prop :=
  length (prepareCallbacks st) = length fragments
  /\ prepareDiagnosticsCurrent st
     ≡ₚ prepareReported fragments (prepareCallbacks st)
  /\ (prepareDiagnostics st = diagnostics0
      \/ exists pushed,
           prepareDiagnostics st
           = <[doc_uri document := pushed]> diagnostics0)
  /\ exists entries, prepareLog st = log0 ++ entries.

End Pass.

End PrepareValidation.

(** ** The connection pool *)

(** The settings of the extension as [configuration.get] reads them: a
    setting that has no value reads as [undefined]. *)
Definition configurationGet (configuration : gmap string value)
  (key : string) : value :=
  default VUndefined (configuration !! key).

(** The options a pool is made with. *)
Record PoolOptions := mkPoolOptions {
  host : value;
  port : value;
  user : value;
  password : value;
  database : value
}.

(** The object literal [createPool] passes to [new Pool]. *)
Definition poolOptions (configuration : gmap string value) : PoolOptions :=
  mkPoolOptions (configurationGet configuration "dbHost")
                (configurationGet configuration "dbPort")
                (configurationGet configuration "dbUser")
                (configurationGet configuration "dbUser")
                (configurationGet configuration "dbName").

(** How a promise settles. *)
Inductive settlement (A : Type) :=
| Resolved (a : A)
| Rejected (message : string).

Arguments Resolved {A} a.
Arguments Rejected {A} message.

(** What [createPool] works on: the module variable [pgPool], the pools
    ended so far and the output channel. *)
Record pool_world := mkPoolWorld {
  pgPool : option PoolOptions;
  endedPools : list PoolOptions;
  channel : list string
}.

Section Pool.

(** The database side: the message of the error with which the test
    statement [SELECT 1] of a pool is rejected, and of the error with
    which ending a pool is rejected, if any. *)
Variable testQuery : PoolOptions -> option string.
Variable endPool : PoolOptions -> option string.

Definition createPool_failed (w : pool_world) (message : string)
  : pool_world * settlement PoolOptions :=
  (mkPoolWorld (pgPool w) (endedPools w)
     (channel w ++ ["Failed to test database connection: " +:+ message]),
   Rejected message).

Definition createPool (configuration : gmap string value) (w : pool_world)
  : pool_world * settlement PoolOptions :=
  let pool := poolOptions configuration in
  match testQuery pool with
  | Some message => createPool_failed w message
  | None =>
      match pgPool w with
      | Some previous =>
          match endPool previous with
          | Some message => createPool_failed w message
          | None =>
              (mkPoolWorld (Some pool) (endedPools w ++ [previous])
                 (channel w ++ ["Connection is established!"]),
               Resolved pool)
          end
      | None =>
          (mkPoolWorld (Some pool) (endedPools w)
             (channel w ++ ["Connection is established!"]),
           Resolved pool)
      end
  end.

End Pool.

(* ===================================================================== *)
(** * Part II: the notions of the specification                          *)
(* ===================================================================== *)

(** ** Regions of a document *)

(** A region in the words of the specification: it runs from a start
    token to the next end token behind it, regions do not nest, and a text
    is well formed when it does not end inside a region.  [region_scan]
    reads one line character by character ([skip] counts the characters of
    the last token still to pass) and returns whether the line ends inside
    a region and how many regions it closed. *)
Fixpoint region_scan (inside : bool) (skip : nat) (l : string)
  : bool * nat :=
  match l with
  | EmptyString => (inside, O)
  | String _ r =>
      match skip with
      | S k => region_scan inside k r
      | O =>
          if negb inside && String.prefix HASKELL_HASQL l then
            region_scan true (String.length HASKELL_HASQL - 1) r
          else if inside && String.prefix HASKELL_HASQL_END l then
            let '(inside', n) :=
              region_scan false (String.length HASKELL_HASQL_END - 1) r in
            (inside', S n)
          else region_scan inside 0 r
      end
  end.

(** The number of regions of a sequence of lines read from the state
    [inside]; [None] when the text ends inside a region. *)
Fixpoint regions_from (inside : bool) (ls : list string) : option nat :=
  match ls with
  | [] => if inside then None else Some O
  | l :: rest =>
      let '(inside', n) := region_scan inside 0 l in
      match regions_from inside' rest with
      | Some m => Some (n + m)%nat
      | None => None
      end
  end.

Definition spec_regions (ls : list string) : option nat :=
  regions_from false ls.

(** ** Documents with one region per line at most *)

(** The layout the line-by-line extractor is written for: a document is a
    sequence of blocks, each a line outside any region, a region opened
    and closed on one line, or a region opened on one line and closed on a
    later one. *)
Inductive block :=
| Gap (l : string)
| OneLine (l : string)
| ManyLines (first : string) (middle : list string) (last : string).

Definition block_lines (b : block) : list string :=
  match b with
  | Gap l => [l]
  | OneLine l => [l]
  | ManyLines first middle last => first :: middle ++ [last]
  end.

Definition layout_lines (bs : list block) : list string :=
  concat (map block_lines bs).

Definition is_region (b : block) : bool :=
  match b with
  | Gap _ => false
  | _ => true
  end.

Definition region_count (bs : list block) : nat :=
  length (filter (fun b => is_region b = true) bs).

Definition hasToken (token l : string) : bool :=
  negb (indexOf token l =? -1).

(** Behind the first end token of the line no start token follows. *)
Definition closes_cleanly (l : string) : bool :=
  negb (hasToken HASKELL_HASQL
          (substringFrom l
             (indexOf HASKELL_HASQL_END l + strlen HASKELL_HASQL_END))).

(** What the layout asks of each block: a line outside any region has no
    start token; a one-line region has its first end token behind its
    first start token and nothing opens behind it; a region over several
    lines has no end token on its first line nor on the lines in between,
    and nothing opens behind the end token of its last line. *)
Definition block_ok (b : block) : bool :=
  match b with
  | Gap l => negb (hasToken HASKELL_HASQL l)
  | OneLine l =>
      hasToken HASKELL_HASQL l
      && (indexOf HASKELL_HASQL l + strlen HASKELL_HASQL
          <=? indexOf HASKELL_HASQL_END l)
      && closes_cleanly l
  | ManyLines first middle last =>
      hasToken HASKELL_HASQL first
      && negb (hasToken HASKELL_HASQL_END first)
      && forallb (fun m => negb (hasToken HASKELL_HASQL_END m)) middle
      && hasToken HASKELL_HASQL_END last
      && closes_cleanly last
  end.

(** The span of each region of a layout whose first line has index
    [lineIndex]: from behind the start token to the end token. *)
Fixpoint layout_spans (lineIndex : Z) (bs : list block) : list Range :=
  match bs with
  | [] => []
  | Gap _ :: rest => layout_spans (lineIndex + 1) rest
  | OneLine l :: rest =>
      mkRange
        (mkPosition lineIndex
           (indexOf HASKELL_HASQL l + strlen HASKELL_HASQL))
        (mkPosition lineIndex (indexOf HASKELL_HASQL_END l))
      :: layout_spans (lineIndex + 1) rest
  | ManyLines first middle last :: rest =>
      mkRange
        (mkPosition lineIndex
           (indexOf HASKELL_HASQL first + strlen HASKELL_HASQL))
        (mkPosition (lineIndex + 1 + Z.of_nat (length middle))
           (indexOf HASKELL_HASQL_END last))
      :: layout_spans (lineIndex + 2 + Z.of_nat (length middle)) rest
  end.

(** An unterminated region at the end of a document: a line with a start
    token, and no end token on it nor on any line behind it. *)
Definition unterminated (opener : string) (behind : list string) : bool :=
  hasToken HASKELL_HASQL opener
  && forallb (fun l => negb (hasToken HASKELL_HASQL_END l))
             (opener :: behind).

Definition isBeforeOrEqual (p q : Position) : bool :=
  (pos_line p <? pos_line q)
  || ((pos_line p =? pos_line q) && (pos_character p <=? pos_character q)).

(** Spans in document order that do not overlap: each one ends where or
    behind where it starts, and starts on a later line than the one before
    it ends. *)
Fixpoint spans_in_order (spans : list Range) : Prop :=
  match spans with
  | [] => True
  | r :: rest =>
      isBeforeOrEqual (range_start r) (range_end r) = true
      /\ match rest with
         | [] => True
         | r' :: _ => pos_line (range_end r) < pos_line (range_start r')
         end
      /\ spans_in_order rest
  end.

(** ** States of the extractor *)

(** No fragment is open: the state before the first start token and the
    state after an end token. *)
Definition closed (st : scan_state) : Prop :=
  sqlStartLineIndex st = -1
  /\ (sqlStringBound st = None \/ sqlStringBound st = Some EmptyString).

(** A fragment is open since line [i0], column [c0]. *)
Definition opened (st : scan_state) (i0 c0 : Z) : Prop :=
  0 <= i0 /\ sqlStartLineIndex st = i0 /\ startRangePosition st = c0
  /\ sqlStringBound st = Some HASKELL_HASQL_END.

(** ** Positional parameter tokens *)

(** The tokens in the words of the specification: a dollar sign followed
    by digits. *)
Definition matchDollarDigitsAt (s : string) : option string :=
  match s with
  | String "$" r =>
      match takeWhileChars isDigit r with
      | EmptyString => None
      | ds => Some (String "$" ds)
      end
  | _ => None
  end.

Fixpoint dollarDigitsFrom (skip : nat) (s : string) : list string :=
  match s with
  | EmptyString => []
  | String _ r =>
      match skip with
      | S k => dollarDigitsFrom k r
      | O =>
          match matchDollarDigitsAt s with
          | Some m => m :: dollarDigitsFrom (String.length m - 1) r
          | None => dollarDigitsFrom 0 r
          end
      end
  end.

Definition spec_parameter_count (expression : string) : nat :=
  length (remove_dups (dollarDigitsFrom 0 expression)).

Fixpoint allChars (p : ascii -> bool) (s : string) : bool :=
  match s with
  | EmptyString => true
  | String c r => p c && allChars p r
  end.

Definition startsWith (p : ascii -> bool) (s : string) : bool :=
  match s with
  | EmptyString => false
  | String c _ => p c
  end.

(** A positional parameter as the database writes it: a dollar sign, a
    digit from 1 to 9, and further digits. *)
Definition isParameterToken (t : string) : Prop :=
  exists d ds,
    t = String "$" (String d ds)
    /\ isNonZeroDigit d = true /\ allChars isDigit ds = true.

(** [t] stands in [expression] as a whole token: no digit follows it. *)
Definition occursAsToken (t expression : string) : Prop :=
  exists before behind,
    expression = before +:+ t +:+ behind
    /\ isParameterToken t /\ startsWith isDigit behind = false.

(** ** Letters of Latin-1 and their case *)

(** [u] is a capital letter and [l] its small letter: the letters A to Z
    and the letters U+00C0 to U+00DE (the multiplication sign U+00D7 is
    no letter) have their small letter 32 code units above them. *)
Definition capitalOf (u l : ascii) : Prop :=
  N_of_ascii l = (N_of_ascii u + 32)%N
  /\ ((65 <= N_of_ascii u <= 90)%N
      \/ ((192 <= N_of_ascii u <= 222)%N /\ N_of_ascii u <> 215%N)).

(** The same letter, in the same or in the other case. *)
Definition sameLetter (c d : ascii) : Prop :=
  c = d \/ capitalOf c d \/ capitalOf d c.

(** ** Texts that differ in layout only *)

(** Two texts differ only in white space, line breaks and letter case:
    white space (line breaks are white space) may stand anywhere in either
    text, and the other characters are the same letter, or the same
    character, one for one. *)
Inductive same_up_to_layout : string -> string -> Prop :=
| layout_done : same_up_to_layout EmptyString EmptyString
| layout_space_left c s t :
    isWhiteSpace c = true ->
    same_up_to_layout s t -> same_up_to_layout (String c s) t
| layout_space_right c s t :
    isWhiteSpace c = true ->
    same_up_to_layout s t -> same_up_to_layout s (String c t)
| layout_letter c d s t :
    sameLetter c d ->
    same_up_to_layout s t ->
    same_up_to_layout (String c s) (String d t).

(** ** Ends of strings *)

(** [s] ends in the character [c]. *)
Definition endsIn (c : ascii) (s : string) : Prop :=
  exists p, s = p +:+ String c EmptyString.

Fixpoint lastChar (s : string) : option ascii :=
  match s with
  | EmptyString => None
  | String c EmptyString => Some c
  | String _ r => lastChar r
  end.

(** ** Entries of the override table *)

(** The entry the configuration holds for a path and an identity, read
    without any copy; [None] when the path or the identity is absent (or
    holds [null]). *)
Definition overrideEntry (h : list (gmap string value)) (configured : value)
  (path : string) (hash : Z) : option value :=
  match ownProperties h configured !! path with
  | Some perFile =>
      match ownProperties h perFile !! numberToString hash with
      | Some VUndefined | Some VNull | None => None
      | Some entry => Some entry
      end
  | None => None
  end.

(** ** Occurrences of a token *)

(** [token] occurs in the line [l]. *)
Definition occursIn (token l : string) : Prop :=
  exists before behind, l = before +:+ token +:+ behind.

(** ** Spans of arbitrary documents *)

(** [r] is the span of a fragment of the lines [ls]: it opens behind the
    first start token of line [i], closes at the first end token of line
    [j], and no line from [i] up to [j] (excluded) holds an end token. *)
Definition span_of_lines (ls : list string) (r : Range) : Prop :=
  exists (i j : nat) (opener closer : string),
    (i <= j)%nat
    /\ ls !! i = Some opener /\ ls !! j = Some closer
    /\ hasToken HASKELL_HASQL opener = true
    /\ hasToken HASKELL_HASQL_END closer = true
    /\ (forall k l, (i <= k < j)%nat -> ls !! k = Some l ->
                    hasToken HASKELL_HASQL_END l = false)
    /\ r = new_Range (Z.of_nat i)
             (indexOf HASKELL_HASQL opener + strlen HASKELL_HASQL)
             (Z.of_nat j) (indexOf HASKELL_HASQL_END closer).

(** The same span with the two positions written out: the position
    behind the first start token of line [i] and the position of the
    first end token of line [j], in the order the editor stores them.
    They are swapped when both tokens stand on one line and the end token
    comes first. *)
Definition fragment_span (ls : list string) (r : Range) : Prop :=
  exists (i j : nat) (opener closer : string),
    (i <= j)%nat
    /\ ls !! i = Some opener /\ ls !! j = Some closer
    /\ hasToken HASKELL_HASQL opener = true
    /\ hasToken HASKELL_HASQL_END closer = true
    /\ (forall k l, (i <= k < j)%nat -> ls !! k = Some l ->
                    hasToken HASKELL_HASQL_END l = false)
    /\ let behindStart :=
         mkPosition (Z.of_nat i)
           (indexOf HASKELL_HASQL opener + strlen HASKELL_HASQL) in
       let atEnd :=
         mkPosition (Z.of_nat j) (indexOf HASKELL_HASQL_END closer) in
       r = if (i <? j)%nat
              || (pos_character behindStart <? pos_character atEnd)
           then mkRange behindStart atEnd
           else mkRange atEnd behindStart.

(** What the loop of [getHasqlContent] keeps true, before it reads the
    line of index [n]. *)
Definition scan_invariant (ls : list string) (n : nat) (st : scan_state)
  : Prop :=
  Forall (span_of_lines ls) (result st)
  /\ spans_in_order (result st)
  /\ ((closed st
       /\ Forall (fun r => pos_line (range_end r) < Z.of_nat n) (result st)
       /\ (sqlStringBound st = None ->
           result st = []
           /\ forall k l, (k < n)%nat -> ls !! k = Some l ->
                          hasToken HASKELL_HASQL l = false)
       /\ (sqlStringBound st = Some EmptyString -> result st <> []))
      \/ exists (i0 : nat) (opener : string),
           (i0 < n)%nat /\ ls !! i0 = Some opener
           /\ hasToken HASKELL_HASQL opener = true
           /\ opened st (Z.of_nat i0)
                (indexOf HASKELL_HASQL opener + strlen HASKELL_HASQL)
           /\ (forall k l, (i0 <= k < n)%nat -> ls !! k = Some l ->
                           hasToken HASKELL_HASQL_END l = false)
           /\ Forall (fun r => pos_line (range_end r) < Z.of_nat i0)
                (result st)).

(** ** The lines of a pass in the output channel *)

Section ValidationLog.

Variable query : string -> list jsval -> option DatabaseError.
Variable typeCasts : gmap Z (gmap N string).
Variable defaultValues : gmap Z (gmap N jsval).
Variable document : TextDocument.

(** The lines the callback of the fragment at [h] writes: before its
    first [await], before its second one, and before it returns. *)
Definition syntaxLines (h : Range) : list log_line :=
  syntaxCheckLog (expressionOf document h)
    (expressionHash (expressionOf document h)) h.

Definition explainLines (h : Range) : list log_line :=
  explainCheckLog (expressionTypeCasts typeCasts document h)
    (expressionDefaultValues defaultValues document h)
    (expressionOf document h)
    (expressionHash (expressionOf document h)) h.

Definition hashLine (h : Range) : log_line :=
  LogHash (expressionHash (expressionOf document h))
    (pos_line (range_start h))
    (expressionEssential (expressionOf document h)).

Definition fragmentLog (h : Range) : list log_line :=
  syntaxLines h ++ explainLines h ++ [hashLine h].

(** What a callback has written when it stands at [t], and what it
    writes when it resumes from there. *)
Definition written (h : Range) (t : callback) : list log_line :=
  syntaxLines h
  ++ match t with
     | AwaitSyntax => []
     | AwaitExplain _ => explainLines h
     | Returned _ => explainLines h ++ [hashLine h]
     end.

Definition writes (h : Range) (t : callback) : list log_line :=
  match t with
  | AwaitSyntax => explainLines h
  | AwaitExplain _ => [hashLine h]
  | Returned _ => []
  end.

Fixpoint writtenAll (fragments : list Range) (ts : list callback)
  : list log_line :=
  match fragments, ts with
  | h :: fragments', t :: ts' => written h t ++ writtenAll fragments' ts'
  | _, _ => []
  end.

(** The value the callback of a fragment returns. *)
Definition verdict (h : Range) : bool :=
  match actualErrorOf query typeCasts defaultValues document h with
  | None => true
  | Some _ => false
  end.

Definition result_ok (h : Range) (t : callback) : Prop :=
  match t with
  | Returned ok => ok = verdict h
  | _ => True
  end.

(** What a pass keeps true of the channel, [header] being the lines
    written before the first callback starts. *)
Definition log_invariant (fragments : list Range) (header : list log_line)
  (st : pass_state) : Prop :=
  Forall2 result_ok fragments (callbacks st)
  /\ exists entries,
       log st = header ++ entries
       /\ entries ≡ₚ writtenAll fragments (callbacks st)
       /\ forall i h t,
            fragments !! i = Some h -> callbacks st !! i = Some t ->
            sublist (written h t) entries.

End ValidationLog.

(* ===================================================================== *)
(** * Part III: properties                                               *)
(* ===================================================================== *)

Local Arguments String.append : simpl nomatch.

(** Case analysis over the 256 characters. *)
Ltac each_character c := destruct c as [[] [] [] [] [] [] [] []].

(** ** The 32-bit operators in terms of unsigned words *)

Lemma toInt32_range z : - 2 ^ 31 <= toInt32 z < 2 ^ 31.
Proof. unfold toInt32. pose proof (Z.mod_pos_bound (z + 2 ^ 31) (2 ^ 32)). lia. Qed.

Lemma word32_toInt32 z : word32 (toInt32 z) = word32 z.
Proof.
  unfold word32, toInt32.
  rewrite Zminus_mod, Zmod_mod, <- Zminus_mod.
  f_equal. lia.
Qed.

Lemma word32_range z : 0 <= word32 z < 2 ^ 32.
Proof. unfold word32. apply Z.mod_pos_bound. lia. Qed.

Lemma word32_small z : 0 <= z < 2 ^ 32 -> word32 z = z.
Proof. intros. unfold word32. apply Z.mod_small. lia. Qed.

Lemma lxor_mod_pow2 x y n :
  0 <= n -> Z.lxor x y mod 2 ^ n = Z.lxor (x mod 2 ^ n) (y mod 2 ^ n).
Proof.
  intros Hn. apply Z.bits_inj'. intros i Hi.
  rewrite Z.lxor_spec, !Z.testbit_mod_pow2, Z.lxor_spec by lia.
  destruct (i <? n); simpl; auto.
Qed.

Lemma word32_bxor a b : word32 (bxor a b) = Z.lxor (word32 a) (word32 b).
Proof.
  unfold bxor. rewrite word32_toInt32. unfold word32.
  rewrite lxor_mod_pow2 by lia.
  fold (word32 (toInt32 a)) (word32 (toInt32 b)).
  now rewrite !word32_toInt32.
Qed.

Lemma word32_imul a b : word32 (imul a b) = word32 (word32 a * word32 b).
Proof.
  unfold imul. rewrite word32_toInt32.
  rewrite <- (word32_toInt32 a), <- (word32_toInt32 b) at 1.
  unfold word32. now rewrite <- Zmult_mod.
Qed.

Lemma ushr_word32 a n : 0 <= n < 32 -> ushr a n = Z.shiftr (word32 a) n.
Proof. intros. unfold ushr, toUint32, word32. now rewrite (Z.mod_small n) by lia. Qed.

Lemma shiftr_word32_range a n : 0 <= n -> 0 <= Z.shiftr (word32 a) n < 2 ^ 32.
Proof.
  intros. pose proof (word32_range a). rewrite Z.shiftr_div_pow2 by lia.
  split.
  - apply Z.div_pos; lia.
  - apply Z.div_lt_upper_bound; [lia|]. 
    assert (1 <= 2 ^ n) by (apply Z.pow_le_mono_r with (b := 0) (c := n) (a := 2); lia).
    nia.
Qed.

Lemma lxor_word32_range x y :
  0 <= x < 2 ^ 32 -> 0 <= y < 2 ^ 32 -> 0 <= Z.lxor x y < 2 ^ 32.
Proof.
  intros Hx Hy.
  rewrite <- (Z.mod_small x (2 ^ 32)), <- (Z.mod_small y (2 ^ 32)) by lia.
  rewrite <- lxor_mod_pow2 by lia. apply Z.mod_pos_bound. lia.
Qed.

Lemma band_low21 h : band 2097151 h = word32 h mod 2 ^ 21.
Proof.
  unfold band.
  replace (toInt32 2097151) with (Z.ones 21) by reflexivity.
  rewrite Z.land_comm, Z.land_ones by lia.
  assert (E : toInt32 h mod 2 ^ 21 = word32 h mod 2 ^ 21).
  { rewrite <- (word32_toInt32 h). unfold word32.
    change (2 ^ 32) with (2 ^ 21 * 2 ^ 11).
    rewrite Z.rem_mul_r by lia.
    rewrite Z.mul_comm, Z.mod_add by lia. now rewrite Zmod_mod. }
  rewrite E.
  pose proof (Z.mod_pos_bound (word32 h) (2 ^ 21)).
  unfold toInt32. rewrite Z.mod_small; lia.
Qed.

(** One step of a lane, the avalanche and the loop. *)
Lemma word32_lane h ch k :
  0 <= ch < 2 ^ 32 ->
  word32 (imul (bxor h ch) k) = lane_step (word32 h) ch k.
Proof.
  intros Hch. unfold lane_step.
  rewrite word32_imul, word32_bxor, (word32_small ch) by lia.
  unfold word32 at 1 3. now rewrite Zmult_mod_idemp_r.
Qed.

Lemma charCode_range c : 0 <= charCode c < 2 ^ 32.
Proof.
  unfold charCode. pose proof (N_ascii_bounded c). lia.
Qed.

Lemma word32_avalanche a b :
  word32 (bxor (imul (bxor a (ushr a 16)) 2246822507)
               (imul (bxor b (ushr b 13)) 3266489909))
  = avalanche (word32 a) (word32 b).
Proof.
  rewrite word32_bxor. unfold avalanche.
  rewrite !ushr_word32 by lia.
  rewrite !word32_lane by (apply shiftr_word32_range; lia).
  reflexivity.
Qed.

Lemma cyrb53_loop_cons c rest h1 h2 :
  cyrb53_loop (String c rest) h1 h2
  = cyrb53_loop rest (imul (bxor h1 (charCode c)) 2654435761)
                     (imul (bxor h2 (charCode c)) 1597334677).
Proof. unfold cyrb53_loop at 1. fold cyrb53_loop. reflexivity. Qed.

Lemma cyrb53_loop_words str : forall h1 h2,
  (word32 (fst (cyrb53_loop str h1 h2)), word32 (snd (cyrb53_loop str h1 h2)))
  = fold_left
      (fun '(h1, h2) c =>
         (lane_step h1 (charCode c) 2654435761,
          lane_step h2 (charCode c) 1597334677))
      (list_ascii_of_string str) (word32 h1, word32 h2).
Proof.
  induction str as [|c rest IH]; intros h1 h2; [reflexivity|].
  rewrite cyrb53_loop_cons, IH, !word32_lane by apply charCode_range.
  reflexivity.
Qed.

Lemma avalanche_range a b : 0 <= avalanche a b < 2 ^ 32.
Proof. unfold avalanche. apply lxor_word32_range; apply word32_range. Qed.

Lemma cyrb53_is_two_lane_mix str seed : cyrb53 str seed = two_lane_mix str seed.
Proof.
  unfold cyrb53, two_lane_mix.
  pose proof (cyrb53_loop_words str (bxor 0xdeadbeef seed) (bxor 0x41c6ce57 seed)) as L.
  destruct (cyrb53_loop str _ _) as [a b]. simpl fst in L; simpl snd in L.
  rewrite !word32_bxor in L.
  rewrite (word32_small 0xdeadbeef), (word32_small 0x41c6ce57) in L by lia.
  rewrite <- L. cbv beta iota zeta. simpl fst; simpl snd.
  rewrite band_low21. rewrite (ushr_word32 _ 0) by lia. rewrite Z.shiftr_0_r.
  rewrite !word32_avalanche. lia.
Qed.

Lemma two_lane_mix_range str seed : 0 <= two_lane_mix str seed < 2 ^ 53.
Proof.
  unfold two_lane_mix.
  set (lanes := fold_left _ _ _).
  pose proof (avalanche_range (fst lanes) (snd lanes)).
  pose proof (Z.mod_pos_bound
                (avalanche (snd lanes) (avalanche (fst lanes) (snd lanes)))
                (2 ^ 21)).
  lia.
Qed.

(** C1.  [cyrb53] is a function of its string and its seed alone: equal
    arguments give equal results.  It computes the two-lane mix of the
    specification (two 32-bit lanes seeded with 0xdeadbeef and 0x41c6ce57
    XORed with the seed, one multiply-xor step modulo 2^32 per character,
    a cross-lane avalanche, and the 21 low bits of lane 2 times 2^32 plus
    the unsigned lane 1), and its result is an unsigned integer below
    2^53. *)
Theorem cyrb53_two_lane_mix_below_2_53 :
  forall (str : string) (seed : Z),
    cyrb53 str seed = two_lane_mix str seed
    /\ 0 <= cyrb53 str seed < 2 ^ 53
    /\ (forall str' seed', str' = str -> seed' = seed ->
          cyrb53 str' seed' = cyrb53 str seed).
Proof.
  intros str seed. split; [apply cyrb53_is_two_lane_mix|]. split.
  - rewrite cyrb53_is_two_lane_mix. apply two_lane_mix_range.
  - intros; subst; reflexivity.
Qed.

(** The hash of the empty string with seed 0, and the identity the README
    shows for its example query. *)
Example cyrb53_empty : cyrb53 "" 0 = 3338908027751811.
Proof. reflexivity. Qed.

Example cyrb53_readme :
  expressionHash ("
  select * from information_schema.tables 
  where table_type=$2
") = 1147568695465191.
Proof. vm_compute. reflexivity. Qed.

(** ** Strings *)

Lemma append_nil_r s : s +:+ "" = s.
Proof. induction s; simpl; congruence. Qed.

Lemma append_assoc s t u : (s +:+ t) +:+ u = s +:+ (t +:+ u).
Proof. induction s; simpl; congruence. Qed.

Lemma length_append s t :
  String.length (s +:+ t) = (String.length s + String.length t)%nat.
Proof. induction s; simpl; congruence. Qed.

Lemma lastChar_endsIn s c : lastChar s = Some c <-> endsIn c s.
Proof.
  unfold endsIn. induction s as [|a r IH]; simpl.
  - split; [discriminate|]. intros [[|b p] E]; discriminate.
  - destruct r as [|b r'].
    + split.
      * intros [= ->]. now exists "".
      * intros [[|b p] E]; simpl in E; [congruence|].
        injection E as _ E. destruct p; discriminate.
    + rewrite IH. split.
      * intros [p ->]. now exists (String a p).
      * intros [[|a' p] E]; simpl in E; [discriminate|].
        injection E as _ E. eauto.
Qed.

Lemma lastChar_append_char s c : lastChar (s +:+ String c "") = Some c.
Proof. apply lastChar_endsIn. now exists s. Qed.

Lemma get_last r : forall a,
  String.get (String.length r) (String a r) = lastChar (String a r).
Proof.
  induction r as [|b r IH]; intros a; [reflexivity|].
  change (String.get (String.length r) (String b r) = lastChar (String b r)).
  apply IH.
Qed.

Lemma charAt_last s : charAt s (strlen s - 1) = lastChar s.
Proof.
  destruct s as [|a r]; [reflexivity|].
  unfold charAt, strlen. simpl String.length.
  destruct (Z.ltb_spec (Z.of_nat (S (String.length r)) - 1) 0) as [H|_]; [lia|].
  replace (Z.to_nat (Z.of_nat (S (String.length r)) - 1))
    with (String.length r) by lia.
  apply get_last.
Qed.

(** ** [trimEnd] *)

Lemma trimEnd_split s :
  exists ws, s = trimEnd s +:+ ws /\ allChars isWhiteSpace ws = true.
Proof.
  induction s as [|c r [ws [E W]]].
  - now exists "".
  - simpl trimEnd. destruct (trimEnd r) as [|d r'] eqn:T.
    + destruct (isWhiteSpace c) eqn:Wc.
      * exists (String c r). split; [reflexivity|].
        simpl in E. subst ws. simpl. now rewrite Wc.
      * exists ws. split; [|exact W]. simpl in *. now rewrite <- E.
    + exists ws. split; [|exact W]. simpl in *. now rewrite <- E.
Qed.

Lemma trimEnd_last s c :
  lastChar (trimEnd s) = Some c -> isWhiteSpace c = false.
Proof.
  induction s as [|a r IH]; simpl; [discriminate|].
  destruct (trimEnd r) as [|d r'] eqn:T.
  - destruct (isWhiteSpace a) eqn:Wa; simpl; [discriminate|].
    now intros [= <-].
  - intros H. apply IH. exact H.
Qed.

Lemma trimEnd_fixed s :
  (forall c, lastChar s = Some c -> isWhiteSpace c = false) -> trimEnd s = s.
Proof.
  induction s as [|a r IH]; intros H; simpl; [reflexivity|].
  destruct r as [|b r'].
  - simpl. rewrite (H a); reflexivity.
  - rewrite IH by exact H. reflexivity.
Qed.

(** ** [normalizeEnding] *)

Lemma normalizeEnding_cases v :
  normalizeEnding v
  = match lastChar (trimEnd v) with
    | Some c => if Ascii.eqb c ";" then trimEnd v else trimEnd v +:+ ";"
    | None => trimEnd v +:+ ";"
    end.
Proof.
  unfold normalizeEnding. rewrite charAt_last.
  destruct (lastChar (trimEnd v)) as [c|]; [|reflexivity].
  destruct (Ascii.eqb c ";"); [apply append_nil_r|reflexivity].
Qed.

(** C8.  [normalizeEnding v] is [v] without its trailing white space,
    with the terminator [;] appended exactly when the trimmed text does
    not end in it already; a text that ends in the terminator comes back
    trimmed and otherwise untouched, and the result always ends in [;]. *)
Theorem normalizeEnding_appends_missing_terminator :
  forall v : string,
    (exists ws, v = trimEnd v +:+ ws /\ allChars isWhiteSpace ws = true)
    /\ (forall c, endsIn c (trimEnd v) -> isWhiteSpace c = false)
    /\ (endsIn ";" (trimEnd v) -> normalizeEnding v = trimEnd v)
    /\ (~ endsIn ";" (trimEnd v) -> normalizeEnding v = trimEnd v +:+ ";")
    /\ endsIn ";" (normalizeEnding v).
Proof.
  intros v. split; [apply trimEnd_split|]. split.
  { intros c H. apply lastChar_endsIn in H. eapply trimEnd_last; eauto. }
  rewrite normalizeEnding_cases.
  destruct (lastChar (trimEnd v)) as [c|] eqn:L.
  - destruct (Ascii.eqb_spec c ";") as [->|Hne].
    + apply lastChar_endsIn in L. repeat split; tauto.
    + assert (N : ~ endsIn ";" (trimEnd v)).
      { intros H. apply lastChar_endsIn in H. congruence. }
      repeat split; try tauto. now exists (trimEnd v).
  - assert (N : ~ endsIn ";" (trimEnd v)).
    { intros H. apply lastChar_endsIn in H. congruence. }
    repeat split; try tauto. now exists (trimEnd v).
Qed.

Lemma normalizeEnding_appends_missing_terminator_witness :
  normalizeEnding "select 1;  " = "select 1;"
  /\ normalizeEnding "select 1 " = "select 1;".
Proof.
  split.
  - apply (proj1 (proj2 (proj2 (normalizeEnding_appends_missing_terminator "select 1;  ")))).
    now exists "select 1".
  - apply (proj1 (proj2 (proj2 (proj2 (normalizeEnding_appends_missing_terminator "select 1 "))))).
    intros [p E]. apply (f_equal lastChar) in E.
    rewrite lastChar_append_char in E. vm_compute in E. discriminate.
Defined.

(** ** Normalisation of a fragment text *)

Lemma isWhiteSpace_lower c :
  isWhiteSpace (toLowerCaseChar c) = isWhiteSpace c.
Proof. each_character c; reflexivity. Qed.

Lemma toLowerCaseChar_idem c :
  toLowerCaseChar (toLowerCaseChar c) = toLowerCaseChar c.
Proof. each_character c; reflexivity. Qed.

Lemma isWhiteSpace_CR_LF c :
  Ascii.eqb c CR || Ascii.eqb c LF = true -> isWhiteSpace c = true.
Proof. each_character c; simpl; intros H; try discriminate; reflexivity. Qed.

(** Removing the line breaks first changes nothing for the removal of
    white space, which removes them as well. *)
Lemma removeWhiteSpace_removeLineBreaks s :
  removeWhiteSpace (removeLineBreaks s) = removeWhiteSpace s.
Proof.
  assert (G : forall n s, (String.length s <= n)%nat ->
              removeWhiteSpace (removeLineBreaks s) = removeWhiteSpace s).
  { clear s. induction n as [|n IH]; intros s L.
    - destruct s; [reflexivity|simpl in L; lia].
    - destruct s as [|c r]; [reflexivity|].
      simpl in L. simpl removeLineBreaks.
      destruct (Ascii.eqb c CR) eqn:Ec.
      + assert (W : isWhiteSpace c = true)
          by (apply isWhiteSpace_CR_LF; rewrite Ec; reflexivity).
        unfold removeWhiteSpace at 2. simpl. rewrite W. simpl.
        fold (removeWhiteSpace r).
        destruct r as [|d r']; [reflexivity|].
        destruct (Ascii.eqb d LF) eqn:Ed.
        * assert (W' : isWhiteSpace d = true)
            by (apply isWhiteSpace_CR_LF; rewrite Ed; apply orb_true_r).
          unfold removeWhiteSpace at 2. simpl. rewrite W'. simpl.
          apply IH. simpl in L. lia.
        * apply IH. lia.
      + destruct (Ascii.eqb c LF) eqn:El.
        * assert (W : isWhiteSpace c = true)
            by (apply isWhiteSpace_CR_LF; rewrite El; apply orb_true_r).
          unfold removeWhiteSpace at 2. simpl. rewrite W. simpl.
          apply IH. lia.
        * unfold removeWhiteSpace. simpl.
          destruct (isWhiteSpace c); simpl; [|f_equal]; apply IH; lia. }
  apply (G (String.length s)). lia.
Qed.

Lemma removeWhiteSpace_clean s :
  allChars (fun c => negb (isWhiteSpace c)) (removeWhiteSpace s) = true.
Proof.
  unfold removeWhiteSpace. induction s as [|c r IH]; simpl; [reflexivity|].
  destruct (isWhiteSpace c) eqn:W; simpl; [exact IH|]. now rewrite W.
Qed.

Lemma lastChar_clean s c :
  allChars (fun c => negb (isWhiteSpace c)) s = true ->
  lastChar s = Some c -> isWhiteSpace c = false.
Proof.
  induction s as [|a r IH]; simpl; [discriminate|].
  intros H. apply andb_prop in H as [Ha Hr].
  destruct r as [|b r'].
  - intros [= <-]. now apply negb_true_iff.
  - now apply IH.
Qed.

Lemma trim_clean s :
  allChars (fun c => negb (isWhiteSpace c)) s = true -> trim s = s.
Proof.
  intros H. unfold trim.
  rewrite trimEnd_fixed by (intros c; now apply lastChar_clean).
  destruct s as [|a r]; [reflexivity|]. simpl in *.
  apply andb_prop in H as [Ha _]. apply negb_true_iff in Ha. now rewrite Ha.
Qed.

(** The normal form at a glance: the characters that are not white space,
    in lower case. *)
Lemma expressionEssential_spec e :
  expressionEssential e = toLocaleLowerCase (removeWhiteSpace e).
Proof.
  unfold expressionEssential.
  rewrite removeWhiteSpace_removeLineBreaks.
  now rewrite trim_clean by apply removeWhiteSpace_clean.
Qed.

Lemma removeWhiteSpace_lower s :
  removeWhiteSpace (toLocaleLowerCase s)
  = toLocaleLowerCase (removeWhiteSpace s).
Proof.
  unfold removeWhiteSpace, toLocaleLowerCase.
  induction s as [|c r IH]; simpl; [reflexivity|].
  rewrite isWhiteSpace_lower.
  destruct (isWhiteSpace c); simpl; now rewrite IH.
Qed.

Lemma removeWhiteSpace_idem s :
  removeWhiteSpace (removeWhiteSpace s) = removeWhiteSpace s.
Proof.
  unfold removeWhiteSpace. induction s as [|c r IH]; simpl; [reflexivity|].
  destruct (isWhiteSpace c) eqn:W; simpl; [exact IH|]. now rewrite W, IH.
Qed.

Lemma toLocaleLowerCase_idem s :
  toLocaleLowerCase (toLocaleLowerCase s) = toLocaleLowerCase s.
Proof.
  unfold toLocaleLowerCase. induction s as [|c r IH]; simpl; [reflexivity|].
  now rewrite toLowerCaseChar_idem, IH.
Qed.

Lemma expressionEssential_idem e :
  expressionEssential (expressionEssential e) = expressionEssential e.
Proof.
  rewrite !expressionEssential_spec.
  now rewrite removeWhiteSpace_lower, removeWhiteSpace_idem,
    toLocaleLowerCase_idem.
Qed.

Lemma capitalOf_lower u l :
  capitalOf u l -> toLowerCaseChar u = l /\ toLowerCaseChar l = l.
Proof.
  intros [E R].
  assert (L : l = ascii_of_N (N_of_ascii u + 32)).
  { rewrite <- E. symmetry. apply ascii_N_embedding. }
  subst l. clear E. revert R.
  each_character u; intros R; vm_compute in R;
    try (exfalso; destruct R as [[A B]|[[A B] C]];
         first [ now apply A | now apply B | now apply C ]);
    split; reflexivity.
Qed.

Lemma sameLetter_lower c d :
  sameLetter c d -> toLowerCaseChar c = toLowerCaseChar d.
Proof.
  intros [->|[H|H]]; [reflexivity| |];
    apply capitalOf_lower in H as [H1 H2]; congruence.
Qed.

Lemma expressionEssential_layout s t :
  same_up_to_layout s t -> expressionEssential s = expressionEssential t.
Proof.
  rewrite !expressionEssential_spec.
  unfold removeWhiteSpace, toLocaleLowerCase.
  induction 1 as [|c s t W _ IH|c s t W _ IH|c d s t E _ IH]; simpl.
  - reflexivity.
  - now rewrite W.
  - now rewrite W.
  - apply sameLetter_lower in E.
    assert (W : isWhiteSpace c = isWhiteSpace d)
      by (rewrite <- (isWhiteSpace_lower c), E; apply isWhiteSpace_lower).
    rewrite W. destruct (isWhiteSpace d); simpl; [exact IH|].
    now rewrite E, IH.
Qed.

(** ** The two embeddings of a text agree on Latin-1 *)

Lemma units_isWhiteSpace c :
  Utf16.isWhiteSpace (N_of_ascii c) = isWhiteSpace c.
Proof. each_character c; reflexivity. Qed.

Lemma units_eqb c d : (N_of_ascii c =? N_of_ascii d)%N = Ascii.eqb c d.
Proof.
  destruct (Ascii.eqb_spec c d) as [->|Ne].
  - apply N.eqb_refl.
  - apply N.eqb_neq. intros E. apply Ne.
    rewrite <- (ascii_N_embedding c), <- (ascii_N_embedding d). now rewrite E.
Qed.

Lemma units_removeLineBreaks s :
  Utf16.removeLineBreaks (Utf16.units s) = Utf16.units (removeLineBreaks s).
Proof.
  assert (H : forall n s, (String.length s <= n)%nat ->
            Utf16.removeLineBreaks (Utf16.units s)
            = Utf16.units (removeLineBreaks s)).
  { clear s. induction n as [|n IH]; intros s L.
    - destruct s; [reflexivity|simpl in L; lia].
    - destruct s as [|c r]; [reflexivity|]. simpl in L.
      cbn [Utf16.units Utf16.removeLineBreaks removeLineBreaks].
      change 13%N with (N_of_ascii CR). change 10%N with (N_of_ascii LF).
      rewrite (units_eqb c CR), (units_eqb c LF).
      destruct (Ascii.eqb c CR).
      + destruct r as [|d r']; [reflexivity|].
        cbn [Utf16.units]. rewrite (units_eqb d LF).
        destruct (Ascii.eqb d LF).
        * apply IH. simpl in L. lia.
        * apply (IH (String d r')). lia.
      + destruct (Ascii.eqb c LF).
        * apply IH. lia.
        * cbn [Utf16.units]. f_equal. apply IH. lia. }
  now apply (H (String.length s)).
Qed.

Lemma units_removeWhiteSpace s :
  Utf16.removeWhiteSpace (Utf16.units s) = Utf16.units (removeWhiteSpace s).
Proof.
  unfold removeWhiteSpace. induction s as [|c r IH]; [reflexivity|].
  cbn [Utf16.units Utf16.removeWhiteSpace filterChars].
  rewrite units_isWhiteSpace, IH.
  destruct (isWhiteSpace c); reflexivity.
Qed.

Lemma units_trimStart s :
  Utf16.trimStart (Utf16.units s) = Utf16.units (trimStart s).
Proof.
  induction s as [|c r IH]; [reflexivity|].
  cbn [Utf16.units Utf16.trimStart trimStart].
  rewrite units_isWhiteSpace. destruct (isWhiteSpace c); [exact IH|reflexivity].
Qed.

Lemma units_trimEnd s :
  Utf16.trimEnd (Utf16.units s) = Utf16.units (trimEnd s).
Proof.
  induction s as [|c r IH]; [reflexivity|].
  cbn [Utf16.units Utf16.trimEnd trimEnd].
  rewrite IH, units_isWhiteSpace.
  destruct (trimEnd r); [destruct (isWhiteSpace c)|]; reflexivity.
Qed.

Lemma units_covered s : forallb Utf16.covered (Utf16.units s) = true.
Proof.
  induction s as [|c r IH]; [reflexivity|].
  cbn [Utf16.units forallb]. rewrite IH, andb_true_r.
  unfold Utf16.covered.
  destruct (N.ltb_spec (N_of_ascii c) 256) as [_|Ge]; [reflexivity|].
  pose proof (N_ascii_bounded c). lia.
Qed.

Lemma units_lowerCaseFrom s : forall before,
  Utf16.lowerCaseFrom before (Utf16.units s)
  = Utf16.units (toLocaleLowerCase s).
Proof.
  unfold toLocaleLowerCase. induction s as [|c r IH]; intros before;
    [reflexivity|].
  cbn [Utf16.units Utf16.lowerCaseFrom mapChars]. rewrite IH. f_equal.
  pose proof (N_ascii_bounded c) as B.
  destruct (N.eqb_spec (N_of_ascii c) 0x3A3) as [E|_]; [lia|].
  simpl andb. unfold Utf16.lowerCaseUnit.
  destruct (N.ltb_spec (N_of_ascii c) 256) as [_|Ge]; [|lia].
  now rewrite ascii_N_embedding.
Qed.

Lemma units_expressionEssential s :
  Utf16.expressionEssential (Utf16.units s)
  = Some (Utf16.units (expressionEssential s)).
Proof.
  unfold Utf16.expressionEssential, expressionEssential, Utf16.trim, trim.
  rewrite units_removeLineBreaks, units_removeWhiteSpace, units_trimEnd,
    units_trimStart.
  unfold Utf16.toLocaleLowerCase.
  now rewrite units_covered, units_lowerCaseFrom.
Qed.

Lemma units_cyrb53_loop s : forall h1 h2,
  Utf16.cyrb53_loop (Utf16.units s) h1 h2 = cyrb53_loop s h1 h2.
Proof.
  induction s as [|c r IH]; intros h1 h2; [reflexivity|].
  rewrite cyrb53_loop_cons. cbn [Utf16.units Utf16.cyrb53_loop].
  cbv zeta. apply IH.
Qed.

Lemma units_cyrb53 s seed : Utf16.cyrb53 (Utf16.units s) seed = cyrb53 s seed.
Proof. unfold Utf16.cyrb53, cyrb53. now rewrite units_cyrb53_loop. Qed.

Lemma units_expressionHash s :
  Utf16.expressionHash (Utf16.units s) = Some (expressionHash s).
Proof.
  unfold Utf16.expressionHash, expressionHash.
  now rewrite units_expressionEssential, units_cyrb53.
Qed.




(** ** Positional parameters *)

Lemma takeWhileChars_split p s :
  exists behind,
    s = takeWhileChars p s +:+ behind /\ startsWith p behind = false.
Proof.
  induction s as [|c r [behind [E B]]]; simpl.
  - now exists "".
  - destruct (p c) eqn:P.
    + exists behind. simpl. now rewrite <- E.
    + exists (String c r). simpl. now rewrite P.
Qed.

Lemma takeWhileChars_all p s : allChars p (takeWhileChars p s) = true.
Proof.
  induction s as [|c r IH]; simpl; [reflexivity|].
  destruct (p c) eqn:P; simpl; [now rewrite P|reflexivity].
Qed.

Lemma takeWhileChars_append p ds behind :
  allChars p ds = true -> startsWith p behind = false ->
  takeWhileChars p (ds +:+ behind) = ds.
Proof.
  induction ds as [|c r IH]; simpl; intros A B.
  - destruct behind as [|b r']; simpl in *; [reflexivity|now rewrite B].
  - apply andb_prop in A as [Pc A]. now rewrite Pc, IH.
Qed.

Lemma takeChars_takeWhileChars p s :
  takeChars (String.length (takeWhileChars p s)) s = takeWhileChars p s.
Proof.
  induction s as [|c r IH]; simpl; [reflexivity|].
  destruct (p c); simpl; [now rewrite IH|reflexivity].
Qed.

Lemma isNonZeroDigit_isDigit d : isNonZeroDigit d = true -> isDigit d = true.
Proof.
  unfold isNonZeroDigit, isDigit. intros H.
  apply andb_prop in H as [H1 H2]. apply andb_true_intro. split; [|exact H2].
  apply N.leb_le in H1. apply N.leb_le. lia.
Qed.

Lemma matchParameterAt_token s m :
  matchParameterAt s = Some m ->
  isParameterToken m
  /\ exists behind, s = m +:+ behind /\ startsWith isDigit behind = false.
Proof.
  unfold matchParameterAt.
  destruct s as [|c [|d r]]; try discriminate.
  - each_character c; discriminate.
  - destruct (Ascii.eqb_spec c "$") as [->|Hc].
    + destruct (isNonZeroDigit d) eqn:D; [|discriminate].
      intros [= <-]. split.
      * exists d, (takeWhileChars isDigit r).
        repeat split; [exact D|apply takeWhileChars_all].
      * destruct (takeWhileChars_split isDigit r) as [behind [E B]].
        exists behind. split; [|exact B]. simpl. now rewrite <- E.
    + each_character c; try discriminate.
      now contradiction Hc.
Qed.

Lemma matchAllFrom_cons skip c r :
  matchAllFrom skip (String c r)
  = match skip with
    | S k => matchAllFrom k r
    | O =>
        match matchParameterAt (String c r) with
        | Some m => m :: matchAllFrom (String.length m - 1) r
        | None => matchAllFrom 0 r
        end
    end.
Proof. reflexivity. Qed.

Lemma matchAllFrom_sound s : forall skip t,
  In t (matchAllFrom skip s) ->
  exists before behind,
    s = before +:+ t +:+ behind
    /\ isParameterToken t /\ startsWith isDigit behind = false.
Proof.
  induction s as [|c r IH]; intros skip t H; [contradiction|].
  assert (Later : forall k, In t (matchAllFrom k r) ->
            exists before behind,
              String c r = before +:+ t +:+ behind
              /\ isParameterToken t /\ startsWith isDigit behind = false).
  { intros k Hk. destruct (IH k t Hk) as (before & behind & E & T & B).
    exists (String c before), behind. simpl. now rewrite <- E. }
  rewrite matchAllFrom_cons in H. destruct skip as [|k]; [|now apply (Later k)].
  destruct (matchParameterAt (String c r)) as [m|] eqn:M.
  - destruct H as [<-|H]; [|now apply (Later _ H)].
    destruct (matchParameterAt_token _ _ M) as (T & behind & E & B).
    exists "", behind. simpl. auto.
  - now apply (Later 0%nat).
Qed.

Lemma matchAllFrom_complete before : forall s skip t behind,
  s = before +:+ t +:+ behind ->
  isParameterToken t -> startsWith isDigit behind = false ->
  allChars isDigit (takeChars skip s) = true ->
  In t (matchAllFrom skip s).
Proof.
  induction before as [|c b IH]; intros s skip t behind E T B K.
  - destruct T as (d & ds & -> & D & A). simpl in E. subst s.
    destruct skip as [|k]; [|simpl in K; discriminate].
    simpl. rewrite D. left.
    now rewrite takeWhileChars_append.
  - simpl in E. subst s.
    rewrite matchAllFrom_cons.
    destruct skip as [|k].
    + destruct (matchParameterAt _) as [m|] eqn:M.
      * right. eapply IH; eauto.
        unfold matchParameterAt in M.
        destruct (b +:+ t +:+ behind) as [|d r] eqn:R.
        { each_character c; discriminate. }
        destruct (Ascii.eqb_spec c "$") as [->|Hc].
        -- destruct (isNonZeroDigit d) eqn:D; [|discriminate].
           injection M as <-. simpl String.length.
           rewrite ?Nat.sub_0_r. simpl.
           rewrite (isNonZeroDigit_isDigit _ D), takeChars_takeWhileChars.
           apply takeWhileChars_all.
        -- each_character c; try discriminate.
           now contradiction Hc.
      * eapply IH; eauto.
    + eapply IH; eauto. simpl in K. now apply andb_prop in K as [_ K].
Qed.

(** The texts the pattern of the code finds are the positional parameter
    tokens that stand in the expression. *)
Lemma matchAllParameters_spec expression t :
  In t (matchAllParameters expression) <-> occursAsToken t expression.
Proof.
  unfold matchAllParameters, occursAsToken. split.
  - apply matchAllFrom_sound.
  - intros (before & behind & E & T & B).
    eapply matchAllFrom_complete; eauto.
Qed.

Lemma parameters_distinct_tokens expression (tokens : list string) :
  NoDup tokens ->
  (forall t, In t tokens <-> occursAsToken t expression) ->
  parameters expression = length tokens.
Proof.
  intros N H. unfold parameters. apply Permutation_length.
  apply NoDup_Permutation; [apply NoDup_remove_dups|exact N|].
  intros t. rewrite elem_of_remove_dups, !list_elem_of_In.
  now rewrite matchAllParameters_spec, H.
Qed.

Lemma explainParameterValues_length predefinedValues expression :
  length (explainParameterValues predefinedValues expression)
  = parameters expression.
Proof.
  unfold explainParameterValues. now rewrite length_imap, length_replicate.
Qed.

Lemma prepareParameterValues_length predefinedTypes expression :
  length (PrepareGeneration.prepareParameterValues predefinedTypes expression)
  = parameters expression.
Proof.
  unfold PrepareGeneration.prepareParameterValues.
  now rewrite length_imap, length_replicate.
Qed.

(** C7 (amended). The explain check binds, and the prepare check declares,
    as many parameter slots as there are distinct positional parameter
    tokens in the raw fragment text, a token being a dollar sign, a digit
    from 1 to 9 and any further digits; a token that occurs several times
    counts once. *)
Theorem parameter_slots_count_distinct_tokens :
  forall (expression : string) (predefinedValues : gmap N jsval)
         (predefinedTypes : gmap N string) (tokens : list string),
    NoDup tokens ->
    (forall t, In t tokens <-> occursAsToken t expression) ->
    length (explainParameterValues predefinedValues expression)
    = length tokens
    /\ length (PrepareGeneration.prepareParameterValues
                 predefinedTypes expression)
       = length tokens.
Proof.
  intros expression predefinedValues predefinedTypes tokens N H.
  rewrite explainParameterValues_length, prepareParameterValues_length.
  split; now apply parameters_distinct_tokens.
Qed.

Lemma parameter_slots_count_distinct_tokens_witness :
  length (explainParameterValues ∅ "select $1, $2, $1") = 2%nat
  /\ length (PrepareGeneration.prepareParameterValues ∅ "select $1, $2, $1")
     = 2%nat.
Proof.
  apply (parameter_slots_count_distinct_tokens
           "select $1, $2, $1" ∅ ∅ ["$1"; "$2"]).
  - repeat constructor; rewrite ?list_elem_of_In; simpl; intuition discriminate.
  - intros t. rewrite <- matchAllParameters_spec.
    vm_compute. intuition.
Defined.

(** The claim as the specification words it, with a token being a dollar
    sign followed by digits, fails on a text whose token starts with the
    digit 0: [$01], which the database reads as parameter 1, and [$0] get
    no slot. *)
Lemma parameter_slots_skip_tokens_with_leading_zero :
  (spec_parameter_count "select $01" = 1%nat
   /\ length (explainParameterValues ∅ "select $01") = 0%nat
   /\ length (PrepareGeneration.prepareParameterValues ∅ "select $01")
      = 0%nat)
  /\ (spec_parameter_count "select $0" = 1%nat
      /\ length (explainParameterValues ∅ "select $0") = 0%nat
      /\ length (PrepareGeneration.prepareParameterValues ∅ "select $0")
         = 0%nat).
Proof. repeat split; vm_compute; reflexivity. Qed.

(** C3 (the code at the failing inputs).  With a type for parameter 1 the
    pattern of [runExplainCheck] also rewrites the first two characters of
    the token [$10]; a default value that is falsy ([0], [false], the empty
    string) is not bound, [null] is. *)
Theorem type_annotation_rewrites_prefix_of_longer_token :
  explainActualQuery {[ 1%N := "int4" ]}
    "select $1, $2, $3, $4, $5, $6, $7, $8, $9, $10"
  = "EXPLAIN" +:+ NL
    +:+ "select $1::int4, $2, $3, $4, $5, $6, $7, $8, $9, $1::int40;"
  /\ explainParameterValues {[ 1%N := JNum 0 ]} "select $1" = [JNull]
  /\ explainParameterValues {[ 1%N := JBool false ]} "select $1" = [JNull]
  /\ explainParameterValues {[ 1%N := JNum 7 ]} "select $1" = [JNum 7].
Proof. repeat split; vm_compute; reflexivity. Qed.

(** ** [indexOf] *)

Lemma indexOfFrom_cons needle c r i :
  indexOfFrom needle (String c r) i
  = if String.prefix needle (String c r) then i
    else indexOfFrom needle r (i + 1).
Proof. reflexivity. Qed.

Lemma indexOfFrom_nil needle i :
  indexOfFrom needle "" i = if String.prefix needle "" then i else -1.
Proof. reflexivity. Qed.

Lemma indexOfFrom_spec needle s : forall i,
  0 <= i ->
  (indexOfFrom needle s i = -1 /\ indexOfFrom needle s 0 = -1)
  \/ (0 <= indexOfFrom needle s 0 <= strlen s
      /\ indexOfFrom needle s i = i + indexOfFrom needle s 0).
Proof.
  unfold strlen. induction s as [|c r IH]; intros i Hi.
  - rewrite !indexOfFrom_nil. simpl String.length.
    destruct (String.prefix needle ""); [right|left]; lia.
  - rewrite !indexOfFrom_cons.
    destruct (String.prefix needle (String c r)).
    + right. simpl String.length. lia.
    + simpl String.length. change (0 + 1) with 1.
      destruct (IH (i + 1) ltac:(lia)) as [?|?], (IH 1 ltac:(lia)) as [?|?];
        [left|right|left|right]; lia.
Qed.

Lemma indexOf_range needle s :
  indexOf needle s = -1 \/ 0 <= indexOf needle s <= strlen s.
Proof.
  unfold indexOf. destruct (indexOfFrom_spec needle s 0 ltac:(lia)); [left|right]; lia.
Qed.

Lemma indexOf_cons needle c r :
  indexOf needle (String c r)
  = if String.prefix needle (String c r) then 0
    else if indexOf needle r =? -1 then -1 else 1 + indexOf needle r.
Proof.
  unfold indexOf. rewrite indexOfFrom_cons.
  destruct (String.prefix needle (String c r)); [reflexivity|].
  change (0 + 1) with 1.
  destruct (indexOfFrom_spec needle r 1 ltac:(lia)) as [[E1 E0]|[R E1]].
  - rewrite E0, E1. reflexivity.
  - rewrite E1. destruct (Z.eqb_spec (indexOfFrom needle r 0) (-1)); lia.
Qed.

(** ** The extractor on a layout *)

Lemma scan_lines_app ls1 : forall st i ls2,
  scan_lines st i (ls1 ++ ls2)
  = scan_lines (scan_lines st i ls1) (i + Z.of_nat (length ls1)) ls2.
Proof.
  induction ls1 as [|l ls1 IH]; intros st i ls2.
  - simpl. f_equal. lia.
  - simpl scan_lines at 1 3. rewrite IH. f_equal. simpl length. lia.
Qed.

Lemma hasToken_false token l : hasToken token l = false <-> indexOf token l = -1.
Proof.
  unfold hasToken. rewrite negb_false_iff. apply Z.eqb_eq.
Qed.

Lemma hasToken_true token l : hasToken token l = true <-> indexOf token l <> -1.
Proof.
  unfold hasToken. rewrite negb_true_iff. apply Z.eqb_neq.
Qed.

Lemma scan_line_gap st i l :
  closed st -> hasToken HASKELL_HASQL l = false -> scan_line st i l = st.
Proof.
  intros [C1 C2] H. apply hasToken_false in H.
  unfold scan_line, scan_open. rewrite C1, H. simpl.
  unfold scan_close. destruct C2 as [-> | ->]; reflexivity.
Qed.

Lemma scan_line_first st i l :
  closed st -> 0 <= i ->
  hasToken HASKELL_HASQL l = true ->
  hasToken HASKELL_HASQL_END l = false ->
  opened (scan_line st i l) i (indexOf HASKELL_HASQL l + strlen HASKELL_HASQL)
  /\ result (scan_line st i l) = result st.
Proof.
  intros [C1 C2] Hi H E. apply hasToken_true in H. apply hasToken_false in E.
  unfold scan_line, scan_open. rewrite C1. simpl.
  destruct (Z.eqb_spec (indexOf HASKELL_HASQL l) (-1)) as [?|_]; [contradiction|].
  simpl. unfold scan_close. simpl. rewrite E. simpl.
  unfold opened. simpl. auto.
Qed.

Lemma scan_line_middle st i l i0 c0 :
  opened st i0 c0 -> hasToken HASKELL_HASQL_END l = false ->
  scan_line st i l = st.
Proof.
  intros (P & O1 & O2 & O3) E. apply hasToken_false in E.
  unfold scan_line, scan_open. rewrite O1.
  destruct (Z.eqb_spec i0 (-1)) as [?|_]; [lia|].
  unfold scan_close. rewrite O3. simpl. rewrite E. reflexivity.
Qed.

Lemma scan_line_last st i l i0 c0 :
  opened st i0 c0 -> i0 < i -> hasToken HASKELL_HASQL_END l = true ->
  closed (scan_line st i l)
  /\ sqlStringBound (scan_line st i l) = Some EmptyString
  /\ result (scan_line st i l)
     = result st
       ++ [mkRange (mkPosition i0 c0)
                   (mkPosition i (indexOf HASKELL_HASQL_END l))].
Proof.
  intros (P & O1 & O2 & O3) Lt E. apply hasToken_true in E.
  unfold scan_line, scan_open. rewrite O1.
  destruct (Z.eqb_spec i0 (-1)) as [?|_]; [lia|].
  unfold scan_close. rewrite O3. simpl.
  destruct (Z.eqb_spec (indexOf HASKELL_HASQL_END l) (-1)) as [?|_];
    [contradiction|].
  simpl. unfold closed. simpl. repeat split; auto.
  rewrite O1, O2. unfold new_Range, isBefore. simpl.
  destruct (Z.ltb_spec i0 i) as [_|?]; [reflexivity|lia].
Qed.

Lemma scan_line_one st i l :
  closed st -> 0 <= i ->
  hasToken HASKELL_HASQL l = true ->
  indexOf HASKELL_HASQL l + strlen HASKELL_HASQL
    <= indexOf HASKELL_HASQL_END l ->
  closed (scan_line st i l)
  /\ sqlStringBound (scan_line st i l) = Some EmptyString
  /\ result (scan_line st i l)
     = result st
       ++ [mkRange
             (mkPosition i (indexOf HASKELL_HASQL l + strlen HASKELL_HASQL))
             (mkPosition i (indexOf HASKELL_HASQL_END l))].
Proof.
  intros [C1 C2] Hi H Le. apply hasToken_true in H.
  unfold scan_line, scan_open. rewrite C1. simpl.
  destruct (Z.eqb_spec (indexOf HASKELL_HASQL l) (-1)) as [?|_]; [contradiction|].
  simpl. unfold scan_close. simpl.
  pose proof (indexOf_range HASKELL_HASQL l).
  change (strlen HASKELL_HASQL) with 6 in *.
  destruct (Z.eqb_spec (indexOf HASKELL_HASQL_END l) (-1)) as [?|_]; [lia|].
  simpl. unfold closed. simpl. repeat split; auto.
  f_equal. f_equal. unfold new_Range, isBefore. simpl.
  rewrite Z.ltb_irrefl, Z.eqb_refl. simpl.
  destruct (Z.ltb_spec (indexOf HASKELL_HASQL l + 6)
              (indexOf HASKELL_HASQL_END l)) as [_|Ge]; [reflexivity|].
  assert (indexOf HASKELL_HASQL_END l = indexOf HASKELL_HASQL l + 6) as -> by lia.
  reflexivity.
Qed.

Lemma scan_lines_middle ls : forall st i i0 c0,
  opened st i0 c0 ->
  forallb (fun m => negb (hasToken HASKELL_HASQL_END m)) ls = true ->
  scan_lines st i ls = st.
Proof.
  induction ls as [|l ls IH]; intros st i i0 c0 O A; [reflexivity|].
  simpl in A. apply andb_prop in A as [E A]. apply negb_true_iff in E.
  simpl. rewrite (scan_line_middle st i l i0 c0 O E). eauto.
Qed.

(** One block, read from a state in which no fragment is open. *)
Lemma scan_block b st i :
  closed st -> 0 <= i -> block_ok b = true ->
  let st' := scan_lines st i (block_lines b) in
  closed st'
  /\ result st' = result st ++ layout_spans i [b]
  /\ sqlStringBound st'
     = if is_region b then Some EmptyString else sqlStringBound st.
Proof.
  intros C Hi Ok. destruct b as [l|l|first middle last]; simpl in Ok.
  - apply negb_true_iff in Ok. simpl.
    rewrite (scan_line_gap st i l C Ok), app_nil_r. auto.
  - apply andb_prop in Ok as [Ok _]. apply andb_prop in Ok as [H Le].
    apply Z.leb_le in Le. simpl.
    destruct (scan_line_one st i l C Hi H Le) as (C' & B & R). auto.
  - apply andb_prop in Ok as [Ok _]. apply andb_prop in Ok as [Ok L].
    apply andb_prop in Ok as [Ok M]. apply andb_prop in Ok as [F NF].
    apply negb_true_iff in NF.
    destruct (scan_line_first st i first C Hi F NF) as (O & R).
    cbv zeta. simpl block_lines. simpl scan_lines. rewrite scan_lines_app.
    rewrite (scan_lines_middle middle _ _ _ _ O M).
    simpl scan_lines.
    destruct (scan_line_last (scan_line st i first)
                (i + 1 + Z.of_nat (length middle)) last _ _ O ltac:(lia) L)
      as (C' & B & R').
    repeat split; try apply C'; auto.
    rewrite R', R. reflexivity.
Qed.

Lemma layout_spans_cons b bs i :
  layout_spans i (b :: bs)
  = layout_spans i [b]
    ++ layout_spans (i + Z.of_nat (length (block_lines b))) bs.
Proof.
  destruct b as [l|l|first middle last]; simpl; try reflexivity.
  f_equal. f_equal. rewrite length_app. simpl. lia.
Qed.

Lemma region_count_cons b bs :
  region_count (b :: bs)
  = ((if is_region b then 1 else 0) + region_count bs)%nat.
Proof.
  unfold region_count. rewrite filter_cons.
  destruct b; simpl is_region; case_decide; simpl; congruence.
Qed.

Lemma scan_layout bs : forall st i,
  closed st -> 0 <= i -> forallb block_ok bs = true ->
  let st' := scan_lines st i (layout_lines bs) in
  closed st'
  /\ result st' = result st ++ layout_spans i bs
  /\ sqlStringBound st'
     = if (0 <? region_count bs)%nat then Some EmptyString
       else sqlStringBound st.
Proof.
  induction bs as [|b bs IH]; intros st i C Hi Ok.
  - simpl. rewrite app_nil_r. auto.
  - simpl in Ok. apply andb_prop in Ok as [Okb Ok].
    unfold layout_lines. simpl concat. fold (layout_lines bs).
    cbv zeta. rewrite scan_lines_app.
    destruct (scan_block b st i C Hi Okb) as (C1 & R1 & B1).
    destruct (IH (scan_lines st i (block_lines b))
                (i + Z.of_nat (length (block_lines b))) C1 ltac:(lia) Ok)
      as (C2 & R2 & B2).
    split; [exact C2|]. split.
    + rewrite R2, R1, (layout_spans_cons b bs), app_assoc. reflexivity.
    + rewrite B2, B1, region_count_cons.
      destruct (is_region b); simpl.
      * destruct (0 <? region_count bs)%nat; reflexivity.
      * reflexivity.
Qed.

Lemma closed_scan_init : closed scan_init.
Proof. unfold closed. simpl. auto. Qed.

Lemma getHasqlContent_layout bs doc :
  doc_lines doc = layout_lines bs ->
  forallb block_ok bs = true ->
  getHasqlContent doc
  = (layout_spans 0 bs, (0 <? region_count bs)%nat).
Proof.
  intros E Ok. unfold getHasqlContent. rewrite E.
  destruct (scan_layout bs scan_init 0 closed_scan_init ltac:(lia) Ok)
    as (C & R & B).
  rewrite B, R. simpl.
  destruct (0 <? region_count bs)%nat; reflexivity.
Qed.

Lemma getHasqlContent_unterminated bs opener behind doc :
  doc_lines doc = layout_lines bs ++ opener :: behind ->
  forallb block_ok bs = true ->
  unterminated opener behind = true ->
  getHasqlContent doc = (layout_spans 0 bs, false).
Proof.
  intros E Ok U. unfold getHasqlContent. rewrite E, scan_lines_app.
  destruct (scan_layout bs scan_init 0 closed_scan_init ltac:(lia) Ok)
    as (C & R & _).
  unfold unterminated in U. apply andb_prop in U as [S A].
  simpl in A. apply andb_prop in A as [NE A]. apply negb_true_iff in NE.
  simpl scan_lines.
  destruct (scan_line_first _ (0 + Z.of_nat (length (layout_lines bs)))
              opener C ltac:(lia) S NE) as (O & R').
  rewrite (scan_lines_middle behind _ _ _ _ O A).
  destruct O as (_ & _ & _ & ->). rewrite R', R. reflexivity.
Qed.

(** ** The regions of a layout, in the sense of the specification *)

Lemma indexOf_dropChars_none needle l : forall k,
  indexOf needle l = -1 -> indexOf needle (dropChars k l) = -1.
Proof.
  induction l as [|c r IH]; intros k H.
  - destruct k; exact H.
  - destruct k as [|k]; [exact H|]. simpl dropChars. apply IH.
    rewrite indexOf_cons in H.
    destruct (String.prefix needle (String c r)); [discriminate|].
    destruct (Z.eqb_spec (indexOf needle r) (-1)) as [E|_]; [exact E|].
    pose proof (indexOf_range needle r). lia.
Qed.

Lemma indexOf_dropChars needle l : forall k,
  Z.of_nat k <= indexOf needle l ->
  indexOf needle (dropChars k l) = indexOf needle l - Z.of_nat k.
Proof.
  induction l as [|c r IH]; intros k H.
  - pose proof (indexOf_range needle "") as R. unfold strlen in R. simpl in R.
    destruct k; simpl dropChars; lia.
  - destruct k as [|k]; [simpl dropChars; lia|]. simpl dropChars.
    rewrite indexOf_cons in *.
    destruct (String.prefix needle (String c r)); [lia|].
    destruct (Z.eqb_spec (indexOf needle r) (-1)) as [E|_]; [lia|].
    rewrite IH; lia.
Qed.

Lemma dropChars_dropChars l : forall j k,
  dropChars j (dropChars k l) = dropChars (k + j) l.
Proof.
  induction l as [|c r IH]; intros j k.
  - destruct k, j; reflexivity.
  - destruct k as [|k]; [reflexivity|]. simpl. apply IH.
Qed.

Lemma region_scan_cons inside skip c r :
  region_scan inside skip (String c r)
  = match skip with
    | S k => region_scan inside k r
    | O =>
        if negb inside && String.prefix HASKELL_HASQL (String c r) then
          region_scan true 5 r
        else if inside && String.prefix HASKELL_HASQL_END (String c r) then
          let '(inside', n) := region_scan false 1 r in (inside', S n)
        else region_scan inside 0 r
    end.
Proof. reflexivity. Qed.

Lemma region_scan_skip l : forall inside k,
  region_scan inside k l = region_scan inside 0 (dropChars k l).
Proof.
  induction l as [|c r IH]; intros inside k.
  - destruct k; reflexivity.
  - destruct k as [|k]; [reflexivity|].
    rewrite region_scan_cons. simpl dropChars. apply IH.
Qed.

Lemma region_scan_outside_none l :
  indexOf HASKELL_HASQL l = -1 -> region_scan false 0 l = (false, O).
Proof.
  induction l as [|c r IH]; intros H; [reflexivity|].
  rewrite indexOf_cons in H. rewrite region_scan_cons.
  destruct (String.prefix HASKELL_HASQL (String c r)); [discriminate|].
  simpl negb. simpl andb. apply IH.
  destruct (Z.eqb_spec (indexOf HASKELL_HASQL r) (-1)) as [E|_]; [exact E|].
  pose proof (indexOf_range HASKELL_HASQL r). lia.
Qed.

Lemma region_scan_inside_none l :
  indexOf HASKELL_HASQL_END l = -1 -> region_scan true 0 l = (true, O).
Proof.
  induction l as [|c r IH]; intros H; [reflexivity|].
  rewrite indexOf_cons in H. rewrite region_scan_cons.
  destruct (String.prefix HASKELL_HASQL_END (String c r)); [discriminate|].
  simpl negb. simpl andb. apply IH.
  destruct (Z.eqb_spec (indexOf HASKELL_HASQL_END r) (-1)) as [E|_]; [exact E|].
  pose proof (indexOf_range HASKELL_HASQL_END r). lia.
Qed.

Lemma region_scan_outside_start l :
  0 <= indexOf HASKELL_HASQL l ->
  region_scan false 0 l
  = region_scan true 0
      (substringFrom l (indexOf HASKELL_HASQL l + strlen HASKELL_HASQL)).
Proof.
  unfold substringFrom. change (strlen HASKELL_HASQL) with 6.
  induction l as [|c r IH]; intros H; [vm_compute in H; contradiction|].
  rewrite indexOf_cons in *. rewrite region_scan_cons.
  destruct (String.prefix HASKELL_HASQL (String c r)).
  - simpl negb. simpl andb. cbv iota. rewrite region_scan_skip. reflexivity.
  - simpl negb. simpl andb. cbv iota.
    destruct (Z.eqb_spec (indexOf HASKELL_HASQL r) (-1)) as [E|NE]; [lia|].
    pose proof (indexOf_range HASKELL_HASQL r).
    rewrite IH by lia.
    replace (Z.to_nat (1 + indexOf HASKELL_HASQL r + 6))
      with (S (Z.to_nat (indexOf HASKELL_HASQL r + 6))) by lia.
    reflexivity.
Qed.

Lemma region_scan_inside_end l :
  0 <= indexOf HASKELL_HASQL_END l ->
  region_scan true 0 l
  = (fst (region_scan false 0
            (substringFrom l
               (indexOf HASKELL_HASQL_END l + strlen HASKELL_HASQL_END))),
     S (snd (region_scan false 0
               (substringFrom l
                  (indexOf HASKELL_HASQL_END l
                   + strlen HASKELL_HASQL_END))))).
Proof.
  unfold substringFrom. change (strlen HASKELL_HASQL_END) with 2.
  induction l as [|c r IH]; intros H; [vm_compute in H; contradiction|].
  rewrite indexOf_cons in *. rewrite region_scan_cons.
  destruct (String.prefix HASKELL_HASQL_END (String c r)).
  - simpl negb. simpl andb. cbv iota. rewrite region_scan_skip.
    change (dropChars (Z.to_nat (0 + 2)) (String c r)) with (dropChars 1 r).
    destruct (region_scan false 0 (dropChars 1 r)); reflexivity.
  - simpl negb. simpl andb. cbv iota.
    destruct (Z.eqb_spec (indexOf HASKELL_HASQL_END r) (-1)) as [E|NE]; [lia|].
    pose proof (indexOf_range HASKELL_HASQL_END r).
    rewrite IH by lia.
    replace (Z.to_nat (1 + indexOf HASKELL_HASQL_END r + 2))
      with (S (Z.to_nat (indexOf HASKELL_HASQL_END r + 2))) by lia.
    reflexivity.
Qed.

(** A line that closes a region cleanly, read inside a region. *)
Lemma region_scan_closing l :
  hasToken HASKELL_HASQL_END l = true -> closes_cleanly l = true ->
  region_scan true 0 l = (false, 1%nat).
Proof.
  intros E C. apply hasToken_true in E.
  pose proof (indexOf_range HASKELL_HASQL_END l).
  rewrite region_scan_inside_end by lia.
  unfold closes_cleanly in C. apply negb_true_iff, hasToken_false in C.
  now rewrite (region_scan_outside_none _ C).
Qed.

Lemma region_scan_one_line l :
  block_ok (OneLine l) = true -> region_scan false 0 l = (false, 1%nat).
Proof.
  simpl. intros Ok. apply andb_prop in Ok as [Ok C].
  apply andb_prop in Ok as [H Le]. apply Z.leb_le in Le.
  apply hasToken_true in H.
  pose proof (indexOf_range HASKELL_HASQL l).
  rewrite region_scan_outside_start by lia.
  unfold substringFrom in *.
  set (k := Z.to_nat (indexOf HASKELL_HASQL l + strlen HASKELL_HASQL)) in *.
  assert (Hk : Z.of_nat k = indexOf HASKELL_HASQL l + strlen HASKELL_HASQL)
    by (unfold k, strlen; lia).
  assert (D : indexOf HASKELL_HASQL_END (dropChars k l)
              = indexOf HASKELL_HASQL_END l - Z.of_nat k)
    by (apply indexOf_dropChars; lia).
  apply region_scan_closing.
  - apply hasToken_true. lia.
  - unfold closes_cleanly in *. unfold substringFrom in *.
    rewrite D, dropChars_dropChars.
    replace (k + Z.to_nat (indexOf HASKELL_HASQL_END l - Z.of_nat k
                           + strlen HASKELL_HASQL_END))%nat
      with (Z.to_nat (indexOf HASKELL_HASQL_END l + strlen HASKELL_HASQL_END))
      by (unfold strlen; lia).
    exact C.
Qed.

Lemma region_scan_opening l :
  hasToken HASKELL_HASQL l = true ->
  hasToken HASKELL_HASQL_END l = false ->
  region_scan false 0 l = (true, O).
Proof.
  intros H E. apply hasToken_true in H. apply hasToken_false in E.
  pose proof (indexOf_range HASKELL_HASQL l).
  rewrite region_scan_outside_start by lia.
  apply region_scan_inside_none. unfold substringFrom.
  now apply indexOf_dropChars_none.
Qed.

Lemma regions_from_middle ls rest :
  forallb (fun m => negb (hasToken HASKELL_HASQL_END m)) ls = true ->
  regions_from true (ls ++ rest) = regions_from true rest.
Proof.
  induction ls as [|l ls IH]; intros A; [reflexivity|].
  simpl in A. apply andb_prop in A as [E A].
  apply negb_true_iff, hasToken_false in E.
  simpl. rewrite (region_scan_inside_none l E).
  rewrite IH by exact A. destruct (regions_from true rest); reflexivity.
Qed.

Lemma regions_from_block b rest :
  block_ok b = true ->
  regions_from false (block_lines b ++ rest)
  = match regions_from false rest with
    | Some m => Some ((if is_region b then 1 else 0) + m)%nat
    | None => None
    end.
Proof.
  intros Ok. destruct b as [l|l|first middle last].
  - simpl in Ok. apply negb_true_iff, hasToken_false in Ok.
    simpl. now rewrite (region_scan_outside_none l Ok).
  - simpl. now rewrite (region_scan_one_line l Ok).
  - simpl in Ok.
    apply andb_prop in Ok as [Ok C]. apply andb_prop in Ok as [Ok L].
    apply andb_prop in Ok as [Ok M]. apply andb_prop in Ok as [F NF].
    apply negb_true_iff in NF.
    simpl block_lines. simpl app. simpl regions_from.
    rewrite (region_scan_opening first F NF).
    rewrite <- app_assoc, (regions_from_middle middle _ M).
    simpl. rewrite (region_scan_closing last L C).
    destruct (regions_from false rest); reflexivity.
Qed.

Lemma spec_regions_layout bs :
  forallb block_ok bs = true ->
  spec_regions (layout_lines bs) = Some (region_count bs).
Proof.
  unfold spec_regions. induction bs as [|b bs IH]; intros Ok; [reflexivity|].
  simpl in Ok. apply andb_prop in Ok as [Okb Ok].
  unfold layout_lines. simpl concat. fold (layout_lines bs).
  rewrite (regions_from_block b _ Okb), (IH Ok), region_count_cons.
  reflexivity.
Qed.

Lemma regions_from_app_layout bs rest :
  forallb block_ok bs = true ->
  regions_from false rest = None ->
  regions_from false (layout_lines bs ++ rest) = None.
Proof.
  induction bs as [|b bs IH]; intros Ok N; [exact N|].
  simpl in Ok. apply andb_prop in Ok as [Okb Ok].
  unfold layout_lines. simpl concat. fold (layout_lines bs).
  rewrite <- app_assoc, (regions_from_block b _ Okb), (IH Ok N).
  reflexivity.
Qed.

Lemma spec_regions_unterminated bs opener behind :
  forallb block_ok bs = true ->
  unterminated opener behind = true ->
  spec_regions (layout_lines bs ++ opener :: behind) = None.
Proof.
  intros Ok U. apply regions_from_app_layout; [exact Ok|].
  unfold unterminated in U. apply andb_prop in U as [S A].
  simpl in A. apply andb_prop in A as [NE A]. apply negb_true_iff in NE.
  simpl. rewrite (region_scan_opening opener S NE).
  rewrite <- (app_nil_r behind), (regions_from_middle behind [] A).
  reflexivity.
Qed.

(** ** The spans of a layout are in order *)

Lemma layout_spans_length bs : forall i,
  length (layout_spans i bs) = region_count bs.
Proof.
  induction bs as [|b bs IH]; intros i; [reflexivity|].
  rewrite region_count_cons.
  destruct b; simpl; rewrite IH; reflexivity.
Qed.

Lemma layout_spans_from bs : forall i r,
  In r (layout_spans i bs) -> i <= pos_line (range_start r).
Proof.
  induction bs as [|b bs IH]; intros i r H; [contradiction|].
  destruct b as [l|l|first middle last]; simpl in H.
  - apply IH in H. lia.
  - destruct H as [<-|H]; [simpl; lia|]. apply IH in H. lia.
  - destruct H as [<-|H]; [simpl; lia|]. apply IH in H. lia.
Qed.

Lemma spans_in_order_cons r rest :
  isBeforeOrEqual (range_start r) (range_end r) = true ->
  (forall r', In r' rest -> pos_line (range_end r) < pos_line (range_start r')) ->
  spans_in_order rest ->
  spans_in_order (r :: rest).
Proof.
  intros B L O. simpl. split; [exact B|]. split; [|exact O].
  destruct rest as [|r' rest']; [exact I|]. apply L. now left.
Qed.

Lemma layout_spans_in_order bs : forall i,
  forallb block_ok bs = true -> spans_in_order (layout_spans i bs).
Proof.
  induction bs as [|b bs IH]; intros i Ok; [exact I|].
  simpl in Ok. apply andb_prop in Ok as [Okb Ok].
  destruct b as [l|l|first middle last]; simpl layout_spans.
  - now apply IH.
  - simpl in Okb. apply andb_prop in Okb as [Okb _].
    apply andb_prop in Okb as [_ Le]. apply Z.leb_le in Le.
    apply spans_in_order_cons; [| |now apply IH].
    + unfold isBeforeOrEqual. simpl. rewrite Z.eqb_refl.
      apply orb_true_iff. right. simpl. now apply Z.leb_le.
    + intros r' H. apply layout_spans_from in H. simpl. lia.
  - apply spans_in_order_cons; [| |now apply IH].
    + unfold isBeforeOrEqual. simpl. apply orb_true_iff. left.
      apply Z.ltb_lt. lia.
    + intros r' H. apply layout_spans_from in H. simpl. lia.
Qed.

(** C2 (amended).  For a document laid out with at most one region per
    line and holding N regions, N at least 1 (a line that opens a region
    has no end token before its start token, and behind the end token of a
    line that closes a region no start token follows), extraction returns
    exactly the N spans of the regions, in document order and not
    overlapping, with well-formed = true; when such a document is followed
    by a start token that no end token follows, the flag is false and the
    spans collected so far are still returned. *)
Theorem extraction_of_one_region_per_line_layouts :
  forall bs : list block,
    forallb block_ok bs = true ->
    (forall doc,
       doc_lines doc = layout_lines bs ->
       (1 <= region_count bs)%nat ->
       spec_regions (doc_lines doc) = Some (region_count bs)
       /\ getHasqlContent doc = (layout_spans 0 bs, true)
       /\ length (layout_spans 0 bs) = region_count bs
       /\ spans_in_order (layout_spans 0 bs))
    /\ (forall doc opener behind,
          doc_lines doc = layout_lines bs ++ opener :: behind ->
          unterminated opener behind = true ->
          spec_regions (doc_lines doc) = None
          /\ getHasqlContent doc = (layout_spans 0 bs, false)).
Proof.
  intros bs Ok. split.
  - intros doc E N. repeat split.
    + rewrite E. now apply spec_regions_layout.
    + rewrite (getHasqlContent_layout bs doc E Ok).
      destruct (Nat.ltb_spec 0 (region_count bs)); [reflexivity|lia].
    + apply layout_spans_length.
    + now apply layout_spans_in_order.
  - intros doc opener behind E U. split.
    + rewrite E. now apply spec_regions_unterminated.
    + now apply (getHasqlContent_unterminated bs opener behind).
Qed.

Lemma extraction_of_one_region_per_line_layouts_witness :
  getHasqlContent
    (mkTextDocument "file:///Statements.hs" "Statements.hs" NL
       ["module Statements where";
        "one = [hasql| select 1 |]";
        "two = [hasql|";
        "  select $1";
        "|]"])
  = ([mkRange (mkPosition 1 13) (mkPosition 1 23);
      mkRange (mkPosition 2 13) (mkPosition 4 0)], true)
  /\ getHasqlContent
       (mkTextDocument "file:///Statements.hs" "Statements.hs" NL
          ["one = [hasql| select 1 |]"; "two = [hasql|"; "  select $1"])
     = ([mkRange (mkPosition 0 13) (mkPosition 0 23)], false).
Proof.
  split.
  - destruct (proj1 (extraction_of_one_region_per_line_layouts
                       [Gap "module Statements where";
                        OneLine "one = [hasql| select 1 |]";
                        ManyLines "two = [hasql|" ["  select $1"] "|]"]
                       eq_refl)
                (mkTextDocument "file:///Statements.hs" "Statements.hs" NL
                   ["module Statements where";
                    "one = [hasql| select 1 |]";
                    "two = [hasql|";
                    "  select $1";
                    "|]"])
                eq_refl ltac:(vm_compute; lia)) as (_ & G & _).
    exact G.
  - destruct (proj2 (extraction_of_one_region_per_line_layouts
                       [OneLine "one = [hasql| select 1 |]"] eq_refl)
                (mkTextDocument "file:///Statements.hs" "Statements.hs" NL
                   ["one = [hasql| select 1 |]"; "two = [hasql|";
                    "  select $1"])
                "two = [hasql|" ["  select $1"] eq_refl eq_refl) as (_ & G).
    exact G.
Defined.

(** The claim as the specification words it fails in two ways: a document
    without any region is reported as not well formed, and of two regions
    on one line only the first is extracted. *)
Lemma extraction_misses_regions_sharing_a_line :
  (spec_regions ["main = pure ()"] = Some 0%nat
   /\ getHasqlContent
        (mkTextDocument "file:///Main.hs" "Main.hs" NL ["main = pure ()"])
      = ([], false))
  /\ (spec_regions ["(a, b) = ([hasql|select 1|], [hasql|select 2|])"]
      = Some 2%nat
      /\ getHasqlContent
           (mkTextDocument "file:///Main.hs" "Main.hs" NL
              ["(a, b) = ([hasql|select 1|], [hasql|select 2|])"])
         = ([mkRange (mkPosition 0 17) (mkPosition 0 25)], true)).
Proof. repeat split; vm_compute; reflexivity. Qed.

(** ** The override lookup *)

Lemma objectAt_alloc (h : list (gmap string value)) l :
  objectAt (h ++ [∅]) l = objectAt h l.
Proof.
  unfold objectAt. destruct (decide (l < length h)%nat) as [Lt|Ge].
  - now rewrite lookup_app_l.
  - rewrite lookup_app_r by lia.
    rewrite (lookup_ge_None_2 h l) by lia.
    destruct (l - length h)%nat; reflexivity.
Qed.

Lemma ownProperties_alloc (h : list (gmap string value)) v :
  ownProperties (h ++ [∅]) v = ownProperties h v.
Proof. destruct v; simpl; auto using objectAt_alloc. Qed.

Lemma objectAt_insert_eq (h : list (gmap string value)) l o :
  (l < length h)%nat -> objectAt (<[l := o]> h) l = o.
Proof. intros Lt. unfold objectAt. now rewrite list_lookup_insert_eq. Qed.

Lemma lookup_insert_other (h : list (gmap string value)) l l0 o :
  l ≠ l0 -> <[l := o]> h !! l0 = h !! l0.
Proof. intros Ne. now apply list_lookup_insert_ne. Qed.

Lemma nullishOrEmpty_spec (h : list (gmap string value)) v :
  (v = VUndefined \/ v = VNull) /\ nullishOrEmpty h v = allocEmpty h
  \/ (v <> VUndefined /\ v <> VNull) /\ nullishOrEmpty h v = (h, v).
Proof. destruct v; simpl; auto; right; split; auto; split; discriminate. Qed.

Lemma falsyOrEmpty_table (h : list (gmap string value)) configured :
  exists h0 casts,
    falsyOrEmpty h configured = (h0, casts)
    /\ casts <> VUndefined /\ casts <> VNull
    /\ (h0 = h \/ h0 = h ++ [∅])
    /\ ownProperties h0 casts = ownProperties h configured.
Proof.
  assert (Fresh : exists h0 casts,
            allocEmpty h = (h0, casts)
            /\ casts <> VUndefined /\ casts <> VNull
            /\ (h0 = h \/ h0 = h ++ [∅])
            /\ ownProperties h0 casts = ∅).
  { unfold allocEmpty. eexists _, _. split; [reflexivity|].
    repeat split; try discriminate; auto.
    simpl. unfold objectAt. now rewrite lookup_app_r, Nat.sub_diag by lia. }
  assert (Kept : configured <> VUndefined -> configured <> VNull ->
            exists h0 casts,
              (h, configured) = (h0, casts)
              /\ casts <> VUndefined /\ casts <> VNull
              /\ (h0 = h \/ h0 = h ++ [∅])
              /\ ownProperties h0 casts = ownProperties h configured).
  { intros. eexists _, _. split; [reflexivity|]. auto. }
  unfold falsyOrEmpty.
  destruct configured as [| |b|z|s|l]; simpl truthyValue.
  - exact Fresh.
  - exact Fresh.
  - destruct b; [now apply Kept|exact Fresh].
  - destruct (Z.eqb_spec z 0) as [->|Hz]; simpl negb.
    + exact Fresh.
    + now apply Kept.
  - destruct s as [|c s]; simpl negb.
    + exact Fresh.
    + now apply Kept.
  - now apply Kept.
Qed.

(** What [getSubstitutionsForDocument] returns: a new object at the end of
    the store that holds the properties of the entry of the document, and
    a store whose former objects are as they were. *)
Lemma getSubstitutionsForDocument_spec (h : list (gmap string value))
  document casts :
  casts <> VUndefined -> casts <> VNull ->
  exists h1,
    getSubstitutionsForDocument h document casts
    = Returns (h1, VRef (length h))
    /\ (length h < length h1)%nat
    /\ (forall l0, (l0 < length h)%nat -> h1 !! l0 = h !! l0)
    /\ objectAt h1 (length h)
       = match ownProperties h casts !! doc_relativePath document with
         | Some found => ownProperties h found
         | None => ∅
         end.
Proof.
  intros N1 N2. unfold getSubstitutionsForDocument.
  assert (G : getProp (h ++ [∅]) casts (doc_relativePath document)
              = Returns (default VUndefined
                           (ownProperties h casts
                              !! doc_relativePath document))).
  { destruct casts; try contradiction; simpl;
      rewrite ?objectAt_alloc; reflexivity. }
  rewrite G. simpl bind_outcome.
  set (found := default VUndefined _).
  assert (F : match ownProperties h casts !! doc_relativePath document with
              | Some found => ownProperties h found
              | None => ∅
              end = ownProperties h found).
  { unfold found. destruct (_ !! _); reflexivity. }
  rewrite F. clear F G.
  destruct (nullishOrEmpty_spec (h ++ [∅]) found) as [[Nl ->]|[Nn ->]].
  - unfold allocEmpty, objectAssign. eexists. split; [reflexivity|].
    rewrite length_insert, !length_app. simpl. split; [lia|]. split.
    + intros l0 Lt. rewrite lookup_insert_other by lia.
      now rewrite <- app_assoc, lookup_app_l.
    + rewrite objectAt_insert_eq by (rewrite !length_app; simpl; lia).
      rewrite !objectAt_alloc.
      assert (E : forall l, (length h <= l)%nat -> objectAt h l = ∅).
      { intros l Ge. unfold objectAt. now rewrite lookup_ge_None_2. }
      rewrite !E by lia. rewrite map_union_empty.
      destruct Nl as [-> | ->]; reflexivity.
  - unfold objectAssign. eexists. split; [reflexivity|].
    rewrite length_insert, length_app. simpl. split; [lia|]. split.
    + intros l0 Lt. rewrite lookup_insert_other by lia.
      now rewrite lookup_app_l.
    + rewrite objectAt_insert_eq by (rewrite length_app; simpl; lia).
      rewrite ownProperties_alloc.
      unfold objectAt. rewrite lookup_app_r, Nat.sub_diag by lia. simpl.
      apply map_union_empty.
Qed.

Lemma expressionOverrides_spec (h : list (gmap string value)) l hash :
  exists h' mapping,
    expressionOverrides h (VRef l) hash = Returns (h', mapping)
    /\ match objectAt h l !! numberToString hash with
       | Some VUndefined | Some VNull | None =>
           h' = h ++ [∅] /\ mapping = VRef (length h)
       | Some found => h' = h /\ mapping = found
       end.
Proof.
  unfold expressionOverrides. simpl.
  destruct (objectAt h l !! numberToString hash) as [[]|]; simpl;
    eexists _, _; split; reflexivity || auto.
Qed.

(** C9 (amended).  The override lookup never throws, whatever the
    configuration holds; when the path or the identity is absent it
    returns a new, empty mapping, otherwise the entry of the table; and
    the per-file mapping that [getSubstitutionsForDocument] returns is a
    new object, so that a caller writing into it leaves every object of
    the shared table as it was. *)
Theorem override_lookup_never_throws_and_file_copy_is_fresh :
  forall (h : list (gmap string value)) (configured : value)
         (document : TextDocument) (hash : Z),
    (exists h' mapping,
       resolveOverrides h configured document hash = Returns (h', mapping)
       /\ match overrideEntry h configured (doc_relativePath document) hash
          with
          | None =>
              exists l, mapping = VRef l /\ h !! l = None
                        /\ objectAt h' l = ∅
          | Some entry => mapping = entry
          end)
    /\ (forall casts,
          casts <> VUndefined -> casts <> VNull ->
          exists h1 l,
            getSubstitutionsForDocument h document casts
            = Returns (h1, VRef l)
            /\ h !! l = None
            /\ forall key v l0,
                 (l0 < length h)%nat ->
                 setProp h1 (VRef l) key v !! l0 = h !! l0).
Proof.
  intros h configured document hash. split.
  - unfold resolveOverrides.
    destruct (falsyOrEmpty_table h configured)
      as (h0 & casts & -> & N1 & N2 & H0 & P).
    destruct (getSubstitutionsForDocument_spec h0 document casts N1 N2)
      as (h1 & -> & L1 & K1 & O1).
    simpl bind_outcome.
    destruct (expressionOverrides_spec h1 (length h0) hash)
      as (h' & mapping & -> & M).
    exists h', mapping. split; [reflexivity|].
    unfold overrideEntry. rewrite <- P.
    rewrite O1 in M.
    assert (L0 : (length h <= length h0)%nat).
    { destruct H0 as [-> | ->]; rewrite ?length_app; simpl; lia. }
    assert (A : forall v, ownProperties h0 v = ownProperties h v).
    { intros v. destruct H0 as [-> | ->]; auto using ownProperties_alloc. }
    assert (Fresh : h' = h1 ++ [∅] /\ mapping = VRef (length h1) ->
              exists l, mapping = VRef l /\ h !! l = None
                        /\ objectAt h' l = ∅).
    { intros [-> ->]. exists (length h1). split; [reflexivity|]. split.
      - apply lookup_ge_None_2. lia.
      - unfold objectAt. now rewrite lookup_app_r, Nat.sub_diag by lia. }
    destruct (ownProperties h0 casts !! doc_relativePath document)
      as [perFile|].
    + rewrite <- A.
      destruct (ownProperties h0 perFile !! numberToString hash) as [[]|];
        try (now apply Fresh); now destruct M.
    + rewrite lookup_empty in M. now apply Fresh.
  - intros casts N1 N2.
    destruct (getSubstitutionsForDocument_spec h document casts N1 N2)
      as (h1 & E & L1 & K1 & _).
    exists h1, (length h). split; [exact E|]. split.
    + apply lookup_ge_None_2. lia.
    + intros key v l0 Lt. simpl.
      rewrite lookup_insert_other by lia. now apply K1.
Qed.

Lemma override_lookup_never_throws_and_file_copy_is_fresh_witness :
  exists h1 l,
    getSubstitutionsForDocument
      [ {[ "Statements.hs" := VRef 1 ]};
        {[ "1147568695465191" := VRef 2 ]};
        {[ "1" := VStr "boolean" ]} ]
      (mkTextDocument "file:///Statements.hs" "Statements.hs" NL [])
      (VRef 0)
    = Returns (h1, VRef l)
    /\ setProp h1 (VRef l) "1147568695465191" VNull !! 1%nat
       = Some {[ "1147568695465191" := VRef 2 ]}.
Proof.
  destruct (proj2 (override_lookup_never_throws_and_file_copy_is_fresh
                     [ {[ "Statements.hs" := VRef 1 ]};
                       {[ "1147568695465191" := VRef 2 ]};
                       {[ "1" := VStr "boolean" ]} ]
                     (VRef 0)
                     (mkTextDocument "file:///Statements.hs" "Statements.hs"
                        NL [])
                     0)
              (VRef 0) ltac:(discriminate) ltac:(discriminate))
    as (h1 & l & E & F & K).
  exists h1, l. split; [exact E|].
  apply (K "1147568695465191" VNull 1%nat). simpl. lia.
Defined.

(** The claim as the specification words it fails: the mapping the lookup
    returns for a fragment is the object of the table itself, and a write
    into it shows in the table. *)
Lemma resolved_mapping_is_shared_with_table :
  match
    resolveOverrides
      [ {[ "Statements.hs" := VRef 1 ]};
        {[ "1147568695465191" := VRef 2 ]};
        {[ "1" := VStr "boolean" ]} ]
      (VRef 0)
      (mkTextDocument "file:///Statements.hs" "Statements.hs" NL [])
      1147568695465191
  with
  | Returns (h', mapping) =>
      mapping = VRef 2
      /\ tableEntry h' (VRef 0) "Statements.hs" 1147568695465191 1
         = Returns (VStr "boolean")
      /\ tableEntry (setProp h' mapping "1" (VStr "text")) (VRef 0)
           "Statements.hs" 1147568695465191 1
         = Returns (VStr "text")
  | Throws => False
  end.
Proof. vm_compute. repeat split. Qed.

(** ** The validation pass *)

Section ValidationPassProperties.

Variable query : string -> list jsval -> option DatabaseError.
Variable typeCasts : gmap Z (gmap N string).
Variable defaultValues : gmap Z (gmap N jsval).
Variable document : TextDocument.

Local Abbreviation step_ := (step query typeCasts defaultValues document).
Local Abbreviation diagnosticOf_ :=
  (diagnosticOf query typeCasts defaultValues document).
Local Abbreviation actualErrorOf_ :=
  (actualErrorOf query typeCasts defaultValues document).
Local Abbreviation advance_ :=
  (advance query typeCasts defaultValues document).
Local Abbreviation callback_ok_ := (callback_ok query document).
Local Abbreviation reported_ :=
  (reported query typeCasts defaultValues document).
Local Abbreviation pass_invariant_ :=
  (pass_invariant query typeCasts defaultValues document).

Lemma reported_insert fragments : forall ts i h t,
  fragments !! i = Some h -> ts !! i = Some t ->
  reported_ fragments (<[i := advance_ t h]> ts)
  ≡ₚ (if decide (rank t = 1%nat) then option_list (diagnosticOf_ h) else [])
     ++ reported_ fragments ts.
Proof.
  induction fragments as [|h0 fragments IH]; intros ts i h t F T;
    [discriminate|].
  destruct ts as [|t0 ts]; [discriminate|].
  destruct i as [|i]; simpl in F, T.
  - injection F as ->. injection T as ->. simpl.
    destruct t as [|se|ok]; simpl; reflexivity.
  - simpl. rewrite (IH ts i h t F T).
    rewrite !app_assoc. apply Permutation_app_tail, Permutation_app_comm.
Qed.

Lemma reported_all_returned fragments : forall ts,
  length ts = length fragments ->
  Forall (fun t => rank t = 2%nat) ts ->
  reported_ fragments ts = omap diagnosticOf_ fragments.
Proof.
  induction fragments as [|h fragments IH]; intros [|t ts] L A;
    try discriminate; [reflexivity|].
  inversion A as [|? ? R A']; subst. simpl in L.
  simpl. rewrite (IH ts) by (auto; lia).
  destruct t; try discriminate. simpl.
  destruct (diagnosticOf_ h); reflexivity.
Qed.

Lemma actualError_of_syntax h :
  match runSyntaxCheck query (expressionOf document h) with
  | Some e => Some e
  | None =>
      runExplainCheck query (expressionTypeCasts typeCasts document h)
        (expressionDefaultValues defaultValues document h)
        (expressionOf document h)
  end = actualErrorOf_ h.
Proof. reflexivity. Qed.

Lemma step_spec fragments diagnostics0 log0 st i h t :
  pass_invariant_ fragments diagnostics0 log0 st ->
  fragments !! i = Some h -> callbacks st !! i = Some t ->
  pass_invariant_ fragments diagnostics0 log0 (step_ fragments st i)
  /\ callbacks (step_ fragments st i) = <[i := advance_ t h]> (callbacks st).
Proof.
  intros [IT IC ID [entries IL]] F T.
  assert (Ok : callback_ok_ h t).
  { eapply Forall2_lookup_lr in IT; eauto. }
  assert (Keep : forall t', callback_ok_ h t' ->
            Forall2 callback_ok_ fragments (<[i := t']> (callbacks st))).
  { intros t' Ok'.
    rewrite <- (list_insert_id fragments i h F).
    now apply Forall2_insert. }
  pose proof (reported_insert fragments (callbacks st) i h t F T) as RI.
  unfold step. rewrite F. unfold callback_resume. rewrite T.
  destruct t as [|syntaxError|ok]; simpl in Ok.
  - simpl in RI. split; [|reflexivity]. constructor; simpl.
    + now apply Keep.
    + now rewrite RI.
    + exact ID.
    + rewrite IL, <- app_assoc. eauto.
  - subst syntaxError. rewrite actualError_of_syntax.
    simpl advance. simpl in RI. unfold diagnosticOf in RI.
    destruct (actualErrorOf_ h) as [e|] eqn:A.
    + simpl in RI. split; [|reflexivity]. constructor; simpl.
      * now apply Keep.
      * rewrite RI, IC. symmetry. apply Permutation_cons_append.
      * right. destruct ID as [-> | [pushed ->]]; [eauto|].
        rewrite insert_insert_eq. eauto.
      * rewrite IL, <- app_assoc. eauto.
    + simpl in RI. split; [|reflexivity]. constructor; simpl.
      * now apply Keep.
      * now rewrite RI.
      * exact ID.
      * rewrite IL, <- app_assoc. eauto.
  - split.
    + constructor; eauto.
    + simpl. symmetry. now apply list_insert_id.
Qed.

Lemma advance_rank t h : rank (advance_ t h) = Nat.min 2 (S (rank t)).
Proof. destruct t; reflexivity. Qed.

(** A schedule in which the callback of every fragment resumes twice
    brings every callback to its [return]. *)
Lemma schedule_spec fragments diagnostics0 log0 schedule : forall st,
  pass_invariant_ fragments diagnostics0 log0 st ->
  pass_invariant_ fragments diagnostics0 log0
    (fold_left (step_ fragments) schedule st)
  /\ Forall2
       (fun i t' =>
          exists t, callbacks st !! i = Some t
                    /\ (Nat.min 2 (rank t + count_occ Nat.eq_dec schedule i)
                        <= rank t')%nat)
       (seq 0 (length (callbacks st)))
       (callbacks (fold_left (step_ fragments) schedule st)).
Proof.
  induction schedule as [|i schedule IH]; intros st I.
  - simpl. split; [exact I|].
    apply Forall2_same_length_lookup. split; [now rewrite length_seq|].
    intros j k t' Hk Ht. apply lookup_seq in Hk as [-> _].
    exists t'. split; [exact Ht|]. destruct t'; simpl; lia.
  - simpl fold_left.
    assert (S1 : pass_invariant_ fragments diagnostics0 log0
                   (step_ fragments st i)
                 /\ exists ts',
                      callbacks (step_ fragments st i) = ts'
                      /\ length ts' = length (callbacks st)
                      /\ forall j t, callbacks st !! j = Some t ->
                           exists t1, ts' !! j = Some t1
                             /\ (Nat.min 2 (rank t + (if decide (i = j)
                                                      then 1 else 0))
                                 <= rank t1)%nat).
    { destruct (fragments !! i) as [h|] eqn:F.
      - assert (is_Some (callbacks st !! i)) as [t T].
        { apply lookup_lt_is_Some.
          rewrite <- (Forall2_length _ _ _ (inv_callbacks _ _ _ _ _ _ _ _ I)).
          now apply lookup_lt_Some in F. }
        destruct (step_spec _ _ _ _ _ _ _ I F T) as [I' E].
        split; [exact I'|]. eexists. split; [exact E|].
        split; [apply length_insert|].
        intros j t0 Hj. destruct (decide (i = j)) as [<-|Ne].
        + rewrite list_lookup_insert_eq by now apply lookup_lt_Some in T.
          eexists. split; [reflexivity|].
          rewrite advance_rank. assert (t0 = t) as -> by congruence. lia.
        + rewrite list_lookup_insert_ne by exact Ne.
          exists t0. split; [exact Hj|]. lia.
      - unfold step. rewrite F. split; [exact I|].
        eexists. split; [reflexivity|]. split; [reflexivity|].
        intros j t0 Hj. exists t0. split; [exact Hj|].
        destruct (decide (i = j)) as [<-|Ne]; [|lia].
        apply lookup_lt_Some in Hj. apply lookup_ge_None in F.
        rewrite <- (Forall2_length _ _ _ (inv_callbacks _ _ _ _ _ _ _ _ I)) in Hj. lia. }
    destruct S1 as (I' & ts' & E & L & Adv).
    destruct (IH _ I') as [I'' R]. split; [exact I''|].
    rewrite E, L in R.
    apply Forall2_same_length_lookup. split.
    { apply Forall2_length in R. exact R. }
    intros j k t' Hk Ht.
    pose proof (Forall2_lookup_lr _ _ _ _ _ _ R Hk Ht) as (t1 & T1 & Le).
    apply lookup_seq in Hk as [Ej Lt]. simpl in Ej. subst k.
    assert (is_Some (callbacks st !! j)) as [t T]
      by now apply lookup_lt_is_Some.
    destruct (Adv j t T) as (t1' & T1' & Le').
    assert (t1' = t1) as -> by congruence.
    exists t. split; [exact T|].
    destruct (Nat.eq_dec i j) as [->|Ne].
    + rewrite count_occ_cons_eq by reflexivity.
      rewrite decide_True in Le' by reflexivity. lia.
    + rewrite count_occ_cons_neq by exact Ne.
      rewrite decide_False in Le' by exact Ne. lia.
Qed.

Lemma started_spec fragments : forall st,
  callbacks (fold_left (callback_start document) fragments st)
  = callbacks st ++ map (fun _ => AwaitSyntax) fragments
  /\ diagnosticsCurrent (fold_left (callback_start document) fragments st)
     = diagnosticsCurrent st
  /\ diagnostics (fold_left (callback_start document) fragments st)
     = diagnostics st
  /\ exists entries,
       log (fold_left (callback_start document) fragments st)
       = log st ++ entries.
Proof.
  induction fragments as [|h fragments IH]; intros st.
  - simpl. rewrite app_nil_r. repeat split; auto. exists []. now rewrite app_nil_r.
  - simpl fold_left. destruct (IH (callback_start document st h))
      as (T & C & D & entries & L).
    rewrite T, C, D, L. simpl. rewrite <- !app_assoc. eauto.
Qed.

Lemma reported_waiting fragments :
  reported_ fragments (map (fun _ => AwaitSyntax) fragments) = [].
Proof. induction fragments; simpl; auto. Qed.

Lemma runValidation_complete schedule diagnostics0 log0 :
  snd (getHasqlContent document) = true ->
  (forall i, (i < length (fst (getHasqlContent document)))%nat ->
             (2 <= count_occ Nat.eq_dec schedule i)%nat) ->
  exists D entries,
    runValidation query typeCasts defaultValues document schedule
      diagnostics0 log0
    = Some (<[doc_uri document := D]> diagnostics0, log0 ++ entries)
    /\ D ≡ₚ omap diagnosticOf_ (fst (getHasqlContent document)).
Proof.
  intros W Fair. unfold runValidation. rewrite W. simpl negb. cbv iota.
  set (fragments := fst (getHasqlContent document)) in *.
  set (entered := mkPass [] diagnostics0 _ []).
  destruct (started_spec fragments entered)
    as (T & C & D & entries & L).
  set (started := fold_left (callback_start document) fragments entered) in *.
  assert (I : pass_invariant_ fragments diagnostics0 log0 started).
  { constructor.
    - rewrite T. simpl. clear. induction fragments; constructor; simpl; auto.
    - rewrite C, T. simpl. now rewrite reported_waiting.
    - left. now rewrite D.
    - rewrite L. simpl. rewrite <- app_assoc. eauto. }
  destruct (schedule_spec fragments diagnostics0 log0 schedule started I)
    as [[IT IC ID [entries' IL]] R].
  set (awaited := fold_left (step_ fragments) schedule started) in *.
  assert (LT : length (callbacks started) = length fragments).
  { rewrite T. simpl. now rewrite length_map. }
  assert (A : Forall (fun t => rank t = 2%nat) (callbacks awaited)).
  { apply Forall_lookup. intros j t' Ht.
    assert (Lj : (j < length (callbacks started))%nat).
    { pose proof (Forall2_length _ _ _ R) as LR. rewrite length_seq in LR.
      pose proof (lookup_lt_Some _ _ _ Ht). lia. }
    assert (Hk : seq 0 (length (callbacks started)) !! j = Some j).
    { rewrite lookup_seq. split; [reflexivity|exact Lj]. }
    pose proof (Forall2_lookup_lr _ _ _ _ _ _ R Hk Ht) as (t & _ & Le).
    specialize (Fair j ltac:(lia)).
    assert (2 <= rank t')%nat by lia.
    destruct t'; simpl in *; try lia; reflexivity. }
  assert (M : is_Some (mapM returned (callbacks awaited))).
  { apply mapM_is_Some. eapply Forall_impl; [exact A|].
    intros [] Hr; simpl in *; try discriminate; eauto. }
  destruct M as [results M]. rewrite M. simpl.
  exists (diagnosticsCurrent awaited).
  rewrite IL. eexists. split.
  - f_equal. f_equal; [|now rewrite <- app_assoc].
    destruct ID as [-> | [pushed ->]]; [reflexivity|].
    apply insert_insert_eq.
  - rewrite IC. rewrite reported_all_returned; auto.
    rewrite <- (Forall2_length _ _ _ IT). reflexivity.
Qed.

End ValidationPassProperties.

Lemma prefix_occurs needle : forall s,
  String.prefix needle s = true -> exists behind, s = needle +:+ behind.
Proof.
  induction needle as [|c needle IH]; intros s H.
  - now exists s.
  - destruct s as [|d s]; simpl in H; [discriminate|].
    destruct (ascii_dec c d) as [->|Ne]; [|discriminate].
    destruct (IH s H) as [behind ->]. now exists behind.
Qed.

Lemma indexOf_occurs needle s :
  indexOf needle s <> -1 -> occursIn needle s.
Proof.
  unfold occursIn. induction s as [|c r IH].
  - unfold indexOf. rewrite indexOfFrom_nil.
    destruct (String.prefix needle "") eqn:P; [|contradiction].
    intros _. destruct (prefix_occurs _ _ P) as [behind E].
    now exists "", behind.
  - rewrite indexOf_cons.
    destruct (String.prefix needle (String c r)) eqn:P.
    + intros _. destruct (prefix_occurs _ _ P) as [behind E].
      now exists "", behind.
    + destruct (Z.eqb_spec (indexOf needle r) (-1)) as [E|Ne];
        [contradiction|].
      intros _. destruct (IH Ne) as (before & behind & ->).
      now exists (String c before), behind.
Qed.

Lemma scan_lines_gaps ls : forall st i,
  closed st ->
  Forall (fun l => ~ occursIn HASKELL_HASQL l) ls ->
  scan_lines st i ls = st.
Proof.
  induction ls as [|l ls IH]; intros st i C A; [reflexivity|].
  inversion A as [|? ? Hl A']; subst. simpl.
  rewrite scan_line_gap; auto.
  apply hasToken_false.
  destruct (Z.eq_dec (indexOf HASKELL_HASQL l) (-1)) as [E|Ne]; [exact E|].
  now apply indexOf_occurs in Ne.
Qed.

(** A pass over a document that extraction reports as not well formed. *)
Lemma runValidation_not_well_formed
  (query : string -> list jsval -> option DatabaseError)
  (typeCasts : gmap Z (gmap N string)) (defaultValues : gmap Z (gmap N jsval))
  (document : TextDocument) (schedule : list nat)
  (diagnostics0 : gmap string (list Diagnostic)) (log0 : list log_line) :
  snd (getHasqlContent document) = false ->
  runValidation query typeCasts defaultValues document schedule
    diagnostics0 log0
  = Some (diagnostics0, log0 ++ [LogFailedToParse]).
Proof. intros W. unfold runValidation. now rewrite W. Qed.

(** C6.  When extraction reports a document as not well formed, the pass
    returns at once: the diagnostic collection is the one it found, whatever
    the database would answer, and the only effect is the line written to
    the output channel. *)
Theorem unparseable_document_keeps_diagnostics :
  forall (query : string -> list jsval -> option DatabaseError)
         (typeCasts : gmap Z (gmap N string))
         (defaultValues : gmap Z (gmap N jsval))
         (document : TextDocument) (schedule : list nat)
         (diagnostics0 : gmap string (list Diagnostic))
         (log0 : list log_line),
    snd (getHasqlContent document) = false ->
    runValidation query typeCasts defaultValues document schedule
      diagnostics0 log0
    = Some (diagnostics0, log0 ++ [LogFailedToParse]).
Proof.
  intros query typeCasts defaultValues document schedule diagnostics0 log0 W.
  now apply runValidation_not_well_formed.
Qed.

Lemma unparseable_document_keeps_diagnostics_witness :
  runValidation (fun _ _ => None) ∅ ∅
    (mkTextDocument "file:///Statements.hs" "Statements.hs" NL
       ["one = [hasql| select 1 |]"; "two = [hasql|"; "  select"])
    [0; 1; 0; 1]%nat
    {[ "file:///Statements.hs" :=
         [mkDiagnostic (mkRange (mkPosition 1 13) (mkPosition 3 0))
            "Query cyrb53 hash: 1"] ]}
    []
  = Some ({[ "file:///Statements.hs" :=
               [mkDiagnostic (mkRange (mkPosition 1 13) (mkPosition 3 0))
                  "Query cyrb53 hash: 1"] ]},
          [LogFailedToParse]).
Proof.
  apply (unparseable_document_keeps_diagnostics (fun _ _ => None) ∅ ∅).
  reflexivity.
Defined.

(** C10.  In a document on no line of which the start delimiter occurs,
    extraction returns no span and the flag false; so a pass over such a
    document returns at once and leaves the diagnostic collection as it
    found it. *)
Theorem document_without_fragment_is_reported_unparseable :
  forall document : TextDocument,
    Forall (fun l => ~ occursIn HASKELL_HASQL l) (doc_lines document) ->
    getHasqlContent document = ([], false)
    /\ forall (query : string -> list jsval -> option DatabaseError)
              (typeCasts : gmap Z (gmap N string))
              (defaultValues : gmap Z (gmap N jsval))
              (schedule : list nat)
              (diagnostics0 : gmap string (list Diagnostic))
              (log0 : list log_line),
         runValidation query typeCasts defaultValues document schedule
           diagnostics0 log0
         = Some (diagnostics0, log0 ++ [LogFailedToParse]).
Proof.
  intros document A.
  assert (G : getHasqlContent document = ([], false)).
  { unfold getHasqlContent.
    now rewrite (scan_lines_gaps _ scan_init 0 closed_scan_init A). }
  split; [exact G|]. intros.
  apply runValidation_not_well_formed. now rewrite G.
Qed.

Lemma no_occurrence_by_indexOf needle s :
  indexOf needle s = -1 -> ~ occursIn needle s.
Proof.
  intros E (before & behind & ->). revert E.
  induction before as [|c before IH]; simpl.
  - unfold indexOf.
    assert (P : String.prefix needle (needle +:+ behind) = true).
    { clear. induction needle as [|c needle IH]; simpl.
      - now destruct behind.
      - destruct (ascii_dec c c); [exact IH|contradiction]. }
    destruct needle as [|a needle]; simpl append in *.
    + destruct behind; simpl; discriminate.
    + rewrite indexOfFrom_cons, P. discriminate.
  - rewrite indexOf_cons.
    destruct (String.prefix _ _); [discriminate|].
    destruct (Z.eqb_spec (indexOf needle (before +:+ needle +:+ behind)) (-1))
      as [E|Ne]; [auto|].
    pose proof (indexOf_range needle (before +:+ needle +:+ behind)). lia.
Qed.

Lemma document_without_fragment_is_reported_unparseable_witness :
  getHasqlContent
    (mkTextDocument "file:///Main.hs" "Main.hs" NL
       ["module Main where"; "main = pure ()"])
  = ([], false).
Proof.
  apply (document_without_fragment_is_reported_unparseable
           (mkTextDocument "file:///Main.hs" "Main.hs" NL
              ["module Main where"; "main = pure ()"])).
  repeat constructor; apply no_occurrence_by_indexOf; reflexivity.
Defined.

Lemma reported_count query typeCasts defaultValues document fragments :
  length (omap (diagnosticOf query typeCasts defaultValues document) fragments)
  = length
      (filter
         (fun h =>
            is_Some (actualErrorOf query typeCasts defaultValues document h))
         fragments).
Proof.
  induction fragments as [|h fragments IH]; [reflexivity|].
  rewrite filter_cons.
  change (omap (diagnosticOf query typeCasts defaultValues document)
            (h :: fragments))
    with (match diagnosticOf query typeCasts defaultValues document h with
          | Some d =>
              d :: omap (diagnosticOf query typeCasts defaultValues document)
                     fragments
          | None =>
              omap (diagnosticOf query typeCasts defaultValues document)
                fragments
          end).
  unfold diagnosticOf at 1.
  destruct (actualErrorOf query typeCasts defaultValues document h) as [e|].
  - rewrite decide_True by eauto. simpl length. now rewrite IH.
  - rewrite decide_False by (intros [? ?]; discriminate). exact IH.
Qed.

Lemma diagnosticMessage_parts hash e :
  diagnosticMessage hash e
  = "Query cyrb53 hash: " +:+ numberToString hash
    +:+ match err_message e with
        | EmptyString => EmptyString
        | message => NL +:+ message
        end
    +:+ match err_hint e with
        | Some (String c hint) => NL +:+ String c hint
        | _ => EmptyString
        end.
Proof.
  unfold diagnosticMessage.
  rewrite filter_cons, decide_True by discriminate.
  rewrite filter_cons.
  destruct (err_message e) as [|a m], (err_hint e) as [[|c hint]|];
    repeat first [ rewrite decide_True by discriminate
                 | rewrite decide_False by (intros N; now apply N)
                 | rewrite filter_cons
                 | rewrite filter_nil ];
    simpl join; rewrite ?append_nil_r, ?append_assoc; reflexivity.
Qed.



(* ===================================================================== *)
(** * Part IV: further properties                                        *)
(* ===================================================================== *)

(** ** The extractor on arbitrary documents *)

Lemma new_Range_ordered a b c d :
  isBeforeOrEqual (range_start (new_Range a b c d))
                  (range_end (new_Range a b c d)) = true.
Proof.
  unfold new_Range, isBefore, isBeforeOrEqual. simpl.
  destruct (Z.ltb_spec a c), (Z.eqb_spec a c), (Z.ltb_spec b d); simpl;
    repeat match goal with
           | |- context [?x <? ?y] => destruct (Z.ltb_spec x y)
           | |- context [?x =? ?y] => destruct (Z.eqb_spec x y)
           | |- context [?x <=? ?y] => destruct (Z.leb_spec x y)
           end; simpl; try reflexivity; lia.
Qed.

Lemma new_Range_same_line i b d :
  pos_line (range_start (new_Range i b i d)) = i
  /\ pos_line (range_end (new_Range i b i d)) = i.
Proof. unfold new_Range. destruct (isBefore _ _); simpl; auto. Qed.

Lemma new_Range_lt a b c d :
  a < c -> new_Range a b c d = mkRange (mkPosition a b) (mkPosition c d).
Proof.
  intros Lt. unfold new_Range, isBefore. simpl.
  destruct (Z.ltb_spec a c); [reflexivity|lia].
Qed.

Lemma scan_line_both st i l :
  closed st ->
  hasToken HASKELL_HASQL l = true ->
  hasToken HASKELL_HASQL_END l = true ->
  closed (scan_line st i l)
  /\ sqlStringBound (scan_line st i l) = Some EmptyString
  /\ result (scan_line st i l)
     = result st
       ++ [new_Range i (indexOf HASKELL_HASQL l + strlen HASKELL_HASQL)
             i (indexOf HASKELL_HASQL_END l)].
Proof.
  intros [C1 C2] H E. apply hasToken_true in H. apply hasToken_true in E.
  unfold scan_line, scan_open. rewrite C1. simpl.
  destruct (Z.eqb_spec (indexOf HASKELL_HASQL l) (-1)) as [?|_]; [contradiction|].
  simpl. unfold scan_close. simpl.
  destruct (Z.eqb_spec (indexOf HASKELL_HASQL_END l) (-1)) as [?|_];
    [contradiction|].
  simpl. unfold closed. simpl. auto.
Qed.

Lemma spans_in_order_snoc spans r :
  spans_in_order spans ->
  Forall (fun x => pos_line (range_end x) < pos_line (range_start r)) spans ->
  isBeforeOrEqual (range_start r) (range_end r) = true ->
  spans_in_order (spans ++ [r]).
Proof.
  induction spans as [|x spans IH]; intros O A B; simpl.
  - auto.
  - inversion A as [|? ? Hx A']; subst.
    destruct O as (Bx & N & O). split; [exact Bx|]. split.
    + destruct spans as [|y spans']; simpl; [exact Hx|exact N].
    + apply IH; auto.
Qed.

Lemma scan_invariant_step ls n st l :
  scan_invariant ls n st -> ls !! n = Some l ->
  scan_invariant ls (S n) (scan_line st (Z.of_nat n) l).
Proof.
  intros (Sp & Or & Cases) Hl.
  destruct Cases as [(C & Bd & Hnone & Hsome)
                    |(i0 & opener & Lt & Ho & Hs & Op & NoEnd & Bd)].
  - destruct (hasToken HASKELL_HASQL l) eqn:S.
    + destruct (hasToken HASKELL_HASQL_END l) eqn:E.
      * destruct (scan_line_both st (Z.of_nat n) l C S E) as (C' & B' & R').
        pose proof (new_Range_same_line (Z.of_nat n)
                      (indexOf HASKELL_HASQL l + strlen HASKELL_HASQL)
                      (indexOf HASKELL_HASQL_END l)) as [L1 L2].
        unfold scan_invariant. rewrite R'. split; [|split].
        -- apply Forall_app. split; [exact Sp|]. constructor; [|constructor].
           exists n, n, l, l. repeat split; auto. intros k l' Hk. lia.
        -- apply spans_in_order_snoc; auto using new_Range_ordered.
           rewrite L1. exact Bd.
        -- left. split; [exact C'|]. split.
           ++ apply Forall_app. split.
              ** eapply Forall_impl; [exact Bd|]. simpl. intros. lia.
              ** constructor; [|constructor]. rewrite L2. lia.
           ++ rewrite B'. split; [discriminate|]. intros _.
              destruct (result st); discriminate.
      * destruct (scan_line_first st (Z.of_nat n) l C ltac:(lia) S E)
          as (O' & R').
        unfold scan_invariant. rewrite R'. split; [exact Sp|].
        split; [exact Or|]. right. exists n, l.
        repeat split; auto; try apply O'.
        intros k l' Hk Hl'. assert (k = n) as -> by lia. congruence.
    + rewrite (scan_line_gap st (Z.of_nat n) l C S).
      split; [exact Sp|]. split; [exact Or|]. left. split; [exact C|].
      split; [|split].
      * eapply Forall_impl; [exact Bd|]. simpl. intros. lia.
      * intros Hn. destruct (Hnone Hn) as [Re Al]. split; [exact Re|].
        intros k l' Hk Hl'. destruct (decide (k = n)) as [->|Ne].
        -- congruence.
        -- apply (Al k l'); [lia|exact Hl'].
      * exact Hsome.
  - destruct (hasToken HASKELL_HASQL_END l) eqn:E.
    + destruct (scan_line_last st (Z.of_nat n) l _ _ Op ltac:(lia) E)
        as (C' & B' & R').
      rewrite <- (new_Range_lt (Z.of_nat i0) _ (Z.of_nat n)) in R' by lia.
      unfold scan_invariant. rewrite R'. split; [|split].
      * apply Forall_app. split; [exact Sp|]. constructor; [|constructor].
        exists i0, n, opener, l. repeat split; auto. lia.
      * apply spans_in_order_snoc; auto using new_Range_ordered.
        rewrite new_Range_lt by lia. exact Bd.
      * left. split; [exact C'|]. split.
        -- apply Forall_app. split.
           ++ eapply Forall_impl; [exact Bd|]. simpl. intros. lia.
           ++ constructor; [|constructor]. rewrite new_Range_lt by lia.
              simpl. lia.
        -- rewrite B'. split; [discriminate|]. intros _.
           destruct (result st); discriminate.
    + rewrite (scan_line_middle st (Z.of_nat n) l _ _ Op E).
      split; [exact Sp|]. split; [exact Or|]. right. exists i0, opener.
      repeat split; auto; try apply Op; try lia.
      intros k l' Hk Hl'. destruct (decide (k = n)) as [->|Ne].
      * congruence.
      * apply (NoEnd k l'); [lia|exact Hl'].
Qed.

Lemma scan_invariant_lines rest : forall ls pre st,
  ls = pre ++ rest ->
  scan_invariant ls (length pre) st ->
  scan_invariant ls (length ls)
    (scan_lines st (Z.of_nat (length pre)) rest).
Proof.
  induction rest as [|l rest IH]; intros ls pre st E I.
  - simpl. subst ls. rewrite app_nil_r in *. exact I.
  - simpl scan_lines.
    assert (Hl : ls !! length pre = Some l).
    { subst ls. rewrite lookup_app_r by lia. now rewrite Nat.sub_diag. }
    pose proof (scan_invariant_step ls (length pre) st l I Hl) as I'.
    specialize (IH ls (pre ++ [l]) (scan_line st (Z.of_nat (length pre)) l)).
    rewrite length_app in IH. simpl length in IH.
    replace (Z.of_nat (length pre + 1)) with (Z.of_nat (length pre) + 1)
      in IH by lia.
    apply IH.
    + subst ls. now rewrite <- app_assoc.
    + now rewrite Nat.add_1_r.
Qed.

Lemma scan_invariant_init ls : scan_invariant ls 0 scan_init.
Proof.
  split; [constructor|]. split; [exact I|]. left.
  split; [apply closed_scan_init|]. split; [constructor|]. split.
  - intros _. split; [reflexivity|]. intros k l Hk. lia.
  - discriminate.
Qed.

Lemma scan_invariant_document ls :
  scan_invariant ls (length ls) (scan_lines scan_init 0 ls).
Proof.
  apply (scan_invariant_lines ls ls [] scan_init eq_refl
           (scan_invariant_init ls)).
Qed.

Lemma getHasqlContent_result doc :
  fst (getHasqlContent doc) = result (scan_lines scan_init 0 (doc_lines doc)).
Proof.
  unfold getHasqlContent.
  destruct (sqlStringBound _) as [[|? ?]|]; reflexivity.
Qed.

Lemma getHasqlContent_flag doc :
  snd (getHasqlContent doc) = true
  <-> sqlStringBound (scan_lines scan_init 0 (doc_lines doc))
      = Some EmptyString.
Proof.
  unfold getHasqlContent.
  destruct (sqlStringBound _) as [[|? ?]|]; simpl; split;
    try discriminate; reflexivity.
Qed.


Lemma span_of_lines_start ls r :
  span_of_lines ls r ->
  0 <= pos_line (range_start r)
  /\ pos_line (range_start r) <= pos_line (range_end r).
Proof.
  intros (i & j & opener & closer & Le & _ & _ & _ & _ & _ & ->).
  destruct (decide (i = j)) as [->|Ne].
  - destruct (new_Range_same_line (Z.of_nat j)
                (indexOf HASKELL_HASQL opener + strlen HASKELL_HASQL)
                (indexOf HASKELL_HASQL_END closer)) as [-> ->]. lia.
  - rewrite new_Range_lt by lia. simpl. lia.
Qed.

Lemma spans_in_order_count spans : forall a b,
  spans_in_order spans ->
  Forall (fun r => pos_line (range_start r) <= pos_line (range_end r)) spans ->
  match spans with
  | [] => True
  | r :: _ => a <= pos_line (range_start r)
  end ->
  Forall (fun r => pos_line (range_end r) < b) spans ->
  spans = [] \/ Z.of_nat (length spans) <= b - a.
Proof.
  induction spans as [|r spans IH]; intros a b O W A B; [now left|].
  right. inversion W as [|? ? Wr W']; subst.
  inversion B as [|? ? Br B']; subst.
  destruct O as (_ & N & O).
  destruct spans as [|r' spans'].
  - simpl. lia.
  - destruct (IH (pos_line (range_end r) + 1) b O W') as [E|L].
    + simpl in N. lia.
    + exact B'.
    + discriminate.
    + simpl length in *. lia.
Qed.

Lemma span_of_lines_positions ls r :
  span_of_lines ls r -> fragment_span ls r.
Proof.
  intros (i & j & opener & closer & Le & Ho & Hc & Hs & He & N & ->).
  exists i, j, opener, closer. repeat (split; [assumption|]).
  cbv zeta. cbn [pos_character]. unfold new_Range, isBefore. simpl.
  destruct (Nat.ltb_spec i j) as [Lt|Ge].
  - destruct (Z.ltb_spec (Z.of_nat i) (Z.of_nat j)); [reflexivity|lia].
  - assert (i = j) as -> by lia.
    now rewrite Z.ltb_irrefl, Z.eqb_refl.
Qed.

(** X1.  Whatever the document, every span [getHasqlContent] returns is
    the range the editor makes of two positions of a fragment: the
    position behind the first start token of a line, and the position of
    the first end token of the same or a later line, no line from the
    opening one up to the closing one (excluded) holding an end token.
    The span runs from the first position to the second, except when both
    tokens stand on one line and the end token comes first: then it runs
    from the end token to behind the start token. *)
Theorem extracted_spans_are_fragments (doc : TextDocument) :
  Forall (fragment_span (doc_lines doc)) (fst (getHasqlContent doc)).
Proof.
  rewrite getHasqlContent_result.
  eapply Forall_impl;
    [apply (scan_invariant_document (doc_lines doc))|].
  apply span_of_lines_positions.
Qed.

Lemma extracted_spans_are_fragments_witness :
  Forall (fragment_span ["a |] b [hasql| select 1 |]"])
    [mkRange (mkPosition 0 2) (mkPosition 0 14)].
Proof.
  apply (extracted_spans_are_fragments
           (mkTextDocument "file:///Statements.hs" "Statements.hs" NL
              ["a |] b [hasql| select 1 |]"])).
Defined.

(** X2.  Whatever the document, the spans come in document order: each
    one starts at or before its end and ends on a line strictly above
    the line the next one starts on; all of them lie on lines of the
    document, so there are no more spans than lines. *)
Theorem extracted_spans_are_ordered_within_document (doc : TextDocument) :
  spans_in_order (fst (getHasqlContent doc))
  /\ Forall (fun r =>
               0 <= pos_line (range_start r)
               /\ pos_line (range_start r) <= pos_line (range_end r)
               /\ pos_line (range_end r) < Z.of_nat (length (doc_lines doc)))
            (fst (getHasqlContent doc))
  /\ (length (fst (getHasqlContent doc)) <= length (doc_lines doc))%nat.
Proof.
  rewrite getHasqlContent_result.
  destruct (scan_invariant_document (doc_lines doc)) as (Sp & Or & Cases).
  set (st := scan_lines scan_init 0 (doc_lines doc)) in *.
  assert (Bd : Forall (fun r => pos_line (range_end r)
                                < Z.of_nat (length (doc_lines doc)))
                 (result st)).
  { destruct Cases as [(_ & Bd & _)|(i0 & ? & Lt & _ & _ & _ & _ & Bd)].
    - exact Bd.
    - eapply Forall_impl; [exact Bd|]. simpl. intros. lia. }
  assert (St : Forall (fun r => 0 <= pos_line (range_start r)
                                /\ pos_line (range_start r)
                                   <= pos_line (range_end r)) (result st)).
  { eapply Forall_impl; [exact Sp|]. apply span_of_lines_start. }
  split; [exact Or|]. split.
  - rewrite Forall_forall in *. intros r Hr.
    destruct (St r Hr). specialize (Bd r Hr). simpl in Bd. auto.
  - destruct (spans_in_order_count (result st) 0
                (Z.of_nat (length (doc_lines doc))) Or) as [E|L].
    + eapply Forall_impl; [exact St|]. simpl. tauto.
    + destruct (result st) as [|r ?]; [exact I|].
      inversion St as [|? ? [H0 _] _]. exact H0.
    + exact Bd.
    + rewrite E. simpl. lia.
    + lia.
Qed.

Lemma lookup_split (ls : list string) i l :
  ls !! i = Some l -> ls = take i ls ++ l :: drop (S i) ls.
Proof.
  intros H. rewrite <- (take_drop_middle ls i l H) at 1. reflexivity.
Qed.

Lemma scan_lines_no_start ls : forall st i,
  closed st ->
  Forall (fun l => hasToken HASKELL_HASQL l = false) ls ->
  scan_lines st i ls = st.
Proof.
  induction ls as [|l ls IH]; intros st i C A; [reflexivity|].
  inversion A; subst. simpl. rewrite scan_line_gap by assumption.
  now apply IH.
Qed.

Lemma no_end_behind (ls : list string) i0 opener :
  ls !! i0 = Some opener ->
  (forall k l, (i0 <= k < length ls)%nat -> ls !! k = Some l ->
               hasToken HASKELL_HASQL_END l = false) ->
  forallb (fun l => negb (hasToken HASKELL_HASQL_END l))
          (opener :: drop (S i0) ls) = true.
Proof.
  intros Ho NoEnd. apply forallb_forall. intros l Hl.
  apply negb_true_iff. apply list_elem_of_In in Hl.
  apply elem_of_cons in Hl as [->|Hl].
  - apply (NoEnd i0 opener); [|exact Ho].
    apply lookup_lt_Some in Ho. lia.
  - apply list_elem_of_lookup_1 in Hl as [k Hk].
    rewrite lookup_drop in Hk.
    apply (NoEnd (S i0 + k)%nat l); [|exact Hk].
    apply lookup_lt_Some in Hk. lia.
Qed.

Lemma scan_invariant_shape ls n st :
  scan_invariant ls n st -> closed st \/ exists i0 c0, opened st i0 c0.
Proof.
  intros (_ & _ & [(C & _)|(i0 & opener & _ & _ & _ & O & _)]); eauto.
Qed.

(** X3.  The document is reported as not well formed exactly when it
    holds no start token at all, or when some line holds a start token
    and neither that line nor any later one holds an end token; and a
    well-formed document yields one span at least. *)
Theorem well_formed_flag_characterised (doc : TextDocument) :
  (snd (getHasqlContent doc) = false
   <-> Forall (fun l => hasToken HASKELL_HASQL l = false) (doc_lines doc)
       \/ exists pre opener behind,
            doc_lines doc = pre ++ opener :: behind
            /\ unterminated opener behind = true)
  /\ (snd (getHasqlContent doc) = true -> fst (getHasqlContent doc) <> []).
Proof.
  pose proof (getHasqlContent_flag doc) as Flag.
  rewrite getHasqlContent_result.
  assert (NotEmpty : sqlStringBound (scan_lines scan_init 0 (doc_lines doc))
                     <> Some EmptyString ->
                     snd (getHasqlContent doc) = false).
  { intros N. destruct (snd (getHasqlContent doc)); [|reflexivity].
    destruct N. now apply Flag. }
  pose proof (scan_invariant_document (doc_lines doc)) as (Sp & Or & Cases).
  split; [split|].
  - intros F.
    assert (N' : sqlStringBound (scan_lines scan_init 0 (doc_lines doc))
                 <> Some EmptyString).
    { intros E. apply Flag in E. congruence. }
    destruct Cases as [([_ [N|E]] & _ & Hnone & _)
                      |(i0 & opener & Lt & Ho & Hs & Op & NoEnd & _)].
    + left. apply Forall_forall. intros l Hl.
      apply list_elem_of_lookup_1 in Hl as [k Hk].
      apply (proj2 (Hnone N) k l); [|exact Hk].
      now apply lookup_lt_Some in Hk.
    + contradiction.
    + right. exists (take i0 (doc_lines doc)), opener,
        (drop (S i0) (doc_lines doc)).
      split; [now apply lookup_split|].
      unfold unterminated. rewrite Hs. simpl andb.
      now apply no_end_behind.
  - intros [A|(pre & opener & behind & E & U)]; apply NotEmpty.
    + rewrite (scan_lines_no_start _ _ _ closed_scan_init A). discriminate.
    + rewrite E, scan_lines_app.
      unfold unterminated in U. apply andb_prop in U as [S A].
      pose proof A as A'.
      simpl in A. apply andb_prop in A as [NE A]. apply negb_true_iff in NE.
      destruct (scan_invariant_shape _ _ _ (scan_invariant_document pre))
        as [C|(i0 & c0 & O)].
      * simpl scan_lines.
        destruct (scan_line_first _ (0 + Z.of_nat (length pre)) opener C
                    ltac:(lia) S NE) as (O & _).
        rewrite (scan_lines_middle behind _ _ _ _ O A).
        destruct O as (_ & _ & _ & ->). discriminate.
      * rewrite (scan_lines_middle (opener :: behind) _ _ _ _ O A').
        destruct O as (_ & _ & _ & ->). discriminate.
  - intros T. apply Flag in T.
    destruct Cases as [(_ & _ & _ & Hsome)
                      |(i0 & opener & _ & _ & _ & (_ & _ & _ & B) & _)].
    + now apply Hsome.
    + rewrite B in T. discriminate.
Qed.

Lemma scan_line_extends st i l :
  result st `prefix_of` result (scan_line st i l).
Proof.
  unfold scan_line, scan_close, scan_open.
  repeat match goal with
         | |- context [if ?b then _ else _] => destruct b
         | |- context [match ?o with Some _ => _ | None => _ end] =>
             destruct o
         end; simpl; try reflexivity; try (now apply prefix_app_r).
Qed.

Lemma scan_lines_extends ls : forall st i,
  result st `prefix_of` result (scan_lines st i ls).
Proof.
  induction ls as [|l ls IH]; intros st i; simpl; [reflexivity|].
  etransitivity; [apply scan_line_extends|apply IH].
Qed.

(** X4.  Lines appended to a document change none of the spans found so
    far: the spans of the shorter document are the first spans of the
    longer one. *)
Theorem extraction_is_stable_under_appended_lines
  (doc : TextDocument) (more : list string) :
  fst (getHasqlContent doc)
  `prefix_of`
  fst (getHasqlContent
         (mkTextDocument (doc_uri doc) (doc_relativePath doc) (doc_eol doc)
            (doc_lines doc ++ more))).
Proof.
  rewrite !getHasqlContent_result. simpl doc_lines.
  rewrite scan_lines_app. apply scan_lines_extends.
Qed.


(** ** The statements the checks send *)

Lemma trimEnd_white ws : allChars isWhiteSpace ws = true -> trimEnd ws = "".
Proof.
  induction ws as [|c r IH]; simpl; [reflexivity|].
  destruct (isWhiteSpace c) eqn:W; simpl; [|discriminate].
  intros A. now rewrite IH.
Qed.

Lemma trimEnd_append_white s ws :
  allChars isWhiteSpace ws = true -> trimEnd (s +:+ ws) = trimEnd s.
Proof.
  intros A. induction s as [|c r IH].
  - simpl. now apply trimEnd_white.
  - simpl. now rewrite IH.
Qed.

Lemma lastChar_append s t :
  t <> "" -> lastChar (s +:+ t) = lastChar t.
Proof.
  intros N. induction s as [|c r IH]; [reflexivity|].
  simpl. destruct (r +:+ t) as [|d u] eqn:E; [|exact IH].
  destruct r; simpl in E; [contradiction|discriminate].
Qed.

Lemma lastChar_normalizeEnding v : lastChar (normalizeEnding v) = Some ";"%char.
Proof.
  rewrite normalizeEnding_cases.
  destruct (lastChar (trimEnd v)) as [c|] eqn:L.
  - destruct (Ascii.eqb_spec c ";") as [->|_]; [exact L|].
    apply lastChar_append_char.
  - apply lastChar_append_char.
Qed.

Lemma trimEnd_ended s :
  lastChar s = Some ";"%char -> trimEnd s = s.
Proof.
  intros L. apply trimEnd_fixed. intros c E. rewrite L in E.
  now injection E as <-.
Qed.

Lemma trimEnd_body_line s :
  lastChar s = Some ";"%char -> trimEnd (s +:+ NL) = s.
Proof.
  intros L. rewrite trimEnd_append_white by reflexivity.
  now apply trimEnd_ended.
Qed.

(** X5.  [normalizeEnding] is idempotent, and blind to white space at the
    end of its argument: a text it has produced comes back unchanged, and
    white space appended to a text does not change the result. *)
Theorem normalizeEnding_idempotent_and_blind_to_trailing_white_space
  (v : string) :
  normalizeEnding (normalizeEnding v) = normalizeEnding v
  /\ forall ws, allChars isWhiteSpace ws = true ->
                normalizeEnding (v +:+ ws) = normalizeEnding v.
Proof.
  split.
  - pose proof (lastChar_normalizeEnding v) as L.
    rewrite (normalizeEnding_cases (normalizeEnding v)).
    rewrite (trimEnd_ended _ L), L. reflexivity.
  - intros ws W. unfold normalizeEnding.
    now rewrite (trimEnd_append_white v ws W).
Qed.

Lemma normalizeEnding_idempotent_and_blind_to_trailing_white_space_witness :
  normalizeEnding ("select 1" +:+ "  " +:+ NL) = normalizeEnding "select 1".
Proof.
  apply (proj2 (normalizeEnding_idempotent_and_blind_to_trailing_white_space
                  "select 1") ("  " +:+ NL)).
  reflexivity.
Defined.

Lemma explain_statement (v : string) :
  fst (wrapExpressionInExplainCheck v) = "EXPLAIN" +:+ NL +:+ normalizeEnding v.
Proof.
  pose proof (lastChar_normalizeEnding v) as L.
  unfold wrapExpressionInExplainCheck. cbn [fst]. unfold trim.
  replace (NL +:+ "EXPLAIN" +:+ NL +:+ normalizeEnding v +:+ NL)
    with ((NL +:+ "EXPLAIN" +:+ NL +:+ normalizeEnding v) +:+ NL)
    by (now rewrite !append_assoc).
  rewrite trimEnd_body_line; [reflexivity|].
  rewrite <- !append_assoc.
  destruct (normalizeEnding v); [discriminate|].
  now rewrite lastChar_append.
Qed.

(** X6.  The statements of the two checks, for every fragment text: the
    syntax check sends the normalized text between the opening and the
    closing line of an anonymous block that returns at once, the explain
    check sends it below a line [EXPLAIN]; neither statement has white
    space around it, and the line offset reported with them is 2 for a
    text that holds a line feed and 1 otherwise. *)
Theorem check_statements_shape (v : string) :
  wrapExpressionInSyntaxCheck v
  = ("DO $SYNTAX_CHECK$ BEGIN RETURN;" +:+ NL +:+ normalizeEnding v +:+ NL
     +:+ "END; $SYNTAX_CHECK$;",
     mkPosition (if includes NL v then 2 else 1) 0)
  /\ wrapExpressionInExplainCheck v
     = ("EXPLAIN" +:+ NL +:+ normalizeEnding v,
        mkPosition (if includes NL v then 2 else 1) 0).
Proof.
  assert (P : mkPosition (1 + (if includes NL v then 1 else 0)) 0
              = mkPosition (if includes NL v then 2 else 1) 0)
    by (destruct (includes NL v); reflexivity).
  pose proof (lastChar_normalizeEnding v) as L.
  split.
  - unfold wrapExpressionInSyntaxCheck. rewrite P. f_equal.
    unfold trim.
    replace ("DO $SYNTAX_CHECK$ BEGIN RETURN;" +:+ NL +:+ normalizeEnding v
             +:+ NL +:+ "END; $SYNTAX_CHECK$;" +:+ NL)
      with (("DO $SYNTAX_CHECK$ BEGIN RETURN;" +:+ NL +:+ normalizeEnding v
             +:+ NL +:+ "END; $SYNTAX_CHECK$;") +:+ NL)
      by (now rewrite !append_assoc).
    rewrite trimEnd_body_line; [reflexivity|].
    rewrite <- !append_assoc. now apply lastChar_append.
  - rewrite <- (explain_statement v), <- P. reflexivity.
Qed.

(** X7.  The statement of the prepare check, for every fragment text and
    every list of type names: all prepared statements are dropped, then
    the normalized text is prepared under the name [q], followed by the
    type names in parentheses, separated by a comma and a space, when
    there is one at least. *)
Theorem prepare_statement_shape (v : string) (types : list string) :
  PrepareGeneration.wrapExpressionInPrepareCheck v types
  = ("DEALLOCATE ALL; PREPARE "
     +:+ match types with
         | [] => "q"
         | _ => "q(" +:+ join ", " types +:+ ")"
         end
     +:+ " AS" +:+ NL +:+ normalizeEnding v,
     mkPosition (if includes NL v then 2 else 1) 0).
Proof.
  assert (P : mkPosition (1 + (if includes NL v then 1 else 0)) 0
              = mkPosition (if includes NL v then 2 else 1) 0)
    by (destruct (includes NL v); reflexivity).
  pose proof (lastChar_normalizeEnding v) as L.
  unfold PrepareGeneration.wrapExpressionInPrepareCheck. rewrite P. f_equal.
  assert (T : (if (length types =? 0)%nat then "q"
               else "q(" +:+ join ", " types +:+ ")")
              = match types with
                | [] => "q"
                | _ => "q(" +:+ join ", " types +:+ ")"
                end) by (destruct types; reflexivity).
  rewrite T. set (name := match types with [] => "q" | _ => _ end).
  unfold trim.
  replace (NL +:+ "DEALLOCATE ALL; PREPARE " +:+ name +:+ " AS" +:+ NL
           +:+ normalizeEnding v +:+ NL)
    with ((NL +:+ "DEALLOCATE ALL; PREPARE " +:+ name +:+ " AS" +:+ NL
           +:+ normalizeEnding v) +:+ NL)
    by (now rewrite !append_assoc).
  rewrite trimEnd_body_line; [reflexivity|].
  rewrite <- !append_assoc.
  destruct (normalizeEnding v); [discriminate|].
  now rewrite lastChar_append.
Qed.


(** ** Overrides and the slots of a statement *)

Lemma objectKeys_length {A} (o : gmap N A) :
  length (objectKeys o) = size o.
Proof.
  unfold objectKeys.
  rewrite (Permutation_length (merge_sort_Permutation N.le _)).
  rewrite length_fmap. apply length_map_to_list.
Qed.

Lemma objectKeys_some {A} (o1 o2 : gmap N A) :
  (o1 = ∅ <-> o2 = ∅) ->
  (0 <? length (objectKeys o1))%nat = (0 <? length (objectKeys o2))%nat.
Proof.
  intros E. rewrite !objectKeys_length.
  destruct (decide (o1 = ∅)) as [E1|N1].
  - rewrite E1, (proj1 E E1). reflexivity.
  - assert (N2 : o2 <> ∅) by (intros E2; apply N1, E, E2).
    apply map_size_non_empty_iff in N1, N2.
    destruct (Nat.ltb_spec 0 (size o1)), (Nat.ltb_spec 0 (size o2));
      try reflexivity; lia.
Qed.




Lemma imap_keeps {A} (f : nat -> A -> A) (l : list A) :
  (forall i x, f i x = x) -> imap f l = l.
Proof.
  intros H. apply list_eq. intros i. rewrite list_lookup_imap.
  destruct (l !! i); simpl; [now rewrite H|reflexivity].
Qed.

(** X9.  A fragment without overrides: the explain check sends the plain
    statement, the normalized text below a line [EXPLAIN], and binds
    [null] to every slot; the prepare check declares every slot as
    [unknown]. *)
Theorem checks_without_overrides (expression : string) :
  explainActualQuery ∅ expression
  = "EXPLAIN" +:+ NL +:+ normalizeEnding expression
  /\ explainParameterValues ∅ expression
     = replicate (parameters expression) JNull
  /\ PrepareGeneration.prepareParameterValues ∅ expression
     = replicate (parameters expression) "unknown".
Proof.
  split; [|split].
  - unfold explainActualQuery.
    change (objectKeys (∅ : gmap N string)) with (@nil N).
    apply explain_statement.
  - unfold explainParameterValues. apply imap_keeps.
    intros i x. now rewrite lookup_empty.
  - unfold PrepareGeneration.prepareParameterValues. apply imap_keeps.
    intros i x. now rewrite lookup_empty.
Qed.

(** ** Type annotations as split and join *)

Lemma string_of_uint_digits (d : Decimal.uint) :
  allChars isDigit (NilEmpty.string_of_uint d) = true.
Proof. induction d; simpl; auto. Qed.

Lemma numberToString_digits (k : N) :
  allChars isDigit (numberToString (Z.of_N k)) = true.
Proof.
  unfold numberToString.
  destruct (Z.to_int (Z.of_N k)) as [d|d] eqn:E.
  - unfold NilZero.string_of_int, NilZero.string_of_uint.
    destruct d; try reflexivity; apply string_of_uint_digits.
  - destruct k as [|p]; discriminate.
Qed.

Lemma allChars_append p s t :
  allChars p (s +:+ t) = allChars p s && allChars p t.
Proof.
  induction s as [|c r IH]; simpl; [reflexivity|].
  rewrite IH. now rewrite andb_assoc.
Qed.

Lemma prefix_append pat behind : String.prefix pat (pat +:+ behind) = true.
Proof.
  induction pat as [|c pat IH]; simpl.
  - now destruct behind.
  - destruct (ascii_dec c c); [exact IH|contradiction].
Qed.

Lemma append_eq_append u : forall pat X behind,
  u +:+ X = pat +:+ behind ->
  (exists w, u = pat +:+ w)
  \/ (exists w, pat = u +:+ w /\ X = w +:+ behind).
Proof.
  induction u as [|c u IH]; intros pat X behind E.
  - right. exists pat. auto.
  - destruct pat as [|d pat].
    + left. now exists (String c u).
    + simpl in E. injection E as -> E.
      destruct (IH pat X behind E) as [[w ->]|[w [-> ->]]].
      * left. now exists w.
      * right. now exists w.
Qed.

Lemma occursIn_tail token c r : occursIn token r -> occursIn token (String c r).
Proof. intros (b & a & ->). now exists (String c b), a. Qed.

(** A scan that stands in front of a piece holding no occurrence finds
    no match before the end of the piece. *)
Lemma no_match_inside_piece ds c u R :
  allChars isDigit ds = true ->
  ~ occursIn (String "$" ds) (String c u) ->
  String.prefix (String "$" ds) (String c u +:+ String "$" ds +:+ R) = false.
Proof.
  intros D N.
  destruct (String.prefix _ _) eqn:P; [|reflexivity].
  destruct (prefix_occurs _ _ P) as [behind E].
  destruct (append_eq_append _ _ _ _ E) as [[w Ew]|[w [Ep Ex]]].
  - destruct N. exists "", w. exact Ew.
  - simpl in Ep. injection Ep as <- Ep.
    destruct w as [|e w].
    + destruct N. exists "", "". simpl. rewrite Ep.
      now rewrite !append_nil_r.
    + simpl in Ex. injection Ex as <- _.
      rewrite Ep, allChars_append in D. simpl in D.
      rewrite andb_false_r in D. discriminate.
Qed.

Section SplitAndJoin.

Variables (ds template whole out : string).

Hypothesis digits : allChars isDigit ds = true.

Hypothesis expansion :
  forall before after, getSubstitution (String "$" ds) before after template = out.

Local Abbreviation pat := (String "$" ds).

Lemma replaceFrom_skip x : forall pos rest,
  replaceFrom pat template whole pos (String.length x) (x +:+ rest)
  = replaceFrom pat template whole (pos + String.length x) 0 rest.
Proof.
  induction x as [|c x IH]; intros pos rest.
  - simpl String.length. now rewrite Nat.add_0_r.
  - simpl. rewrite IH. f_equal. lia.
Qed.

Lemma replaceFrom_unfold c r pos :
  replaceFrom pat template whole pos 0 (String c r)
  = if String.prefix pat (String c r)
    then getSubstitution pat (takeChars pos whole)
           (dropChars (pos + String.length pat) whole) template
         +:+ replaceFrom pat template whole (S pos)
               (String.length pat - 1) r
    else String c (replaceFrom pat template whole (S pos) 0 r).
Proof. reflexivity. Qed.

Lemma replaceFrom_last u : forall pos,
  ~ occursIn pat u -> replaceFrom pat template whole pos 0 u = u.
Proof.
  induction u as [|c u IH]; intros pos N; [reflexivity|].
  rewrite replaceFrom_unfold.
  destruct (String.prefix pat (String c u)) eqn:P.
  - destruct N. destruct (prefix_occurs _ _ P) as [behind E].
    now exists "", behind.
  - rewrite IH; [reflexivity|]. intros O. apply N. now apply occursIn_tail.
Qed.

Lemma replaceFrom_piece u : forall pos R,
  ~ occursIn pat u ->
  exists pos',
    replaceFrom pat template whole pos 0 (u +:+ pat +:+ R)
    = u +:+ out +:+ replaceFrom pat template whole pos' 0 R.
Proof.
  induction u as [|c u IH]; intros pos R N.
  - change ("" +:+ pat +:+ R) with (String "$" (ds +:+ R)).
    rewrite replaceFrom_unfold.
    change (String "$" (ds +:+ R)) with (pat +:+ R).
    rewrite prefix_append, expansion.
    replace (String.length pat - 1)%nat with (String.length ds)
      by (simpl; lia).
    rewrite replaceFrom_skip. eauto.
  - change (String c u +:+ pat +:+ R) with (String c (u +:+ pat +:+ R)).
    rewrite replaceFrom_unfold.
    change (String c (u +:+ pat +:+ R)) with (String c u +:+ pat +:+ R).
    rewrite (no_match_inside_piece ds c u R digits N).
    destruct (IH (S pos) R) as [pos' ->].
    + intros O. apply N. now apply occursIn_tail.
    + eauto.
Qed.

Lemma replaceFrom_join pieces : forall pos,
  Forall (fun p => ~ occursIn pat p) pieces ->
  replaceFrom pat template whole pos 0 (join pat pieces) = join out pieces.
Proof.
  induction pieces as [|p pieces IH]; intros pos A; [reflexivity|].
  inversion A as [|? ? Np A']; subst.
  destruct pieces as [|q pieces].
  - simpl. now apply replaceFrom_last.
  - change (join pat (p :: q :: pieces))
      with (p +:+ pat +:+ join pat (q :: pieces)).
    change (join out (p :: q :: pieces))
      with (p +:+ out +:+ join out (q :: pieces)).
    destruct (replaceFrom_piece p pos (join pat (q :: pieces)) Np)
      as [pos' ->].
    now rewrite IH.
Qed.

End SplitAndJoin.

Lemma getSubstitution_plain matched before after template :
  allChars (fun c => negb (Ascii.eqb c "$")) template = true ->
  getSubstitution matched before after template = template.
Proof.
  induction template as [|c r IH]; intros A; [reflexivity|].
  simpl in A. apply andb_prop in A as [C A].
  destruct (Ascii.eqb_spec c "$") as [->|Ne]; [discriminate|].
  specialize (IH A).
  revert Ne. each_character c; intros Ne; try contradiction;
    simpl; rewrite IH; reflexivity.
Qed.

Lemma isDigit_not_dollar ds :
  allChars isDigit ds = true ->
  allChars (fun c => negb (Ascii.eqb c "$")) ds = true.
Proof.
  induction ds as [|c r IH]; simpl; [reflexivity|].
  intros A. apply andb_prop in A as [C A]. rewrite IH by exact A.
  revert C. each_character c; intros C; try discriminate; reflexivity.
Qed.

Lemma getSubstitution_annotation matched before after shown ty :
  allChars isDigit shown = true ->
  allChars (fun c => negb (Ascii.eqb c "$")) ty = true ->
  getSubstitution matched before after ("$" +:+ shown +:+ "::" +:+ ty)
  = "$" +:+ shown +:+ "::" +:+ ty.
Proof.
  intros D T.
  assert (P : allChars (fun c => negb (Ascii.eqb c "$"))
                (shown +:+ "::" +:+ ty) = true).
  { rewrite allChars_append, (isDigit_not_dollar _ D). simpl. exact T. }
  change ("$" +:+ shown +:+ "::" +:+ ty)
    with (String "$" (shown +:+ "::" +:+ ty)).
  pose proof (getSubstitution_plain matched before after _ P) as G.
  destruct shown as [|d shown'].
  - simpl. simpl in G. now rewrite G.
  - simpl in D. apply andb_prop in D as [Dd _].
    simpl append in *.
    revert Dd G. each_character d; intros Dd G; try discriminate;
      simpl; simpl in G; rewrite G; reflexivity.
Qed.

(** X10.  One step of the type annotation is a split and a join, for a
    position below 2^53 (which [parseInt] reads exactly and the template
    prints digit by digit): when the statement is cut at every occurrence
    of the text [$k] (the pieces hold no further occurrence), the
    annotated statement is the same pieces joined by [$k::type], provided
    the type name holds no dollar sign.  In particular a statement in
    which [$k] does not occur stays as it is. *)
Theorem type_annotation_is_split_and_join
  (predefinedTypes : gmap N string) (position : N) (type : string)
  (pieces : list string) :
  (position < 2 ^ 53)%N ->
  predefinedTypes !! position = Some type ->
  allChars (fun c => negb (Ascii.eqb c "$")) type = true ->
  Forall (fun p => ~ occursIn ("$" +:+ numberToString (Z.of_N position)) p)
         pieces ->
  annotateType predefinedTypes
    (join ("$" +:+ numberToString (Z.of_N position)) pieces) position
  = join ("$" +:+ numberToString (Z.of_N position) +:+ "::" +:+ type) pieces.
Proof.
  intros _ L T A. unfold annotateType, replaceAllLiteral. rewrite L.
  simpl default.
  apply (replaceFrom_join (numberToString (Z.of_N position))).
  - apply numberToString_digits.
  - intros before after. apply getSubstitution_annotation; [|exact T].
    apply numberToString_digits.
  - exact A.
Qed.

Lemma type_annotation_is_split_and_join_witness :
  annotateType {[ 1%N := "int4" ]} "select $1, $2 where a = $1" 1%N
  = "select $1::int4, $2 where a = $1::int4".
Proof.
  apply (type_annotation_is_split_and_join {[ 1%N := "int4" ]} 1%N "int4"
           ["select "; ", $2 where a = "; ""]).
  - reflexivity.
  - vm_compute. reflexivity.
  - reflexivity.
  - repeat constructor; apply no_occurrence_by_indexOf; reflexivity.
Defined.

(** ** The output channel during a pass *)

Section ValidationLogProperties.

Variable query : string -> list jsval -> option DatabaseError.
Variable typeCasts : gmap Z (gmap N string).
Variable defaultValues : gmap Z (gmap N jsval).
Variable document : TextDocument.

Local Abbreviation step' := (step query typeCasts defaultValues document).
Local Abbreviation advance' :=
  (advance query typeCasts defaultValues document).
Local Abbreviation pass_invariant' :=
  (pass_invariant query typeCasts defaultValues document).
Local Abbreviation written' := (written typeCasts defaultValues document).
Local Abbreviation writes' := (writes typeCasts defaultValues document).
Local Abbreviation writtenAll' :=
  (writtenAll typeCasts defaultValues document).
Local Abbreviation fragmentLog' :=
  (fragmentLog typeCasts defaultValues document).
Local Abbreviation verdict' :=
  (verdict query typeCasts defaultValues document).
Local Abbreviation result_ok' :=
  (result_ok query typeCasts defaultValues document).
Local Abbreviation log_invariant' :=
  (log_invariant query typeCasts defaultValues document).

Lemma step_log fragments st i h t :
  fragments !! i = Some h -> callbacks st !! i = Some t ->
  log (step' fragments st i) = log st ++ writes' h t.
Proof.
  intros F T. unfold step. rewrite F. unfold callback_resume. rewrite T.
  destruct t as [|syntaxError|ok]; simpl.
  - reflexivity.
  - destruct (match syntaxError with Some e => Some e | None => _ end);
      reflexivity.
  - now rewrite app_nil_r.
Qed.

Lemma written_advance h t :
  written' h (advance' t h) = written' h t ++ writes' h t.
Proof.
  destruct t; unfold written; simpl;
    rewrite <- ?app_assoc, ?app_nil_r; reflexivity.
Qed.

Lemma writtenAll_insert fragments : forall ts i h t,
  fragments !! i = Some h -> ts !! i = Some t ->
  writtenAll' fragments (<[i := advance' t h]> ts)
  ≡ₚ writtenAll' fragments ts ++ writes' h t.
Proof.
  induction fragments as [|h0 fragments IH]; intros ts i h t F T;
    [discriminate|].
  destruct ts as [|t0 ts]; [discriminate|].
  destruct i as [|i]; simpl in F, T.
  - injection F as ->. injection T as ->.
    change (writtenAll' (h :: fragments) (<[0%nat := advance' t h]> (t :: ts)))
      with (written' h (advance' t h) ++ writtenAll' fragments ts).
    change (writtenAll' (h :: fragments) (t :: ts))
      with (written' h t ++ writtenAll' fragments ts).
    rewrite written_advance, <- !app_assoc.
    apply Permutation_app_head, Permutation_app_comm.
  - change (writtenAll' (h0 :: fragments)
              (<[S i := advance' t h]> (t0 :: ts)))
      with (written' h0 t0
            ++ writtenAll' fragments (<[i := advance' t h]> ts)).
    change (writtenAll' (h0 :: fragments) (t0 :: ts))
      with (written' h0 t0 ++ writtenAll' fragments ts).
    rewrite (IH ts i h t F T). now rewrite app_assoc.
Qed.

Lemma log_invariant_step fragments diagnostics0 log0 header st i :
  pass_invariant' fragments diagnostics0 log0 st ->
  log_invariant' fragments header st ->
  log_invariant' fragments header (step' fragments st i).
Proof.
  intros I (R & entries & L & P & S).
  destruct (fragments !! i) as [h|] eqn:F;
    [|unfold step; rewrite F; split; eauto].
  assert (is_Some (callbacks st !! i)) as [t T].
  { apply lookup_lt_is_Some. rewrite <- (Forall2_length _ _ _ R).
    now apply lookup_lt_Some in F. }
  destruct (step_spec query typeCasts defaultValues document
              _ _ _ _ _ _ _ I F T) as [_ E].
  split.
  - rewrite E, <- (list_insert_id fragments i h F).
    apply Forall2_insert; [exact R|].
    destruct t; simpl; auto.
    eapply Forall2_lookup_lr in R; eauto. exact R.
  - exists (entries ++ writes' h t). split; [|split].
    + rewrite (step_log _ _ _ _ _ F T), L. now rewrite app_assoc.
    + rewrite E, writtenAll_insert by eauto. now rewrite P.
    + intros j h' t' F' T'. rewrite E in T'.
      destruct (decide (i = j)) as [<-|Ne].
      * rewrite list_lookup_insert_eq in T'
          by now apply lookup_lt_Some in T.
        injection T' as <-. assert (h' = h) as -> by congruence.
        rewrite written_advance. apply sublist_app; [|reflexivity].
        now apply (S i).
      * rewrite list_lookup_insert_ne in T' by exact Ne.
        apply sublist_inserts_r. now apply (S j).
Qed.

Lemma log_invariant_schedule fragments diagnostics0 log0 header schedule :
  forall st,
    pass_invariant' fragments diagnostics0 log0 st ->
    log_invariant' fragments header st ->
    log_invariant' fragments header (fold_left (step' fragments) schedule st).
Proof.
  induction schedule as [|i schedule IH]; intros st I J; [exact J|].
  simpl fold_left. apply IH.
  - destruct (fragments !! i) as [h|] eqn:F.
    + assert (is_Some (callbacks st !! i)) as [t T].
      { apply lookup_lt_is_Some.
        rewrite <- (Forall2_length _ _ _ (proj1 J)).
        now apply lookup_lt_Some in F. }
      apply (step_spec query typeCasts defaultValues document
               _ _ _ _ _ _ _ I F T).
    + unfold step. now rewrite F.
  - eapply log_invariant_step; eauto.
Qed.

Lemma started_log fragments : forall st,
  log (fold_left (callback_start document) fragments st)
  = log st ++ concat (map (syntaxLines document) fragments).
Proof.
  induction fragments as [|h fragments IH]; intros st.
  - simpl. now rewrite app_nil_r.
  - simpl fold_left. rewrite IH. simpl. now rewrite <- app_assoc.
Qed.

Lemma writtenAll_waiting fragments :
  writtenAll' fragments (map (fun _ => AwaitSyntax) fragments)
  = concat (map (syntaxLines document) fragments).
Proof.
  induction fragments as [|h fragments IH]; [reflexivity|].
  change (writtenAll' (h :: fragments)
            (map (fun _ => AwaitSyntax) (h :: fragments)))
    with (written' h AwaitSyntax
          ++ writtenAll' fragments (map (fun _ => AwaitSyntax) fragments)).
  rewrite IH. unfold written. now rewrite app_nil_r.
Qed.

Lemma writtenAll_returned fragments : forall ts,
  length ts = length fragments ->
  Forall (fun t => rank t = 2%nat) ts ->
  writtenAll' fragments ts = concat (map fragmentLog' fragments).
Proof.
  induction fragments as [|h fragments IH]; intros [|t ts] L A;
    try discriminate; [reflexivity|].
  inversion A as [|? ? R A']; subst. simpl in L.
  simpl. rewrite (IH ts) by (auto; lia).
  destruct t; try discriminate. reflexivity.
Qed.

Lemma sublist_concat_lookup {A} (ls : list (list A)) i l :
  ls !! i = Some l -> sublist l (concat ls).
Proof.
  revert i. induction ls as [|l0 ls IH]; intros i H; [discriminate|].
  destruct i as [|i]; simpl in *.
  - injection H as ->. apply sublist_inserts_r. reflexivity.
  - apply sublist_inserts_l. eauto.
Qed.

Lemma results_of_returned fragments : forall ts results,
  Forall2 result_ok' fragments ts ->
  mapM returned ts = Some results ->
  results = map verdict' fragments.
Proof.
  induction fragments as [|h fragments IH]; intros ts results R M.
  - inversion R; subst. simpl in M. now injection M as <-.
  - inversion R as [|? t ? ts' Ok R']; subst.
    rewrite mapM_Some in M. inversion M as [|? ok ? results' Hr M'']; subst.
    destruct t; try discriminate. simpl in Hr. injection Hr as <-.
    simpl in Ok. subst. simpl. f_equal.
    apply (IH ts'); [exact R'|]. now apply mapM_Some.
Qed.

Lemma passed_count fragments :
  length (filter (fun v => v = true) (map verdict' fragments))
  = length (filter (fun h => verdict' h = true) fragments).
Proof.
  induction fragments as [|h fragments IH]; [reflexivity|].
  simpl map. rewrite !filter_cons.
  destruct (verdict' h) eqn:V.
  - rewrite !decide_True by reflexivity. simpl. now rewrite IH.
  - rewrite !decide_False by discriminate. exact IH.
Qed.

Lemma runValidation_log schedule diagnostics0 log0 :
  snd (getHasqlContent document) = true ->
  (forall i, (i < length (fst (getHasqlContent document)))%nat ->
             (2 <= count_occ Nat.eq_dec schedule i)%nat) ->
  exists D entries,
    runValidation query typeCasts defaultValues document schedule
      diagnostics0 log0
    = Some (D,
            log0
            ++ LogDetected (length (fst (getHasqlContent document)))
                 (doc_uri document)
               :: entries
            ++ [LogSummary
                  (length (filter (fun h => verdict' h = true)
                             (fst (getHasqlContent document))))
                  (length (fst (getHasqlContent document)))])
    /\ entries ≡ₚ concat (map fragmentLog' (fst (getHasqlContent document)))
    /\ forall h, h ∈ fst (getHasqlContent document) ->
                 sublist (fragmentLog' h) entries.
Proof.
  intros W Fair. unfold runValidation. rewrite W. simpl negb. cbv iota.
  set (fragments := fst (getHasqlContent document)) in *.
  set (header := log0 ++ [LogDetected (length fragments) (doc_uri document)]).
  set (entered := mkPass [] diagnostics0 header []).
  destruct (started_spec document fragments entered)
    as (T & C & D & entries0 & L0).
  pose proof (started_log fragments entered) as L.
  set (started := fold_left (callback_start document) fragments entered) in *.
  simpl in T, L.
  assert (I : pass_invariant' fragments diagnostics0 log0 started).
  { constructor.
    - rewrite T. clear. induction fragments; constructor; simpl; auto.
    - rewrite C, T. simpl.
      now rewrite (reported_waiting query typeCasts defaultValues document).
    - left. now rewrite D.
    - rewrite L. unfold header. rewrite <- app_assoc. eauto. }
  assert (J : log_invariant' fragments header started).
  { split.
    - rewrite T. clear. induction fragments; constructor; simpl; auto.
    - exists (concat (map (syntaxLines document) fragments)).
      split; [exact L|]. split.
      + now rewrite T, writtenAll_waiting.
      + intros i h t F Ht. rewrite T in Ht.
        rewrite list_lookup_fmap, F in Ht. injection Ht as <-.
        unfold written. rewrite app_nil_r.
        apply (sublist_concat_lookup _ i).
        now rewrite list_lookup_fmap, F. }
  destruct (schedule_spec query typeCasts defaultValues document
              fragments diagnostics0 log0 schedule started I)
    as [[IT _ _ _] R].
  pose proof (log_invariant_schedule fragments diagnostics0 log0 header
                schedule started I J) as (Res & entries & EL & EP & ES).
  set (awaited := fold_left (step' fragments) schedule started) in *.
  assert (LT : length (callbacks started) = length fragments).
  { rewrite T. now rewrite length_map. }
  assert (A : Forall (fun t => rank t = 2%nat) (callbacks awaited)).
  { apply Forall_lookup. intros j t' Ht.
    assert (Lj : (j < length (callbacks started))%nat).
    { pose proof (Forall2_length _ _ _ R) as LR. rewrite length_seq in LR.
      pose proof (lookup_lt_Some _ _ _ Ht). lia. }
    assert (Hk : seq 0 (length (callbacks started)) !! j = Some j).
    { rewrite lookup_seq. split; [reflexivity|exact Lj]. }
    pose proof (Forall2_lookup_lr _ _ _ _ _ _ R Hk Ht) as (t & _ & Le).
    specialize (Fair j ltac:(lia)).
    assert (2 <= rank t')%nat by lia.
    destruct t'; simpl in *; try lia; reflexivity. }
  assert (M : is_Some (mapM returned (callbacks awaited))).
  { apply mapM_is_Some. eapply Forall_impl; [exact A|].
    intros [] Hr; simpl in *; try discriminate; eauto. }
  destruct M as [results M]. rewrite M. simpl.
  rewrite (results_of_returned _ _ _ Res M).
  rewrite passed_count, length_map.
  eexists. exists entries. split; [|split].
  - f_equal. f_equal. rewrite EL. unfold header.
    now rewrite <- !app_assoc.
  - rewrite EP. rewrite writtenAll_returned; [reflexivity| |exact A].
    now rewrite <- (Forall2_length _ _ _ IT).
  - intros h Hh. apply list_elem_of_lookup_1 in Hh as [i F].
    assert (is_Some (callbacks awaited !! i)) as [t Ht].
    { apply lookup_lt_is_Some. rewrite <- (Forall2_length _ _ _ IT).
      now apply lookup_lt_Some in F. }
    specialize (ES i h t F Ht).
    pose proof (Forall_lookup_1 _ _ _ _ A Ht) as Rk.
    destruct t; try discriminate. exact ES.
Qed.

End ValidationLogProperties.




(** ** The validation pass of the prepare-only generation *)

Section PrepareValidationProperties.

Import PrepareValidation.

Variable query : string -> list jsval -> option DatabaseError.
Variable typeCasts : gmap Z (gmap N string).
Variable document : TextDocument.

Local Abbreviation pstep := (prepare_step query typeCasts document).
Local Abbreviation preported := (prepareReported query typeCasts document).
Local Abbreviation pdiagnosticOf :=
  (prepareDiagnosticOf query typeCasts document).
Local Abbreviation pinvariant := (prepare_invariant query typeCasts document).

Lemma prepareReported_cons h fragments t ts :
  preported (h :: fragments) (t :: ts)
  = match t with
    | PrepareReturned _ => option_list (pdiagnosticOf h)
    | AwaitPrepare => []
    end ++ preported fragments ts.
Proof. reflexivity. Qed.

Lemma prepareReported_insert fragments : forall ts i h ok,
  fragments !! i = Some h -> ts !! i = Some AwaitPrepare ->
  preported fragments (<[i := PrepareReturned ok]> ts)
  ≡ₚ option_list (pdiagnosticOf h) ++ preported fragments ts.
Proof.
  induction fragments as [|h0 fragments IH]; intros ts i h ok F T;
    [discriminate|].
  destruct ts as [|t0 ts]; [discriminate|].
  destruct i as [|i]; simpl in F, T.
  - injection F as ->. injection T as ->.
    change (<[0%nat := PrepareReturned ok]> (AwaitPrepare :: ts))
      with (PrepareReturned ok :: ts).
    rewrite !prepareReported_cons. reflexivity.
  - change (<[S i := PrepareReturned ok]> (t0 :: ts))
      with (t0 :: <[i := PrepareReturned ok]> ts).
    rewrite !prepareReported_cons, (IH ts i h ok F T).
    rewrite !app_assoc. apply Permutation_app_tail, Permutation_app_comm.
Qed.

Lemma prepare_step_spec fragments diagnostics0 log0 st i :
  pinvariant fragments diagnostics0 log0 st ->
  pinvariant fragments diagnostics0 log0 (pstep fragments st i)
  /\ forall j t,
       prepareCallbacks st !! j = Some t ->
       exists t',
         prepareCallbacks (pstep fragments st i) !! j = Some t'
         /\ (prepare_returned t' = None -> t = AwaitPrepare /\ i <> j).
Proof.
  intros (IL & IC & ID & entries & IE).
  assert (Same : forall j t,
            prepareCallbacks st !! j = Some t ->
            (t = AwaitPrepare -> i <> j) ->
            exists t', prepareCallbacks st !! j = Some t'
              /\ (prepare_returned t' = None -> t = AwaitPrepare /\ i <> j)).
  { intros j t Hj Ne. exists t. split; [exact Hj|].
    destruct t; [auto|discriminate]. }
  unfold prepare_step.
  destruct (fragments !! i) as [h|] eqn:F.
  2:{ split; [repeat split; eauto|].
      intros j t Hj. apply (Same j t Hj). intros _ <-.
      apply lookup_ge_None in F. apply lookup_lt_Some in Hj. lia. }
  unfold prepare_resume.
  destruct (prepareCallbacks st !! i) as [[|ok]|] eqn:T.
  3:{ apply lookup_ge_None in T. apply lookup_lt_Some in F. lia. }
  2:{ split; [repeat split; eauto|].
      intros j t Hj. apply (Same j t Hj). intros -> <-. congruence. }
  pose proof (prepareReported_insert fragments _ i h true F T) as RT.
  pose proof (prepareReported_insert fragments _ i h false F T) as RF.
  unfold prepareDiagnosticOf in RT, RF.
  assert (Adv : forall ok j t,
            prepareCallbacks st !! j = Some t ->
            exists t',
              <[i := PrepareReturned ok]> (prepareCallbacks st) !! j = Some t'
              /\ (prepare_returned t' = None -> t = AwaitPrepare /\ i <> j)).
  { intros ok j t Hj. destruct (decide (i = j)) as [<-|Ne].
    - rewrite list_lookup_insert_eq by now apply lookup_lt_Some in T.
      eexists. split; [reflexivity|]. discriminate.
    - rewrite list_lookup_insert_ne by exact Ne.
      exists t. split; [exact Hj|]. destruct t; [auto|discriminate]. }
  destruct (runPrepareCheck query _ _) as [e|] eqn:A.
  - split; [|apply Adv]. repeat split; simpl.
    + now rewrite length_insert.
    + rewrite RF, IC. simpl. symmetry. apply Permutation_cons_append.
    + right. destruct ID as [-> | [pushed ->]]; [eauto|].
      rewrite insert_insert_eq. eauto.
    + rewrite IE, <- app_assoc. eauto.
  - split; [|apply Adv]. repeat split; simpl.
    + now rewrite length_insert.
    + now rewrite RT.
    + exact ID.
    + rewrite IE, <- app_assoc. eauto.
Qed.

Lemma prepare_schedule_spec fragments diagnostics0 log0 schedule : forall st,
  pinvariant fragments diagnostics0 log0 st ->
  pinvariant fragments diagnostics0 log0
    (fold_left (pstep fragments) schedule st)
  /\ forall j t,
       prepareCallbacks st !! j = Some t ->
       exists t',
         prepareCallbacks (fold_left (pstep fragments) schedule st) !! j
         = Some t'
         /\ (prepare_returned t' = None ->
             t = AwaitPrepare /\ j ∉ schedule).
Proof.
  induction schedule as [|i schedule IH]; intros st I.
  - split; [exact I|]. intros j t Hj. exists t. split; [exact Hj|].
    intros N. split; [|apply not_elem_of_nil].
    destruct t; [reflexivity|discriminate].
  - simpl fold_left.
    destruct (prepare_step_spec _ _ _ _ i I) as [I' S].
    destruct (IH _ I') as [I'' R]. split; [exact I''|].
    intros j t Hj. destruct (S j t Hj) as (t1 & H1 & N1).
    destruct (R j t1 H1) as (t2 & H2 & N2).
    exists t2. split; [exact H2|]. intros N.
    destruct (N2 N) as [-> Nj]. destruct (N1 eq_refl) as [-> Ne].
    split; [reflexivity|]. rewrite not_elem_of_cons. split; auto.
Qed.

Lemma prepare_started_spec fragments : forall st,
  prepareCallbacks (fold_left (prepare_start typeCasts document) fragments st)
  = prepareCallbacks st ++ map (fun _ => AwaitPrepare) fragments
  /\ prepareDiagnosticsCurrent
       (fold_left (prepare_start typeCasts document) fragments st)
     = prepareDiagnosticsCurrent st
  /\ prepareDiagnostics
       (fold_left (prepare_start typeCasts document) fragments st)
     = prepareDiagnostics st
  /\ exists entries,
       prepareLog (fold_left (prepare_start typeCasts document) fragments st)
       = prepareLog st ++ entries.
Proof.
  induction fragments as [|h fragments IH]; intros st.
  - simpl. rewrite app_nil_r. repeat split; auto.
    exists []. now rewrite app_nil_r.
  - simpl fold_left.
    destruct (IH (prepare_start typeCasts document st h))
      as (T & C & D & entries & L).
    rewrite T, C, D, L. simpl. rewrite <- !app_assoc. eauto.
Qed.

Lemma prepareReported_waiting fragments :
  preported fragments (map (fun _ => AwaitPrepare) fragments) = [].
Proof. induction fragments; simpl; auto. Qed.

Lemma prepareReported_all_returned fragments : forall ts,
  length ts = length fragments ->
  Forall (fun t => prepare_returned t <> None) ts ->
  preported fragments ts = omap pdiagnosticOf fragments.
Proof.
  induction fragments as [|h fragments IH]; intros [|t ts] L A;
    try discriminate; [reflexivity|].
  inversion A as [|? ? R A']; subst. simpl in L.
  rewrite prepareReported_cons, (IH ts) by (auto; lia).
  destruct t; [now destruct R|].
  simpl. destruct (pdiagnosticOf h); reflexivity.
Qed.

Lemma prepare_runValidation_complete schedule diagnostics0 log0 :
  snd (getHasqlContent document) = true ->
  (forall i, (i < length (fst (getHasqlContent document)))%nat ->
             i ∈ schedule) ->
  exists D entries,
    runValidation query typeCasts document schedule diagnostics0 log0
    = Some (<[doc_uri document := D]> diagnostics0, log0 ++ entries)
    /\ D ≡ₚ omap pdiagnosticOf (fst (getHasqlContent document)).
Proof.
  intros W Fair. unfold runValidation. rewrite W. simpl negb. cbv iota.
  set (fragments := fst (getHasqlContent document)) in *.
  set (entered := mkPreparePass [] diagnostics0 _ []).
  destruct (prepare_started_spec fragments entered)
    as (T & C & D & entries & L).
  set (started := fold_left (prepare_start typeCasts document)
                    fragments entered) in *.
  simpl in T, C, D, L.
  assert (I : pinvariant fragments diagnostics0 log0 started).
  { repeat split.
    - rewrite T. now rewrite length_map.
    - rewrite C, T. now rewrite prepareReported_waiting.
    - left. exact D.
    - rewrite L, <- app_assoc. eauto. }
  destruct (prepare_schedule_spec fragments diagnostics0 log0 schedule
              started I) as [(IL & IC & ID & entries' & IE) R].
  set (awaited := fold_left (pstep fragments) schedule started) in *.
  assert (A : Forall (fun t => prepare_returned t <> None)
                (prepareCallbacks awaited)).
  { apply Forall_lookup. intros j t' Ht N.
    assert (Lj : (j < length fragments)%nat).
    { rewrite <- IL. now apply lookup_lt_Some in Ht. }
    assert (is_Some (prepareCallbacks started !! j)) as [t Hj].
    { apply lookup_lt_is_Some. rewrite T, length_map. exact Lj. }
    destruct (R j t Hj) as (t2 & H2 & N2).
    assert (t2 = t') as -> by congruence.
    destruct (N2 N) as [_ Nj]. apply Nj, Fair, Lj. }
  assert (M : is_Some (mapM prepare_returned (prepareCallbacks awaited))).
  { apply mapM_is_Some. eapply Forall_impl; [exact A|].
    intros [] Hr; simpl in *; [now destruct Hr|eauto]. }
  destruct M as [results M]. rewrite M.
  exists (prepareDiagnosticsCurrent awaited).
  rewrite IE. eexists. split.
  - f_equal. f_equal; [|now rewrite <- app_assoc].
    destruct ID as [-> | [pushed ->]]; [reflexivity|].
    apply insert_insert_eq.
  - rewrite IC. now rewrite prepareReported_all_returned.
Qed.

End PrepareValidationProperties.

(** X12.  The pass of the prepare-only generation over a well-formed
    document, every callback getting its answer: the diagnostics of the
    document are replaced by one diagnostic per fragment whose prepare
    statement the database rejected, anchored at the fragment; a fragment
    that prepares gets none, and the diagnostics of other documents stay.
    The message of a diagnostic is the line with the identity of the
    fragment, followed by the error message and by the hint, each on a
    line of its own and each left out when it is empty or missing. *)
Theorem prepare_pass_replaces_diagnostics :
  forall (query : string -> list jsval -> option DatabaseError)
         (typeCasts : gmap Z (gmap N string))
         (document : TextDocument) (schedule : list nat)
         (diagnostics0 : gmap string (list Diagnostic))
         (log0 : list log_line),
    snd (getHasqlContent document) = true ->
    (forall i, (i < length (fst (getHasqlContent document)))%nat ->
               i ∈ schedule) ->
    exists D entries,
      PrepareValidation.runValidation query typeCasts document schedule
        diagnostics0 log0
      = Some (<[doc_uri document := D]> diagnostics0, log0 ++ entries)
      /\ D ≡ₚ omap (PrepareValidation.prepareDiagnosticOf
                      query typeCasts document)
                (fst (getHasqlContent document))
      /\ (forall h,
            query (PrepareGeneration.prepareStatement
                     (default ∅
                        (typeCasts !! expressionHash (getText document h)))
                     (getText document h)) []
            = None ->
            PrepareValidation.prepareDiagnosticOf query typeCasts document h
            = None)
      /\ (forall h e,
            query (PrepareGeneration.prepareStatement
                     (default ∅
                        (typeCasts !! expressionHash (getText document h)))
                     (getText document h)) []
            = Some e ->
            PrepareValidation.prepareDiagnosticOf query typeCasts document h
            = Some (mkDiagnostic h
                      ("Query cyrb53 hash: "
                       +:+ numberToString (expressionHash (getText document h))
                       +:+ match err_message e with
                           | EmptyString => EmptyString
                           | message => NL +:+ message
                           end
                       +:+ match err_hint e with
                           | Some (String c hint) => NL +:+ String c hint
                           | _ => EmptyString
                           end))).
Proof.
  intros query typeCasts document schedule diagnostics0 log0 W Fair.
  destruct (prepare_runValidation_complete query typeCasts document
              schedule diagnostics0 log0 W Fair) as (D & entries & E & P).
  exists D, entries. split; [exact E|]. split; [exact P|]. split.
  - intros h A. unfold PrepareValidation.prepareDiagnosticOf,
      PrepareValidation.runPrepareCheck, PrepareValidation.prepareTypeCasts.
    now rewrite A.
  - intros h e A. unfold PrepareValidation.prepareDiagnosticOf,
      PrepareValidation.runPrepareCheck, PrepareValidation.prepareTypeCasts.
    rewrite A. now rewrite diagnosticMessage_parts.
Qed.

Lemma prepare_pass_replaces_diagnostics_witness :
  exists entries,
    PrepareValidation.runValidation
      (fun statement _ =>
         if includes "nope" statement
         then Some (mkDatabaseError "column nope does not exist"
                      (Some "Check the column name."))
         else None)
      ∅
      (mkTextDocument "file:///Statements.hs" "Statements.hs" NL
         ["a = [hasql| select nope |]"; "b = [hasql| select $1 |]"])
      [1; 0]%nat
      {[ "file:///Statements.hs" :=
           [mkDiagnostic (mkRange (mkPosition 5 0) (mkPosition 5 1)) "old"] ]}
      []
    = Some ({[ "file:///Statements.hs" :=
                 [mkDiagnostic (mkRange (mkPosition 0 11) (mkPosition 0 24))
                    ("Query cyrb53 hash: 6822451149357601" +:+ NL
                     +:+ "column nope does not exist" +:+ NL
                     +:+ "Check the column name.")] ]},
            entries).
Proof.
  set (query := fun (statement : string) (_ : list jsval) =>
         if includes "nope" statement
         then Some (mkDatabaseError "column nope does not exist"
                      (Some "Check the column name."))
         else None).
  set (d := mkDiagnostic (mkRange (mkPosition 0 11) (mkPosition 0 24))
              ("Query cyrb53 hash: 6822451149357601" +:+ NL
               +:+ "column nope does not exist" +:+ NL
               +:+ "Check the column name.")).
  assert (Fair : forall i, (i < 2)%nat -> i ∈ [1; 0]%nat).
  { intros [|[|i]] Hi; [set_solver|set_solver|lia]. }
  destruct (prepare_pass_replaces_diagnostics query ∅
              (mkTextDocument "file:///Statements.hs" "Statements.hs" NL
                 ["a = [hasql| select nope |]"; "b = [hasql| select $1 |]"])
              [1; 0]%nat
              {[ "file:///Statements.hs" :=
                   [mkDiagnostic (mkRange (mkPosition 5 0) (mkPosition 5 1))
                      "old"] ]}
              [] eq_refl Fair)
    as (D & entries & E & P & _).
  assert (O : omap (PrepareValidation.prepareDiagnosticOf query ∅
                      (mkTextDocument "file:///Statements.hs"
                         "Statements.hs" NL
                         ["a = [hasql| select nope |]";
                          "b = [hasql| select $1 |]"]))
                (fst (getHasqlContent
                        (mkTextDocument "file:///Statements.hs"
                           "Statements.hs" NL
                           ["a = [hasql| select nope |]";
                            "b = [hasql| select $1 |]"])))
              = [d]) by (vm_compute; reflexivity).
  rewrite O in P. apply Permutation_singleton_r in P. subst D.
  exists ([] ++ entries). rewrite E. reflexivity.
Defined.


(** ** The connection pool *)

(** X13.  The pool never gets the configured password: its password
    option is the configured user name, and the setting [dbPassword] is
    not read, so that [createPool] over two configurations that differ in
    this setting only ends in the same state with the same result,
    whatever the database answers.  The module variable changes only when
    the call succeeds, in which case it holds the new pool and the pool
    it held before has been ended. *)
Theorem createPool_ignores_dbPassword
  (testQuery endPool : PoolOptions -> option string)
  (configuration : gmap string value) (secret : value) (w : pool_world) :
  password (poolOptions configuration) = configurationGet configuration "dbUser"
  /\ createPool testQuery endPool (<["dbPassword" := secret]> configuration) w
     = createPool testQuery endPool configuration w
  /\ match createPool testQuery endPool configuration w with
     | (w', Resolved pool) =>
         pool = poolOptions configuration
         /\ pgPool w' = Some pool
         /\ endedPools w'
            = endedPools w ++ match pgPool w with
                              | Some previous => [previous]
                              | None => []
                              end
         /\ channel w' = channel w ++ ["Connection is established!"]
     | (w', Rejected message) =>
         pgPool w' = pgPool w
         /\ endedPools w' = endedPools w
         /\ channel w'
            = channel w
              ++ ["Failed to test database connection: " +:+ message]
     end.
Proof.
  split; [reflexivity|]. split.
  - unfold createPool, poolOptions, configurationGet.
    rewrite !lookup_insert_ne by discriminate. reflexivity.
  - unfold createPool, createPool_failed.
    destruct (testQuery _); [auto|].
    destruct (pgPool w) as [previous|].
    + destruct (endPool previous); simpl; auto.
    + simpl. rewrite app_nil_r. auto.
Qed.

(** ** The normal form of a fragment text *)

Lemma removeWhiteSpace_no_white s :
  allChars (fun c => negb (isWhiteSpace c)) (removeWhiteSpace s) = true.
Proof.
  unfold removeWhiteSpace. induction s as [|c r IH]; [reflexivity|].
  simpl. destruct (isWhiteSpace c) eqn:W; simpl; [exact IH|].
  now rewrite W.
Qed.

Lemma toLocaleLowerCase_no_white s :
  allChars (fun c => negb (isWhiteSpace c)) s = true ->
  allChars (fun c => negb (isWhiteSpace c)) (toLocaleLowerCase s) = true.
Proof.
  unfold toLocaleLowerCase. induction s as [|c r IH]; [reflexivity|].
  simpl. intros A. apply andb_prop in A as [C A].
  rewrite IH by exact A. rewrite isWhiteSpace_lower, C. reflexivity.
Qed.

(** X14.  Of the four stages of the normalisation, two do all the work:
    the normal form is the text without its white space, in lower case;
    removing the line breaks first and trimming afterwards change
    nothing.  The normal form holds no white space, and lower-casing it
    again changes nothing. *)
Theorem normal_form_is_two_stage (expression : string) :
  expressionEssential expression
  = toLocaleLowerCase (removeWhiteSpace expression)
  /\ allChars (fun c => negb (isWhiteSpace c))
       (expressionEssential expression) = true
  /\ toLocaleLowerCase (expressionEssential expression)
     = expressionEssential expression.
Proof.
  rewrite expressionEssential_spec. split; [reflexivity|]. split.
  - apply toLocaleLowerCase_no_white, removeWhiteSpace_no_white.
  - apply toLocaleLowerCase_idem.
Qed.


(** ** The text of a fragment *)

Lemma lineText_lookup doc (i : nat) l :
  doc_lines doc !! i = Some l -> lineText doc (Z.of_nat i) = l.
Proof.
  intros H. unfold lineText. rewrite Nat2Z.id.
  apply nth_lookup_Some with (d := EmptyString) in H. exact H.
Qed.


